(** * muaddib: package extraction and indicator matching

    A shallow embedding of the scanner core of muaddib
    (internal/scanner/parser.go, internal/scanner/matcher.go and the
    indicator database of package vuln) together with the properties
    that its specification states about it.

    Go strings are byte sequences; they are modelled by [string], whose
    characters are the bytes.  Go's [int] results that use -1 for
    "not found" are modelled in [Z].  Go maps used as indexes are
    [gmap]s, maps used as sets of seen keys are [gset]s, and a map that
    the code ranges over (whose iteration order Go leaves open) is an
    association list in the order of the iteration. *)

From Stdlib Require Import ZArith String Ascii List Bool Lia.
From stdpp Require Import gmap strings list fin_maps pretty.

Local Open Scope Z_scope.

(** ** The part of Go's standard library the program uses *)

(** Bytes that have no spelling inside a string literal. *)
Definition LF : ascii := "010"%char.
Definition DQUOTE : ascii := "034"%char.
Definition nl : string := String LF EmptyString.
Definition dq : string := String DQUOTE EmptyString.

(** [s] between double quotes. *)
Definition quoted (s : string) : string := dq +:+ s +:+ dq.

Definition len (s : string) : Z := Z.of_nat (String.length s).

Fixpoint str_take (n : nat) (s : string) : string :=
  match n, s with
  | S n', String c s' => String c (str_take n' s')
  | _, _ => EmptyString
  end.

Fixpoint str_drop (n : nat) (s : string) : string :=
  match n, s with
  | S n', String _ s' => str_drop n' s'
  | _, _ => s
  end.

(** [s[:i]] and [s[i:]]. *)
Definition slice_to (s : string) (i : Z) : string := str_take (Z.to_nat i) s.
Definition slice_from (s : string) (i : Z) : string := str_drop (Z.to_nat i) s.

(** The part of unicode/utf8 that [strings.ToLower] uses.  A rune is a
    code point in [Z]; the bytes of a string are numbers below 256. *)
Module utf8.

Definition RuneError : Z := 65533.

Definition between (lo hi b : Z) : bool := (lo <=? b) && (b <=? hi).

(** [DecodeRuneInString]: the first rune of the bytes and its width;
    an encoding that is not valid (a byte that cannot start a rune, a
    wrong or missing continuation byte, an overlong form, a surrogate,
    a value past U+10FFFF) gives [RuneError] and the width 1. *)
Definition DecodeRune (p : list Z) : Z * nat :=
  match p with
  | [] => (RuneError, 0%nat)
  | b0 :: rest =>
      if b0 <? 128 then (b0, 1%nat)
      else if between 194 223 b0 then
        match rest with
        | b1 :: _ =>
            if between 128 191 b1
            then ((b0 - 192) * 64 + (b1 - 128), 2%nat)
            else (RuneError, 1%nat)
        | _ => (RuneError, 1%nat)
        end
      else if between 224 239 b0 then
        match rest with
        | b1 :: b2 :: _ =>
            if between (if b0 =? 224 then 160 else 128)
                       (if b0 =? 237 then 159 else 191) b1
               && between 128 191 b2
            then ((b0 - 224) * 4096 + (b1 - 128) * 64 + (b2 - 128), 3%nat)
            else (RuneError, 1%nat)
        | _ => (RuneError, 1%nat)
        end
      else if between 240 244 b0 then
        match rest with
        | b1 :: b2 :: b3 :: _ =>
            if between (if b0 =? 240 then 144 else 128)
                       (if b0 =? 244 then 143 else 191) b1
               && between 128 191 b2 && between 128 191 b3
            then ((b0 - 240) * 262144 + (b1 - 128) * 4096
                  + (b2 - 128) * 64 + (b3 - 128), 4%nat)
            else (RuneError, 1%nat)
        | _ => (RuneError, 1%nat)
        end
      else (RuneError, 1%nat)
  end.

(** [AppendRune]: the encoding of a rune; a value that is not a code
    point is encoded as [RuneError]. *)
Definition EncodeRune (r : Z) : list Z :=
  let r :=
    if (r <? 0) || (1114111 <? r) || between 55296 57343 r
    then RuneError else r in
  if r <? 128 then [r]
  else if r <? 2048 then [192 + r / 64; 128 + r mod 64]
  else if r <? 65536
  then [224 + r / 4096; 128 + (r / 64) mod 64; 128 + r mod 64]
  else [240 + r / 262144; 128 + (r / 4096) mod 64; 128 + (r / 64) mod 64;
        128 + r mod 64].

End utf8.

Module unicode.

(** The lower-case mappings of [unicode.CaseRanges] (Unicode 15.0), as
    runs [(first, last, stride, delta)]: the code points [first],
    [first + stride], ... up to [last] map to themselves plus
    [delta]. *)
Definition lowerRuns : list (Z * Z * Z * Z) :=
  [
    (65, 90, 1, 32); (192, 214, 1, 32); (216, 222, 1, 32); (256, 302, 2, 1);
    (304, 304, 1, -199); (306, 310, 2, 1); (313, 327, 2, 1); (330, 374, 2, 1);
    (376, 376, 1, -121); (377, 381, 2, 1); (385, 385, 1, 210);
    (386, 388, 2, 1); (390, 390, 1, 206); (391, 391, 1, 1);
    (393, 394, 1, 205); (395, 395, 1, 1); (398, 398, 1, 79);
    (399, 399, 1, 202); (400, 400, 1, 203); (401, 401, 1, 1);
    (403, 403, 1, 205); (404, 404, 1, 207); (406, 406, 1, 211);
    (407, 407, 1, 209); (408, 408, 1, 1); (412, 412, 1, 211);
    (413, 413, 1, 213); (415, 415, 1, 214); (416, 420, 2, 1);
    (422, 422, 1, 218); (423, 423, 1, 1); (425, 425, 1, 218);
    (428, 428, 1, 1); (430, 430, 1, 218); (431, 431, 1, 1);
    (433, 434, 1, 217); (435, 437, 2, 1); (439, 439, 1, 219);
    (440, 440, 1, 1); (444, 444, 1, 1); (452, 452, 1, 2); (453, 453, 1, 1);
    (455, 455, 1, 2); (456, 456, 1, 1); (458, 458, 1, 2); (459, 475, 2, 1);
    (478, 494, 2, 1); (497, 497, 1, 2); (498, 500, 2, 1); (502, 502, 1, -97);
    (503, 503, 1, -56); (504, 542, 2, 1); (544, 544, 1, -130);
    (546, 562, 2, 1); (570, 570, 1, 10795); (571, 571, 1, 1);
    (573, 573, 1, -163); (574, 574, 1, 10792); (577, 577, 1, 1);
    (579, 579, 1, -195); (580, 580, 1, 69); (581, 581, 1, 71);
    (582, 590, 2, 1); (880, 882, 2, 1); (886, 886, 1, 1); (895, 895, 1, 116);
    (902, 902, 1, 38); (904, 906, 1, 37); (908, 908, 1, 64);
    (910, 911, 1, 63); (913, 929, 1, 32); (931, 939, 1, 32); (975, 975, 1, 8);
    (984, 1006, 2, 1); (1012, 1012, 1, -60); (1015, 1015, 1, 1);
    (1017, 1017, 1, -7); (1018, 1018, 1, 1); (1021, 1023, 1, -130);
    (1024, 1039, 1, 80); (1040, 1071, 1, 32); (1120, 1152, 2, 1);
    (1162, 1214, 2, 1); (1216, 1216, 1, 15); (1217, 1229, 2, 1);
    (1232, 1326, 2, 1); (1329, 1366, 1, 48); (4256, 4293, 1, 7264);
    (4295, 4295, 1, 7264); (4301, 4301, 1, 7264); (5024, 5103, 1, 38864);
    (5104, 5109, 1, 8); (7312, 7354, 1, -3008); (7357, 7359, 1, -3008);
    (7680, 7828, 2, 1); (7838, 7838, 1, -7615); (7840, 7934, 2, 1);
    (7944, 7951, 1, -8); (7960, 7965, 1, -8); (7976, 7983, 1, -8);
    (7992, 7999, 1, -8); (8008, 8013, 1, -8); (8025, 8031, 2, -8);
    (8040, 8047, 1, -8); (8072, 8079, 1, -8); (8088, 8095, 1, -8);
    (8104, 8111, 1, -8); (8120, 8121, 1, -8); (8122, 8123, 1, -74);
    (8124, 8124, 1, -9); (8136, 8139, 1, -86); (8140, 8140, 1, -9);
    (8152, 8153, 1, -8); (8154, 8155, 1, -100); (8168, 8169, 1, -8);
    (8170, 8171, 1, -112); (8172, 8172, 1, -7); (8184, 8185, 1, -128);
    (8186, 8187, 1, -126); (8188, 8188, 1, -9); (8486, 8486, 1, -7517);
    (8490, 8490, 1, -8383); (8491, 8491, 1, -8262); (8498, 8498, 1, 28);
    (8544, 8559, 1, 16); (8579, 8579, 1, 1); (9398, 9423, 1, 26);
    (11264, 11311, 1, 48); (11360, 11360, 1, 1); (11362, 11362, 1, -10743);
    (11363, 11363, 1, -3814); (11364, 11364, 1, -10727); (11367, 11371, 2, 1);
    (11373, 11373, 1, -10780); (11374, 11374, 1, -10749);
    (11375, 11375, 1, -10783); (11376, 11376, 1, -10782);
    (11378, 11378, 1, 1); (11381, 11381, 1, 1); (11390, 11391, 1, -10815);
    (11392, 11490, 2, 1); (11499, 11501, 2, 1); (11506, 11506, 1, 1);
    (42560, 42604, 2, 1); (42624, 42650, 2, 1); (42786, 42798, 2, 1);
    (42802, 42862, 2, 1); (42873, 42875, 2, 1); (42877, 42877, 1, -35332);
    (42878, 42886, 2, 1); (42891, 42891, 1, 1); (42893, 42893, 1, -42280);
    (42896, 42898, 2, 1); (42902, 42920, 2, 1); (42922, 42922, 1, -42308);
    (42923, 42923, 1, -42319); (42924, 42924, 1, -42315);
    (42925, 42925, 1, -42305); (42926, 42926, 1, -42308);
    (42928, 42928, 1, -42258); (42929, 42929, 1, -42282);
    (42930, 42930, 1, -42261); (42931, 42931, 1, 928); (42932, 42946, 2, 1);
    (42948, 42948, 1, -48); (42949, 42949, 1, -42307);
    (42950, 42950, 1, -35384); (42951, 42953, 2, 1); (42960, 42960, 1, 1);
    (42966, 42968, 2, 1); (42997, 42997, 1, 1); (65313, 65338, 1, 32);
    (66560, 66599, 1, 40); (66736, 66771, 1, 40); (66928, 66938, 1, 39);
    (66940, 66954, 1, 39); (66956, 66962, 1, 39); (66964, 66965, 1, 39);
    (68736, 68786, 1, 64); (71840, 71871, 1, 32); (93760, 93791, 1, 32);
    (125184, 125217, 1, 34)
  ].

Definition inRun (r : Z) (run : Z * Z * Z * Z) : bool :=
  let '(first, last, stride, _) := run in
  (first <=? r) && (r <=? last) && ((r - first) mod stride =? 0).

Definition ToLower (r : Z) : Z :=
  match find (inRun r) lowerRuns with
  | Some (_, _, _, delta) => r + delta
  | None => r
  end.

End unicode.

Module strings.

Fixpoint HasPrefix (s prefix : string) {struct prefix} : bool :=
  match prefix with
  | EmptyString => true
  | String p prefix' =>
      match s with
      | EmptyString => false
      | String c s' => Ascii.eqb c p && HasPrefix s' prefix'
      end
  end.

Definition HasSuffix (s suffix : string) : bool :=
  (String.length suffix <=? String.length s)%nat
  && String.eqb (str_drop (String.length s - String.length suffix) s) suffix.

Definition TrimPrefix (s prefix : string) : string :=
  if HasPrefix s prefix then str_drop (String.length prefix) s else s.

Definition TrimSuffix (s suffix : string) : string :=
  if HasSuffix s suffix
  then str_take (String.length s - String.length suffix) s
  else s.

(** Offset of the first occurrence of [substr] in [s]. *)
Fixpoint index (s substr : string) : option nat :=
  if HasPrefix s substr then Some 0%nat
  else match s with
       | EmptyString => None
       | String _ s' => S <$> index s' substr
       end.

(** Offset of the last occurrence of [substr] in [s]. *)
Fixpoint last_index (s substr : string) : option nat :=
  match s with
  | EmptyString => if HasPrefix s substr then Some 0%nat else None
  | String _ s' =>
      match last_index s' substr with
      | Some i => Some (S i)
      | None => if HasPrefix s substr then Some 0%nat else None
      end
  end.

Definition Index (s substr : string) : Z :=
  match index s substr with Some i => Z.of_nat i | None => -1 end.

Definition LastIndex (s substr : string) : Z :=
  match last_index s substr with Some i => Z.of_nat i | None => -1 end.

Definition Contains (s substr : string) : bool := 0 <=? Index s substr.

(** [genSplit]: cut [s] at the occurrences of a non-empty [sep], left
    to right, into at most [S n] pieces; the last piece is the unsplit
    rest.  Every cut consumes at least one byte, so [fuel] bounds the
    number of cuts. *)
Fixpoint genSplit (fuel n : nat) (s sep : string) : list string :=
  match fuel, n with
  | S fuel', S n' =>
      match index s sep with
      | Some m =>
          str_take m s
            :: genSplit fuel' n' (str_drop (m + String.length sep) s) sep
      | None => [s]
      end
  | _, _ => [s]
  end.

Definition Split (s sep : string) : list string :=
  genSplit (String.length s) (String.length s) s sep.

(** [SplitN s sep n] for [n > 0]: at most [n] pieces. *)
Definition SplitN (s sep : string) (n : nat) : list string :=
  match n with
  | O => []
  | S n' => genSplit (String.length s) n' s sep
  end.

Fixpoint Join (elems : list string) (sep : string) : string :=
  match elems with
  | [] => EmptyString
  | [e] => e
  | e :: rest => e +:+ sep +:+ Join rest sep
  end.

(** The white space of [unicode.IsSpace] in its UTF-8 encoding: the
    six ASCII blanks, U+0085, U+00A0, U+1680, U+2000..U+200A, U+2028,
    U+2029, U+202F, U+205F and U+3000.  A string starts (ends) with a
    white-space rune exactly when it starts (ends) with one of these
    byte sequences. *)
Definition bytes (l : list nat) : string :=
  string_of_list_ascii (map ascii_of_nat l).

Definition spaceRunes : list string :=
  map bytes
    ([[9]; [10]; [11]; [12]; [13]; [32]; [194; 133]; [194; 160];
      [225; 154; 128]]
     ++ map (fun b => [226; 128; b]) (seq 128 11)
     ++ [[226; 128; 168]; [226; 128; 169]; [226; 128; 175];
         [226; 129; 159]; [227; 128; 128]])%nat.

Definition leadingSpace (s : string) : option string :=
  find (HasPrefix s) spaceRunes.

Definition trailingSpace (s : string) : option string :=
  find (HasSuffix s) spaceRunes.

Fixpoint trimLeftSpace (fuel : nat) (s : string) : string :=
  match fuel with
  | O => s
  | S fuel' =>
      match leadingSpace s with
      | Some r => trimLeftSpace fuel' (str_drop (String.length r) s)
      | None => s
      end
  end.

Fixpoint trimRightSpace (fuel : nat) (s : string) : string :=
  match fuel with
  | O => s
  | S fuel' =>
      match trailingSpace s with
      | Some r =>
          trimRightSpace fuel'
            (str_take (String.length s - String.length r) s)
      | None => s
      end
  end.

Definition TrimSpace (s : string) : string :=
  trimRightSpace (String.length s) (trimLeftSpace (String.length s) s).

(** [Trim s cutset] for a cutset of ASCII bytes. *)
Definition inCutset (cutset : string) (c : ascii) : bool :=
  existsb (Ascii.eqb c) (list_ascii_of_string cutset).

Fixpoint trimLeftBytes (cutset s : string) : string :=
  match s with
  | String c s' => if inCutset cutset c then trimLeftBytes cutset s' else s
  | EmptyString => s
  end.

Fixpoint trimRightBytes (cutset s : string) : string :=
  match s with
  | EmptyString => EmptyString
  | String c s' =>
      match trimRightBytes cutset s' with
      | EmptyString =>
          if inCutset cutset c then EmptyString else String c EmptyString
      | rest => String c rest
      end
  end.

Definition Trim (s cutset : string) : string :=
  trimLeftBytes cutset (trimRightBytes cutset s).

(** [ToLower]: a string of ASCII bytes has its letters A..Z mapped to
    a..z; any other string is decoded rune by rune and encoded again
    with every rune mapped by [unicode.ToLower] ([strings.Map]), a byte
    that is not part of a valid encoding becoming U+FFFD. *)
Definition lowerByte (c : ascii) : ascii :=
  let n := nat_of_ascii c in
  if ((65 <=? n) && (n <=? 90))%nat then ascii_of_nat (n + 32) else c.

Fixpoint lowerASCII (s : string) : string :=
  match s with
  | EmptyString => EmptyString
  | String c s' => String (lowerByte c) (lowerASCII s')
  end.

Definition isASCIIByte (c : ascii) : bool :=
  match c with Ascii _ _ _ _ _ _ _ b7 => negb b7 end.

Fixpoint isASCII (s : string) : bool :=
  match s with
  | EmptyString => true
  | String c s' => isASCIIByte c && isASCII s'
  end.

Definition byteValues (s : string) : list Z :=
  map (fun c => Z.of_nat (nat_of_ascii c)) (list_ascii_of_string s).

Definition ofByteValues (p : list Z) : string :=
  string_of_list_ascii (map (fun b => ascii_of_nat (Z.to_nat b)) p).

(** The loop of [Map] over the runes of the bytes; [skip] counts the
    bytes of the current rune that are still to be passed over. *)
Fixpoint mapRunes (mapping : Z -> Z) (skip : nat) (p : list Z) : list Z :=
  match p with
  | [] => []
  | _ :: rest =>
      match skip with
      | S skip' => mapRunes mapping skip' rest
      | O =>
          let '(r, width) := utf8.DecodeRune p in
          utf8.EncodeRune (mapping r) ++ mapRunes mapping (width - 1) rest
      end
  end.

Definition Map (mapping : Z -> Z) (s : string) : string :=
  ofByteValues (mapRunes mapping 0 (byteValues s)).

Definition ToLower (s : string) : string :=
  if isASCII s then lowerASCII s else Map unicode.ToLower s.

End strings.

(** ** internal/scanner/parser.go: pnpm package keys *)

(** The value of [version] after the first step of
    [stripPnpmPeerDepSuffix], which cuts a parenthesised decoration:
    [1.0.0(peer@2.0.0)] becomes [1.0.0]. *)
Definition stripParenSuffix (version : string) : string :=
  let idx := strings.Index version "(" in
  if 0 <? idx then slice_to version idx else version.

(** [stripPnpmPeerDepSuffix] removes peer dependency suffixes from pnpm
    versions: first the parenthesised one, then the underscore one. *)
Definition stripPnpmPeerDepSuffix (version : string) : string :=
  let version := stripParenSuffix version in
  let idx := strings.Index version "_" in
  if 0 <? idx then
    let suffix := slice_from version (idx + 1) in
    if strings.Contains suffix "@" then slice_to version idx else version
  else version.

(** [key[:idx], strip(key[idx+1:])] at the last slash, when there is one
    past the first byte. *)
Definition splitAtLastSlash (key : string) : string * string :=
  let idx := strings.LastIndex key "/" in
  if 0 <? idx
  then (slice_to key idx, stripPnpmPeerDepSuffix (slice_from key (idx + 1)))
  else (EmptyString, EmptyString).

Definition parsePnpmPackageKey (key : string) : string * string :=
  let key := strings.TrimPrefix key "/" in
  if strings.HasPrefix key "@" then
    let parts := strings.SplitN key "@" 3 in
    if (length parts <? 2)%nat then (EmptyString, EmptyString)
    else
      let scopedName := "@" +:+ nth 1 parts EmptyString in
      if (length parts =? 3)%nat
      then (scopedName, stripPnpmPeerDepSuffix (nth 2 parts EmptyString))
      else splitAtLastSlash key
  else if strings.Contains key "@" then
    let parts := strings.SplitN key "@" 2 in
    if (length parts =? 2)%nat
    then (nth 0 parts EmptyString,
          stripPnpmPeerDepSuffix (nth 1 parts EmptyString))
    else splitAtLastSlash key
  else splitAtLastSlash key.

(** ** internal/scanner/parser.go: records and decoded documents *)

(** What a Go function returns as [(value, error)]. *)
Inductive result (A : Type) : Type :=
| Ok (value : A)
| Err (msg : string).
Arguments Ok {A} value.
Arguments Err {A} msg.

Definition is_ok {A : Type} (r : result A) : bool :=
  match r with Ok _ => true | Err _ => false end.

Record Package : Type := mkPackage {
  Name : string;
  Version : string;
  IsDev : bool;
  Source : string  (* "direct" or "transitive" *)
}.

(** The documents as [json.Unmarshal] and [yaml.Unmarshal] fill them
    in.  A Go map that the parsers range over is the list of its
    bindings in the order of the iteration. *)
Module PackageJSON.
Record t : Type := mk {
  Name : string;
  Version : string;
  Dependencies : list (string * string);
  DevDependencies : list (string * string);
  OptionalDependencies : list (string * string);
  PeerDependencies : list (string * string)
}.
End PackageJSON.

Module PackageLockEntry.
Record t : Type := mk {
  Version : string;
  Resolved : string;
  Dev : bool;
  Optional : bool;
  Dependencies : list (string * string)
}.
End PackageLockEntry.

#[local] Set Warnings "-register-all".
Inductive LegacyLockEntry : Type :=
| mkLegacyLockEntry
    (Version : string) (Dev Optional : bool)
    (Requires : list (string * string))
    (Dependencies : list (string * LegacyLockEntry)).

Module PackageLockJSON.
Record t : Type := mk {
  Name : string;
  Version : string;
  LockfileVersion : Z;
  Packages : list (string * PackageLockEntry.t);
  Dependencies : list (string * LegacyLockEntry)
}.
End PackageLockJSON.

Module PnpmLockEntry.
Record t : Type := mk {
  Version : string;
  Resolution : list (string * string);
  Dev : bool;
  Optional : bool;
  Dependencies : list (string * string)
}.
End PnpmLockEntry.

Module PnpmLockYAML.
Record t : Type := mk {
  LockfileVersion : string;
  Packages : list (string * PnpmLockEntry.t)
}.
End PnpmLockYAML.

(** ** internal/scanner/parser.go: package.json and package-lock.json *)

Definition extractPackageName (pkgPath : string) : string :=
  let path := strings.TrimPrefix pkgPath "node_modules/" in
  let parts := strings.Split path "/node_modules/" in
  let lastPart := List.last parts EmptyString in
  let segments := strings.SplitN lastPart "/" 3 in
  if strings.HasPrefix lastPart "@" && (2 <=? length segments)%nat
  then nth 0 segments EmptyString +:+ "/" +:+ nth 1 segments EmptyString
  else nth 0 (strings.SplitN lastPart "/" 2) EmptyString.

Definition cleanVersion (version : string) : string :=
  let version := strings.TrimPrefix version "^" in
  let version := strings.TrimPrefix version "~" in
  let version := strings.TrimPrefix version ">=" in
  let version := strings.TrimPrefix version ">" in
  let version := strings.TrimPrefix version "<=" in
  let version := strings.TrimPrefix version "<" in
  let version := strings.TrimPrefix version "=" in
  let version := strings.TrimSpace version in
  let idx := strings.Index version " " in
  if 0 <? idx then slice_to version idx else version.

(** One of the four loops of [ParsePackageJSON]. *)
Definition directPackages (isDev : bool) (deps : list (string * string))
  : list Package :=
  map (fun '(name, version) =>
         {| Name := name; Version := cleanVersion version;
            IsDev := isDev; Source := "direct" |}) deps.

(** The loops of the parsers carry the set of seen [name@version] keys
    and the packages appended so far. *)
Definition acc : Type := gset string * list Package.

Definition pkgKey (name version : string) : string :=
  name +:+ "@" +:+ version.

(** [seen[key]] *)
Definition isSeen (key : string) (a : acc) : bool := bool_decide (key ∈ a.1).

(** [seen[key] = true] followed by the [append] of a transitive
    package. *)
Definition record (name version : string) (isDev : bool) (a : acc) : acc :=
  ({[pkgKey name version]} ∪ a.1,
   a.2 ++ [{| Name := name; Version := version;
              IsDev := isDev; Source := "transitive" |}]).

(** The body of the loop over [lock.Packages]. *)
Definition lockPackagesStep (includeDev : bool) (a : acc)
    (kv : string * PackageLockEntry.t) : acc :=
  let '(pkgPath, entry) := kv in
  if String.eqb pkgPath "" || String.eqb pkgPath "." then a
  else if PackageLockEntry.Dev entry && negb includeDev then a
  else
    let name := extractPackageName pkgPath in
    if String.eqb name "" then a
    else if isSeen (pkgKey name (PackageLockEntry.Version entry)) a then a
    else record name (PackageLockEntry.Version entry)
                (PackageLockEntry.Dev entry) a.

(** [parseLegacyDeps]: the dependency tree of the v1 format, entry by
    entry and into the nested dependencies of each entry that is kept.
    (The [prefix] argument of the source is never read.) *)
Fixpoint parseLegacyEntry (includeDev : bool) (name : string)
    (entry : LegacyLockEntry) (a : acc) {struct entry} : acc :=
  match entry with
  | mkLegacyLockEntry version dev _ _ deps =>
      if dev && negb includeDev then a
      else if isSeen (pkgKey name version) a then a
      else
          let a := record name version dev a in
          (fix range (deps : list (string * LegacyLockEntry)) (a : acc) : acc :=
             match deps with
             | [] => a
             | (name', entry') :: deps' =>
                 range deps' (parseLegacyEntry includeDev name' entry' a)
             end) deps a
  end.

Definition parseLegacyDeps (deps : list (string * LegacyLockEntry))
    (includeDev : bool) (a : acc) : acc :=
  foldl (fun a '(name, entry) => parseLegacyEntry includeDev name entry a)
        a deps.

Section Parsers.

(** The decoders of encoding/json and yaml.v3, at the types they are
    called at; [Err] carries the decoder's message. *)
Variable json_Unmarshal_PackageJSON : string -> result PackageJSON.t.
Variable json_Unmarshal_PackageLockJSON : string -> result PackageLockJSON.t.
Variable yaml_Unmarshal_PnpmLockYAML : string -> result PnpmLockYAML.t.

Definition ParsePackageJSON (content : string) (includeDev : bool)
  : result (list Package) :=
  match json_Unmarshal_PackageJSON content with
  | Err err => Err ("failed to parse package.json: " +:+ err)
  | Ok pkg =>
      Ok (directPackages false (PackageJSON.Dependencies pkg)
          ++ (if includeDev
              then directPackages true (PackageJSON.DevDependencies pkg)
              else [])
          ++ directPackages false (PackageJSON.OptionalDependencies pkg)
          ++ directPackages false (PackageJSON.PeerDependencies pkg))
  end.

Definition ParsePackageLock (content : string) (includeDev : bool)
  : result (list Package) :=
  match json_Unmarshal_PackageLockJSON content with
  | Err err => Err ("failed to parse package-lock.json: " +:+ err)
  | Ok lock =>
      let a : acc := (∅, []) in
      let a := foldl (lockPackagesStep includeDev) a
                     (PackageLockJSON.Packages lock) in
      let a := parseLegacyDeps (PackageLockJSON.Dependencies lock)
                               includeDev a in
      Ok a.2
  end.

(** The body of the loop over [lockFile.Packages]. *)
Definition pnpmStep (includeDev : bool) (a : acc)
    (kv : string * PnpmLockEntry.t) : acc :=
  let '(key, entry) := kv in
  if String.eqb key "" then a
  else if PnpmLockEntry.Dev entry && negb includeDev then a
  else
    let '(name, version) := parsePnpmPackageKey key in
    if String.eqb name "" || String.eqb version "" then a
    else if isSeen (pkgKey name version) a then a
    else record name version (PnpmLockEntry.Dev entry) a.

Definition ParsePnpmLock (content : string) (includeDev : bool)
  : result (list Package) :=
  match yaml_Unmarshal_PnpmLockYAML content with
  | Err err => Err ("failed to parse pnpm-lock.yaml: " +:+ err)
  | Ok lockFile =>
      Ok (foldl (pnpmStep includeDev) (∅, [])
                (PnpmLockYAML.Packages lockFile)).2
  end.

End Parsers.

(** ** internal/scanner/parser.go: yarn.lock (classic) *)

(** State of the line scanner. *)
Record yarnLockParser : Type := mkYarnLockParser {
  packages : list Package;
  seen : gset string;
  currentNames : list string;
  currentVer : string;
  inEntry : bool
}.

Definition newYarnLockParser : yarnLockParser :=
  {| packages := []; seen := ∅; currentNames := [];
     currentVer := EmptyString; inEntry := false |}.

(** The body of the loop of [saveCurrentEntry]. *)
Definition saveName (p : yarnLockParser) (name : string) : yarnLockParser :=
  let key := pkgKey name (currentVer p) in
  if bool_decide (key ∈ seen p) then p
  else
    {| packages :=
         packages p
         ++ [{| Name := name; Version := currentVer p;
                IsDev := false; Source := "transitive" |}];
       seen := {[key]} ∪ seen p;
       currentNames := currentNames p;
       currentVer := currentVer p;
       inEntry := inEntry p |}.

Definition saveCurrentEntry (p : yarnLockParser) : yarnLockParser :=
  if negb (inEntry p) || String.eqb (currentVer p) ""
     || (length (currentNames p) =? 0)%nat
  then p
  else foldl saveName p (currentNames p).

Definition trimSurroundingQuotes (s : string) : string :=
  if strings.HasPrefix s dq && strings.HasSuffix s dq
  then strings.TrimPrefix (strings.TrimSuffix s dq) dq
  else if strings.HasPrefix s "'" && strings.HasSuffix s "'"
  then strings.TrimPrefix (strings.TrimSuffix s "'") "'"
  else s.

Definition extractYarnPackageName (entry : string) : string :=
  let entry :=
    if strings.Contains entry "@npm:"
    then nth 0 (strings.SplitN entry "@npm:" 2) EmptyString
    else entry in
  if strings.HasPrefix entry "@" then
    let idx := strings.Index (slice_from entry 1) "@" in
    if 0 <? idx then slice_to entry (idx + 1) else entry
  else nth 0 (strings.SplitN entry "@" 2) EmptyString.

(** The body of the loop of [parseYarnDeclarationLine]: [names] and
    [seenNames]. *)
Definition declarationStep (a : list string * gset string) (nr : string)
  : list string * gset string :=
  let nr := strings.TrimSpace nr in
  let nr := trimSurroundingQuotes nr in
  let name := extractYarnPackageName nr in
  if negb (String.eqb name "") && negb (bool_decide (name ∈ a.2))
  then (a.1 ++ [name], {[name]} ∪ a.2)
  else a.

Definition parseYarnDeclarationLine (trimmed : string) : list string :=
  let namesStr := strings.TrimSuffix trimmed ":" in
  let nameRanges := strings.Split namesStr "," in
  (foldl declarationStep ([], ∅) nameRanges).1.

Definition TAB : string := String "009"%char EmptyString.

Definition isYarnDeclarationLine (line trimmed : string) : bool :=
  negb (strings.HasPrefix line " ")
  && negb (strings.HasPrefix line TAB)
  && strings.HasSuffix trimmed ":".

Definition parseYarnVersionLine (trimmed : string) : string :=
  let parts := strings.SplitN trimmed " " 2 in
  if (length parts =? 2)%nat
  then strings.Trim (nth 1 parts EmptyString) (dq +:+ "'")
  else EmptyString.

Definition isBerryVersionRangeStart (c : ascii) : bool :=
  let n := nat_of_ascii c in
  Ascii.eqb c "^" || Ascii.eqb c "~" || Ascii.eqb c ">" || Ascii.eqb c "<"
  || Ascii.eqb c "=" || ((48 <=? n) && (n <=? 57))%nat.

Definition hasBerryStyleNpmPrefix (trimmed : string) : bool :=
  let npmIdx := strings.Index trimmed "@npm:" in
  if npmIdx <? 0 then false
  else
    match slice_from trimmed (npmIdx + 5) with
    | EmptyString => false
    | String c _ => isBerryVersionRangeStart c
    end.

(** Comments and empty lines are skipped by both loops over the lines. *)
Definition skippedLine (trimmed : string) : bool :=
  String.eqb trimmed "" || strings.HasPrefix trimmed "#".

Definition berryLine (line : string) : bool :=
  let trimmed := strings.TrimSpace line in
  negb (skippedLine trimmed)
  && strings.HasSuffix trimmed ":" && hasBerryStyleNpmPrefix trimmed.

Definition isYarnBerryFormat (content : string) : bool :=
  if strings.Contains content "__metadata:" then true
  else existsb berryLine (strings.Split content nl).

(** The body of the loop of [ParseYarnLock]. *)
Definition yarnStep (p : yarnLockParser) (line : string) : yarnLockParser :=
  let trimmed := strings.TrimSpace line in
  if skippedLine trimmed then p
  else if isYarnDeclarationLine line trimmed then
    let p := saveCurrentEntry p in
    {| packages := packages p; seen := seen p;
       currentNames := parseYarnDeclarationLine trimmed;
       currentVer := EmptyString;
       inEntry := true |}
  else if inEntry p && strings.HasPrefix trimmed "version" then
    {| packages := packages p; seen := seen p;
       currentNames := currentNames p;
       currentVer := parseYarnVersionLine trimmed;
       inEntry := inEntry p |}
  else p.

Definition berryError : string :=
  "yarn.lock appears to be Yarn Berry (v2+) format which is not yet supported; only Yarn Classic (v1) format is supported".

Definition ParseYarnLock (content : string) (includeDev : bool)
  : result (list Package) :=
  if isYarnBerryFormat content then Err berryError
  else
    let p := foldl yarnStep newYarnLockParser (strings.Split content nl) in
    Ok (packages (saveCurrentEntry p)).

(** ** Package vuln: the indicator database *)

Record VulnEntry : Type := mkVulnEntry {
  PackageName : string;
  PackageVersion : string;   (* single version *)
  OriginalVersion : string   (* the version cell as written in the CSV *)
}.

(** [entries] is keyed by [package_name@version]; [totalEntries] counts
    every entry passed to [Add], before deduplication.  (Go's [int]
    counters are modelled by [nat]: they count steps of the run.) *)
Record VulnDB : Type := mkVulnDB {
  entries : gmap string VulnEntry;
  byName : gmap string (list VulnEntry);
  totalEntries : nat
}.

Definition NewVulnDB : VulnDB :=
  {| entries := ∅; byName := ∅; totalEntries := 0 |}.

Definition entryKey (entry : VulnEntry) : string :=
  PackageName entry +:+ "@" +:+ PackageVersion entry.

Definition Add (db : VulnDB) (entry : VulnEntry) : VulnDB :=
  let key := entryKey entry in
  match entries db !! key with
  | Some _ =>
      {| entries := entries db; byName := byName db;
         totalEntries := S (totalEntries db) |}
  | None =>
      {| entries := <[key := entry]> (entries db);
         byName :=
           <[PackageName entry :=
               default [] (byName db !! PackageName entry) ++ [entry]]>
             (byName db);
         totalEntries := S (totalEntries db) |}
  end.

Definition Check (db : VulnDB) (name version : string) : option VulnEntry :=
  if String.eqb name "" || String.eqb version "" then None
  else entries db !! (name +:+ "@" +:+ version).

Definition GetVulnerableVersions (db : VulnDB) (name : string)
  : option (list string) :=
  map PackageVersion <$> byName db !! name.

Definition Size (db : VulnDB) : nat := size (entries db).
Definition UniquePackages (db : VulnDB) : nat := size (byName db).
Definition TotalEntries (db : VulnDB) : nat := totalEntries db.

(** [Merge] adds the entries of [other] one by one; Go ranges over the
    map [other.entries], here in the order of [map_to_list]. *)
Definition Merge (db : VulnDB) (other : option VulnDB) : VulnDB :=
  match other with
  | None => db
  | Some other => foldl Add db (map_to_list (entries other)).*2
  end.

(** The body of the loop of [parseNpmVersionSpec]. *)
Definition npmSpecPart (part : string) : list string :=
  let part := strings.TrimSpace part in
  if String.eqb part "" then []
  else
    let part :=
      if strings.HasPrefix part "="
      then strings.TrimSpace (strings.TrimPrefix part "=")
      else part in
    if String.eqb part "" then [] else [part].

Definition parseNpmVersionSpec (versionSpec : string) : list string :=
  concat (map npmSpecPart (strings.Split versionSpec "||")).

Definition parseVersionList (versionField : string) : list string :=
  if strings.Contains versionField "= " || strings.HasPrefix versionField "="
  then parseNpmVersionSpec versionField
  else
    let versions :=
      filter (fun version => version <> EmptyString)
             (map strings.TrimSpace (strings.Split versionField ",")) in
    if (length versions =? 0)%nat && negb (String.eqb versionField "")
    then [versionField]
    else versions.

(** Column detection: the accepted spellings of the two roles. *)
Definition isNameColumn (colLower : string) : bool :=
  String.eqb colLower "package_name" || String.eqb colLower "packagename"
  || String.eqb colLower "name" || String.eqb colLower "package".

Definition isVersionColumn (colLower : string) : bool :=
  String.eqb colLower "package_versions"
  || String.eqb colLower "package_version"
  || String.eqb colLower "packageversion"
  || String.eqb colLower "version" || String.eqb colLower "versions".

(** The loop over the header: [(i+1, nameIdx, versionIdx)]. *)
Definition headerStep (st : Z * Z * Z) (col : string) : Z * Z * Z :=
  let '(i, nameIdx, versionIdx) := st in
  let colLower := strings.ToLower (strings.TrimSpace col) in
  (i + 1,
   if isNameColumn colLower then i else nameIdx,
   if isVersionColumn colLower then i else versionIdx).

(** [nameIdx] and [versionIdx] after the positional fallback. *)
Definition findColumns (header : list string) : Z * Z :=
  let '(_, nameIdx, versionIdx) := foldl headerStep (0, -1, -1) header in
  (if nameIdx =? -1 then 0 else nameIdx,
   if versionIdx =? -1 then 1 else versionIdx).

Definition index_at (record : list string) (i : Z) : string :=
  nth (Z.to_nat i) record EmptyString.

(** The entries that the body of the loop over [allRecords] passes to
    [Add] for one record, in order. *)
Definition recordEntries (nameIdx versionIdx : Z) (record : list string)
  : list VulnEntry :=
  if Z.of_nat (length record) <=? nameIdx then []
  else
    let packageName := strings.TrimSpace (index_at record nameIdx) in
    if String.eqb packageName "" then []
    else
      let versionField :=
        if (0 <=? versionIdx) && (versionIdx <? Z.of_nat (length record))
        then strings.TrimSpace (index_at record versionIdx)
        else EmptyString in
      if String.eqb versionField "" then []
      else
        map (fun version =>
               {| PackageName := packageName;
                  PackageVersion := version;
                  OriginalVersion := versionField |})
            (parseVersionList versionField).

(** The body of the loop over [allRecords]. *)
Definition processRecord (nameIdx versionIdx : Z) (db : VulnDB)
    (record : list string) : VulnDB :=
  foldl Add db (recordEntries nameIdx versionIdx record).

(** What [reader.Read] returns for the data lines: a line that does not
    parse is an error, and so is a record whose number of fields differs
    from the header's (the reader's [FieldsPerRecord] is set by the
    first record).  [parseCSV] skips both. *)
Definition readRecords (header : list string)
    (reads : list (result (list string))) : list (list string) :=
  omap (fun r => match r with
                 | Ok record =>
                     if (length record =? length header)%nat
                     then Some record else None
                 | Err _ => None
                 end) reads.

(** What [parseCSV] returns over a reader that reaches io.EOF, as a
    function of the results of [reader.Read] before io.EOF.  (The
    reader itself, the read loop, which does not end over a reader that
    never reaches io.EOF, and the call of [warn] are in [parseCSV_run]
    below.) *)
Definition parseCSV (reads : list (result (list string))) : result VulnDB :=
  match reads with
  | [] => Err "failed to read CSV header: EOF"
  | Err err :: _ => Err ("failed to read CSV header: " +:+ err)
  | Ok header :: rest =>
      if (length header <? 2)%nat
      then Err "CSV must have at least 2 columns (package name and version)"
      else
        let '(nameIdx, versionIdx) := findColumns header in
        Ok (foldl (processRecord nameIdx versionIdx) NewVulnDB
                  (readRecords header rest))
  end.

(** *** The warning of [parseCSV]

    When a column was not recognised and there is a record, [parseCSV]
    passes a message with the header and up to three sample lines to
    the warning callback, before it processes the records. *)

(** [usedFallback]: one of the two roles has no recognised column. *)
Definition usedFallback (header : list string) : bool :=
  let '(_, nameIdx, versionIdx) := foldl headerStep (0, -1, -1) header in
  (nameIdx =? -1) || (versionIdx =? -1).

(** [rec[i]]; an index out of range stops the program ([None]). *)
Definition elem_at (rec : list string) (i : Z) : option string :=
  if 0 <=? i then rec !! Z.to_nat i else None.

(** The sample line of one record for the warning. *)
Definition sampleLines (nameIdx versionIdx : Z) (rec : list string)
  : option (list string) :=
  if (1 <? length rec)%nat then
    name ← elem_at rec nameIdx;
    version ← elem_at rec versionIdx;
    Some ["  " +:+ name +:+ " @ " +:+ version]
  else Some [].

Definition samples (nameIdx versionIdx : Z) (allRecords : list (list string))
  : option (list string) :=
  let sampleCount :=
    if (length allRecords <? 3)%nat then length allRecords else 3%nat in
  @concat string <$> mapM (sampleLines nameIdx versionIdx)
                          (take sampleCount allRecords).

(** [%v] of a slice of strings. *)
Definition fmt_v (l : list string) : string :=
  "[" +:+ strings.Join l " " +:+ "]".

Definition warningMessage (header samples : list string) : string :=
  "CSV headers not recognized (found: " +:+ fmt_v header
  +:+ "). Assuming column 1 = package name, column 2 = version. Sample data:"
  +:+ nl +:+ strings.Join samples nl.

(** The call of [warn] once the records are read. *)
Definition warnCall (header : list string) (allRecords : list (list string))
  : option (option string) :=
  let '(nameIdx, versionIdx) := findColumns header in
  if usedFallback header && (0 <? length allRecords)%nat
  then
    s ← samples nameIdx versionIdx allRecords;
    Some (Some (warningMessage header s))
  else Some None.

(** What [parseCSV] passes to [warn], on the results of the reader
    before io.EOF: [Some (Some message)] for the call of [warn],
    [Some None] when [warn] is not called, and [None] when building the
    message stops the program. *)
Definition parseCSVWarning (reads : list (result (list string)))
  : option (option string) :=
  match reads with
  | Ok header :: rest =>
      if (length header <? 2)%nat then Some None
      else warnCall header (readRecords header rest)
  | _ => Some None
  end.

(** ** The reader, and the loops that may not end

    [parseCSV] above is the function of the reads that precede io.EOF.
    The code gets these reads from a [csv.Reader], one call of [Read]
    at a time, and goes on to the next call after every error that is
    not io.EOF: over a reader whose reads keep failing (a download that
    broke) the loop does not end.  Here are the reader and the loop. *)

(** [reader n] is what the call number [n] of [Read] finds in the
    input: a record, an error, or nothing more ([None], io.EOF). *)
Definition csvReader : Type := nat -> option (result (list string)).

(** [reader.Read()] past the header: the reader returns an error for a
    record whose number of fields is not the header's. *)
Definition Read (header : list string) (reader : csvReader) (n : nat)
  : option (result (list string)) :=
  match reader n with
  | Some (Ok record) =>
      if (length record =? length header)%nat then Some (Ok record)
      else Some (Err "wrong number of fields")
  | other => other
  end.

(** A run of a function with such a loop, observed for a number of
    calls of [Read]. *)
Inductive run (A : Type) : Type :=
| Running             (* the loop has not met io.EOF yet *)
| OutOfRange          (* stopped by an index out of range *)
| Returned (a : A).
Arguments Running {A}.
Arguments OutOfRange {A}.
Arguments Returned {A} a.

(** The loop that fills [allRecords], from the call number [n] on. *)
Fixpoint readAll (fuel : nat) (header : list string) (reader : csvReader)
    (n : nat) (allRecords : list (list string))
  : option (list (list string)) :=
  match fuel with
  | O => None
  | S fuel' =>
      match Read header reader n with
      | None => Some allRecords
      | Some (Err _) => readAll fuel' header reader (S n) allRecords
      | Some (Ok record) =>
          readAll fuel' header reader (S n) (allRecords ++ [record])
      end
  end.

(** [parseCSV] over a reader: the message passed to [warn], if any,
    and what is returned. *)
Definition parseCSV_run (fuel : nat) (reader : csvReader)
  : run (option string * result VulnDB) :=
  match reader 0%nat with
  | None => Returned (None, Err "failed to read CSV header: EOF")
  | Some (Err err) =>
      Returned (None, Err ("failed to read CSV header: " +:+ err))
  | Some (Ok header) =>
      if (length header <? 2)%nat
      then Returned
             (None,
              Err "CSV must have at least 2 columns (package name and version)")
      else
        let '(nameIdx, versionIdx) := findColumns header in
        match readAll fuel header reader 1 [] with
        | None => Running
        | Some allRecords =>
            match warnCall header allRecords with
            | None => OutOfRange
            | Some warned =>
                Returned
                  (warned,
                   Ok (foldl (processRecord nameIdx versionIdx) NewVulnDB
                             allRecords))
            end
        end
  end.

(** ** The loaders, over bodies that reach io.EOF

    What [http.Get] hands to [LoadFromURL]: the status code and the
    body, the latter as the sequence of results that the [csv.Reader]
    over it yields before io.EOF. *)
Record Response : Type := mkResponse {
  StatusCode : Z;
  Body : list (result (list string))
}.

Section Loader.

(** The outcome of the request for a URL. *)
Variable http_Get : string -> result Response.

Definition LoadFromURL (url : string) : result VulnDB :=
  match http_Get url with
  | Err err => Err ("failed to fetch vulnerability database: " +:+ err)
  | Ok resp =>
      if negb (StatusCode resp =? 200)
      then Err ("failed to fetch vulnerability database: HTTP "
                +:+ pretty (StatusCode resp))
      else parseCSV (Body resp)
  end.

(** The body of the loop of [LoadFromMultipleURLs]:
    [(db, errors, successCount)]. *)
Definition loadStep (st : VulnDB * list string * nat) (url : string)
  : VulnDB * list string * nat :=
  let '(db, errors, successCount) := st in
  match LoadFromURL url with
  | Err err => (db, errors ++ [url +:+ ": " +:+ err], successCount)
  | Ok sourceDB => (Merge db (Some sourceDB), errors, S successCount)
  end.

Definition LoadFromMultipleURLs (urls : list string) : result VulnDB :=
  if (length urls =? 0)%nat then Err "no URLs provided"
  else
    let '(db, errors, successCount) :=
      foldl loadStep (NewVulnDB, [], 0%nat) urls in
    if (successCount =? 0)%nat
    then Err ("failed to load any IOC sources: " +:+ strings.Join errors "; ")
    else Ok db.

End Loader.

(** ** The loaders, over readers *)

(** What [http.Get] hands to [LoadFromURL]: the status code and the
    body, as the reader over it. *)
Record HTTPResponse : Type := mkHTTPResponse {
  Code : Z;
  BodyReader : csvReader
}.

Section LoaderRuns.

Variable http_Get : string -> result HTTPResponse.

Definition LoadFromURL_run (fuel : nat) (url : string) : run (result VulnDB) :=
  match http_Get url with
  | Err err =>
      Returned (Err ("failed to fetch vulnerability database: " +:+ err))
  | Ok resp =>
      if negb (Code resp =? 200)
      then Returned (Err ("failed to fetch vulnerability database: HTTP "
                          +:+ pretty (Code resp)))
      else
        match parseCSV_run fuel (BodyReader resp) with
        | Running => Running
        | OutOfRange => OutOfRange
        | Returned (_, r) => Returned r
        end
  end.

Definition loadStep_run (fuel : nat)
    (st : run (VulnDB * list string * nat)) (url : string)
  : run (VulnDB * list string * nat) :=
  match st with
  | Returned (db, errors, successCount) =>
      match LoadFromURL_run fuel url with
      | Running => Running
      | OutOfRange => OutOfRange
      | Returned (Err err) =>
          Returned (db, errors ++ [url +:+ ": " +:+ err], successCount)
      | Returned (Ok sourceDB) =>
          Returned (Merge db (Some sourceDB), errors, S successCount)
      end
  | other => other
  end.

Definition LoadFromMultipleURLs_run (fuel : nat) (urls : list string)
  : run (result VulnDB) :=
  if (length urls =? 0)%nat then Returned (Err "no URLs provided")
  else
    match foldl (loadStep_run fuel) (Returned (NewVulnDB, [], 0%nat)) urls with
    | Running => Running
    | OutOfRange => OutOfRange
    | Returned (db, errors, successCount) =>
        Returned
          (if (successCount =? 0)%nat
           then Err ("failed to load any IOC sources: "
                     +:+ strings.Join errors "; ")
           else Ok db)
    end.

End LoaderRuns.

(** ** internal/scanner/matcher.go *)

(** Modelled from the spec: the declaration of [github.PackageFile]
    (internal/github/contents.go) is not among the sources; its three
    fields are the ones that matcher.go and its tests read and write,
    the triple (repository, relative path, raw text) of the
    specification. *)
Record PackageFile : Type := mkPackageFile {
  RepoName : string;
  Path : string;
  Content : string
}.

Module path.

Fixpoint stripTrailingSlashes (fuel : nat) (p : string) : string :=
  match fuel with
  | O => p
  | S fuel' =>
      if (0 <? String.length p)%nat && strings.HasSuffix p "/"
      then stripTrailingSlashes fuel' (str_take (String.length p - 1) p)
      else p
  end.

(** [Base] returns the last element of the path, trailing slashes
    removed; "." for the empty path and "/" for a path of slashes. *)
Definition Base (p : string) : string :=
  if String.eqb p "" then "."
  else
    let p := stripTrailingSlashes (String.length p) p in
    let i := strings.LastIndex p "/" in
    let p := if 0 <=? i then slice_from p (i + 1) else p in
    if String.eqb p "" then "/" else p.

End path.

Record VulnerablePackage : Type := mkVulnerablePackage {
  vpPackage : Package;
  vpVulnEntry : VulnEntry;
  vpFilePath : string;
  vpRepoName : string
}.

Record MaliciousScript : Type := mkMaliciousScript {
  msFilePath : string;
  msRepoName : string;
  msScriptName : string;
  msCommand : string;
  msPattern : string
}.

(** The result of [ScanFiles]; the fields of the source that [ScanFiles]
    leaves at their zero value (workflows, branches, error) are left
    out. *)
Record RepoScanResult : Type := mkRepoScanResult {
  rsRepoName : string;
  TotalPackages : nat;
  VulnerablePackages : list VulnerablePackage;
  MaliciousScripts : list MaliciousScript;
  FilesScanned : nat
}.

Definition MaliciousScriptPatterns : list string :=
  ["node bundle.js"; "setup_bun.js"; "bun_environment.js"].

Definition LifecycleScripts : list string :=
  ["preinstall"; "install"; "postinstall"; "preuninstall"; "uninstall";
   "postuninstall"; "prepublish"; "preprepare"; "prepare"; "postprepare"].

Section Scanner.

Variable json_Unmarshal_PackageJSON : string -> result PackageJSON.t.
Variable json_Unmarshal_PackageLockJSON : string -> result PackageLockJSON.t.
Variable json_Unmarshal_Scripts : string -> result (gmap string string).

Record Scanner : Type := mkScanner {
  db : VulnDB;
  includeDev : bool
}.

Definition NewScanner (db : VulnDB) (includeDev : bool) : Scanner :=
  {| db := db; includeDev := includeDev |}.

Definition parseFile (s : Scanner) (file : PackageFile)
  : result (list Package) :=
  let filename := path.Base (Path file) in
  if String.eqb filename "package.json"
  then ParsePackageJSON json_Unmarshal_PackageJSON (Content file)
                        (includeDev s)
  else if String.eqb filename "package-lock.json"
  then ParsePackageLock json_Unmarshal_PackageLockJSON (Content file)
                        (includeDev s)
  else Ok [].

(** [extractScripts]: the [scripts] object of a package.json, nil
    when the content does not decode.  (An absent [scripts] object
    decodes to the nil map, which holds no script.) *)
Definition extractScripts (content : string) : option (gmap string string) :=
  match json_Unmarshal_Scripts content with
  | Err _ => None
  | Ok scripts => Some scripts
  end.

Definition scriptFindings (file : PackageFile)
    (scripts : gmap string string) : list MaliciousScript :=
  scriptName ← LifecycleScripts;
  match scripts !! scriptName with
  | None => []
  | Some command =>
      pattern ← MaliciousScriptPatterns;
      if strings.Contains command pattern
      then [{| msFilePath := Path file; msRepoName := RepoName file;
               msScriptName := scriptName; msCommand := command;
               msPattern := pattern |}]
      else []
  end.

Definition CheckPackageScripts (s : Scanner) (files : list PackageFile)
  : list MaliciousScript :=
  file ← files;
  if negb (strings.HasSuffix (Path file) "package.json")
     || strings.Contains (Path file) "package-lock"
  then []
  else
    match extractScripts (Content file) with
    | None => []
    | Some scripts => scriptFindings file scripts
    end.

(** The loop over the packages of one file:
    [(seen, TotalPackages, VulnerablePackages)]. *)
Definition scanPackage (s : Scanner) (file : PackageFile)
    (st : gset string * nat * list VulnerablePackage) (pkg : Package)
  : gset string * nat * list VulnerablePackage :=
  let '(seen, total, vulnerable) := st in
  let key := pkgKey (Name pkg) (Version pkg) in
  let '(seen, total) :=
    if bool_decide (key ∈ seen) then (seen, total)
    else ({[key]} ∪ seen, S total) in
  match Check (db s) (Name pkg) (Version pkg) with
  | Some vulnEntry =>
      (seen, total,
       vulnerable
       ++ [{| vpPackage := pkg; vpVulnEntry := vulnEntry;
              vpFilePath := Path file; vpRepoName := RepoName file |}])
  | None => (seen, total, vulnerable)
  end.

Definition scanFile (s : Scanner)
    (st : gset string * nat * list VulnerablePackage) (file : PackageFile)
  : gset string * nat * list VulnerablePackage :=
  match parseFile s file with
  | Err _ => st
  | Ok packages => foldl (scanPackage s file) st packages
  end.

Definition ScanFiles (s : Scanner) (files : list PackageFile)
  : RepoScanResult :=
  match files with
  | [] =>
      {| rsRepoName := EmptyString; TotalPackages := 0;
         VulnerablePackages := []; MaliciousScripts := [];
         FilesScanned := 0 |}
  | first :: _ =>
      let '(_, total, vulnerable) := foldl (scanFile s) (∅, 0%nat, []) files in
      {| rsRepoName := RepoName first; TotalPackages := total;
         VulnerablePackages := vulnerable;
         MaliciousScripts := CheckPackageScripts s files;
         FilesScanned := length files |}
  end.

End Scanner.

(** Modelled from the spec: the declaration of [github.WorkflowFile]
    (internal/github/contents.go) is not among the sources; its three
    fields are the ones that matcher.go reads and its tests write, the
    same triple as for a package file. *)
Record WorkflowFile : Type := mkWorkflowFile {
  wfRepoName : string;
  wfPath : string;
  wfContent : string
}.

Record MaliciousWorkflow : Type := mkMaliciousWorkflow {
  mwFilePath : string;
  mwRepoName : string;
  mwPattern : string
}.

Definition MaliciousWorkflowPattern : string :=
  "echo ${{ github.event.discussion.body }}".

Definition CheckWorkflows (s : Scanner) (workflows : list WorkflowFile)
  : list MaliciousWorkflow :=
  wf ← workflows;
  if strings.Contains (wfContent wf) MaliciousWorkflowPattern
  then [{| mwFilePath := wfPath wf; mwRepoName := wfRepoName wf;
           mwPattern := MaliciousWorkflowPattern |}]
  else [].

(** ** The vocabulary of the properties *)

(** Every entry of the index sits under its own [name@version] key. *)
Definition keyed (db : VulnDB) : Prop :=
  forall k e, entries db !! k = Some e -> k = entryKey e.

(** [parseCSV] as a sequence of [Add]. *)
Definition csvEntries (header : list string)
    (rest : list (result (list string))) : list VulnEntry :=
  concat (map (recordEntries (findColumns header).1 (findColumns header).2)
              (readRecords header rest)).

Definition nonEmptyRecord (p : Package) : Prop :=
  Name p <> EmptyString /\ Version p <> EmptyString.

(** The line scanner of yarn.lock keeps: the packages saved have a name
    and a version and are not marked as development-only, and the names
    of the open entry are not empty. *)
Definition yarnInv (p : yarnLockParser) : Prop :=
  Forall (fun pkg => nonEmptyRecord pkg /\ IsDev pkg = false) (packages p)
  /\ Forall (fun name => name <> EmptyString) (currentNames p).

(** Induction over the dependency tree of the v1 format. *)
Fixpoint LegacyLockEntry_tree_ind (P : LegacyLockEntry -> Prop)
    (step : forall version dev optional requires deps,
        Forall (fun kv => P kv.2) deps ->
        P (mkLegacyLockEntry version dev optional requires deps))
    (entry : LegacyLockEntry) {struct entry} : P entry :=
  match entry with
  | mkLegacyLockEntry version dev optional requires deps =>
      step version dev optional requires deps
        ((fix all (deps : list (string * LegacyLockEntry))
            : Forall (fun kv => P kv.2) deps :=
            match deps with
            | [] => @List.Forall_nil _ _
            | (name, entry') :: deps' =>
                @List.Forall_cons _ _ (name, entry') deps'
                  (LegacyLockEntry_tree_ind P step entry') (all deps')
            end) deps)
  end.

(** The line that a source that fails adds to [errors], and the
    database of a source that loads. *)
Definition failureLine (http_Get : string -> result Response) (url : string)
  : option string :=
  match LoadFromURL http_Get url with
  | Err err => Some (url +:+ ": " +:+ err)
  | Ok _ => None
  end.

Definition loadedSource (http_Get : string -> result Response) (url : string)
  : option VulnDB :=
  match LoadFromURL http_Get url with
  | Err _ => None
  | Ok src => Some src
  end.

(** The records that [ParsePackageLock] takes from the packages map. *)
Definition fromPackagesMap (includeDev : bool) (lock : PackageLockJSON.t)
  : list Package :=
  (foldl (lockPackagesStep includeDev) (∅, []) (PackageLockJSON.Packages lock)).2.

(** The database and the lockfile of the test of the scanner on
    npm-shrinkwrap.json. *)
Definition shrinkwrapDB : VulnDB :=
  Add NewVulnDB (mkVulnEntry "test-muaddib-vulnerable" "1.0.0" "1.0.0").

Definition shrinkwrapContent : string :=
  "{" +:+ quoted "name" +:+ ":" +:+ quoted "test-project" +:+ ","
  +:+ quoted "lockfileVersion" +:+ ":2," +:+ quoted "packages" +:+ ":{"
  +:+ quoted "node_modules/test-muaddib-vulnerable" +:+ ":{"
  +:+ quoted "version" +:+ ":" +:+ quoted "1.0.0" +:+ "},"
  +:+ quoted "node_modules/test-muaddib-safe" +:+ ":{"
  +:+ quoted "version" +:+ ":" +:+ quoted "1.0.0" +:+ "}}}".

Definition shrinkwrapLock : PackageLockJSON.t :=
  PackageLockJSON.mk "test-project" "" 2
    [("node_modules/test-muaddib-vulnerable",
      PackageLockEntry.mk "1.0.0" "" false false []);
     ("node_modules/test-muaddib-safe",
      PackageLockEntry.mk "1.0.0" "" false false [])]
    [].

(** The databases of the package: [NewVulnDB] followed by calls of
    [Add].  ([Merge], [parseCSV] and the loaders build theirs this
    way.) *)
Definition built (db : VulnDB) : Prop :=
  exists es : list VulnEntry, db = foldl Add NewVulnDB es.

(** The index by name agrees with the index by key: the list of a name
    is not empty, has no entry twice, and holds the entries of that name
    that sit under their own key; and the name of every entry has a
    list. *)
Definition indexed (db : VulnDB) : Prop :=
  (forall name l,
     byName db !! name = Some l ->
     l <> [] /\ NoDup l
     /\ forall e, e ∈ l
                  <-> PackageName e = name
                      /\ entries db !! entryKey e = Some e)
  /\ (forall k e, entries db !! k = Some e ->
                  is_Some (byName db !! PackageName e)).

(** What the loops of the lockfile parsers keep of their seen-set and
    their records: no two records have the same [name@version] key, the
    seen-set holds the keys of the records, every record is transitive,
    and none is development-only when those are excluded. *)
Definition recordKeys (pkgs : list Package) : list string :=
  map (fun p => pkgKey (Name p) (Version p)) pkgs.

Definition dedupInv (includeDev : bool) (seen : gset string)
    (pkgs : list Package) : Prop :=
  NoDup (recordKeys pkgs)
  /\ (forall key, key ∈ recordKeys pkgs <-> key ∈ seen)
  /\ Forall (fun p => Source p = "transitive"
                      /\ (includeDev = false -> IsDev p = false)) pkgs.

(** The packages that the scan takes from a file: none when the file
    does not parse. *)
Definition filePackages
    (json_Unmarshal_PackageJSON : string -> result PackageJSON.t)
    (json_Unmarshal_PackageLockJSON : string -> result PackageLockJSON.t)
    (s : Scanner) (file : PackageFile) : list Package :=
  match parseFile json_Unmarshal_PackageJSON json_Unmarshal_PackageLockJSON
                  s file with
  | Ok pkgs => pkgs
  | Err _ => []
  end.

(** The finding for a package of a file, when the database has it. *)
Definition finding (s : Scanner) (file : PackageFile) (pkg : Package)
  : option VulnerablePackage :=
  vulnEntry ← Check (db s) (Name pkg) (Version pkg);
  Some {| vpPackage := pkg; vpVulnEntry := vulnEntry;
          vpFilePath := Path file; vpRepoName := RepoName file |}.

(** The reads of a reader from the call number [n] up to io.EOF, looked
    for among [bound] calls. *)
Fixpoint readsBefore (bound : nat) (reader : csvReader) (n : nat)
  : list (result (list string)) :=
  match bound with
  | O => []
  | S bound' =>
      match reader n with
      | None => []
      | Some r => r :: readsBefore bound' reader (S n)
      end
  end.

(** The answers of [http.Get] with the bodies read up to io.EOF. *)
Definition frozen (fuel : nat) (http_Get : string -> result HTTPResponse)
  : string -> result Response :=
  fun url =>
    match http_Get url with
    | Err err => Err err
    | Ok resp =>
        Ok {| StatusCode := Code resp;
              Body := readsBefore (S fuel) (BodyReader resp) 0 |}
    end.

(** A source whose download breaks after the header: the status is 200,
    the header is read, and no later read is io.EOF. *)
Definition broken (http_Get : string -> result HTTPResponse) (url : string)
  : Prop :=
  exists resp header,
    http_Get url = Ok resp /\ Code resp = 200
    /\ BodyReader resp 0%nat = Some (Ok header) /\ (2 <= length header)%nat
    /\ forall n, BodyReader resp (S n) <> None.

(** The reader over an input that gives [reads] and then io.EOF. *)
Definition readerOf (reads : list (result (list string))) : csvReader :=
  fun n => reads !! n.

(** * Properties *)

(** ** Byte strings *)

Lemma app_nil (s : string) : EmptyString +:+ s = s.
Proof. reflexivity. Qed.

Lemma app_cons (c : ascii) (a b : string) :
  String c a +:+ b = String c (a +:+ b).
Proof. reflexivity. Qed.

Lemma HasPrefix_empty (s : string) : strings.HasPrefix s EmptyString = true.
Proof. by destruct s. Qed.

Lemma str_take_app (a b : string) : str_take (String.length a) (a +:+ b) = a.
Proof.
  induction a as [|c a IH]; [by destruct b|].
  rewrite app_cons. cbn. by rewrite IH.
Qed.

Lemma str_drop_app_S (a b : string) (c : ascii) :
  str_drop (String.length a + 1) (a +:+ String c b) = b.
Proof. induction a as [|d a IH]; [done|]. by rewrite app_cons. Qed.

Lemma app_length (a b : string) :
  String.length (a +:+ b) = (String.length a + String.length b)%nat.
Proof.
  induction a as [|c a IH]; [done|]. rewrite app_cons. cbn. by rewrite IH.
Qed.

Lemma Contains_false_index (s substr : string) :
  strings.Contains s substr = false -> strings.index s substr = None.
Proof.
  unfold strings.Contains, strings.Index.
  destruct (strings.index s substr); [|done].
  intros H. apply Z.leb_gt in H. lia.
Qed.

Lemma index_None_Contains (s substr : string) :
  strings.index s substr = None -> strings.Contains s substr = false.
Proof. unfold strings.Contains, strings.Index. by intros ->. Qed.

(** The first occurrence of a byte [c] in [a ++ c :: b], when [c] does
    not occur in [a], is at [len a]. *)
Lemma index_byte_app (a b : string) (c : ascii) :
  strings.index a (String c EmptyString) = None ->
  strings.index (a +:+ String c b) (String c EmptyString)
  = Some (String.length a).
Proof.
  induction a as [|d a IH].
  - intros _. rewrite app_nil. cbn. by rewrite Ascii.eqb_refl.
  - rewrite app_cons. cbn. rewrite !andb_true_r.
    destruct (Ascii.eqb d c); [done|].
    destruct (strings.index a (String c "")) eqn:E; [done|].
    intros _. by rewrite IH.
Qed.

Lemma Index_byte_app (a b : string) (c : ascii) :
  strings.Contains a (String c EmptyString) = false ->
  strings.Index (a +:+ String c b) (String c EmptyString) = len a.
Proof.
  intros H. unfold strings.Index.
  by rewrite (index_byte_app _ _ _ (Contains_false_index _ _ H)).
Qed.

Lemma slice_to_app (a b : string) : slice_to (a +:+ b) (len a) = a.
Proof. unfold slice_to, len. rewrite Nat2Z.id. apply str_take_app. Qed.

Lemma slice_from_app_S (a b : string) (c : ascii) :
  slice_from (a +:+ String c b) (len a + 1) = b.
Proof.
  unfold slice_from, len.
  replace (Z.to_nat (Z.of_nat (String.length a) + 1))
    with (String.length a + 1)%nat by lia.
  apply str_drop_app_S.
Qed.

Lemma len_pos_iff (a : string) : (0 <? len a) = negb (String.eqb a "").
Proof. by destruct a. Qed.

(** ** The fuel of the string functions is enough

    The loops of [Split], [TrimSpace] and [path.Base] are given the
    length of their argument as fuel; every turn of a loop shortens the
    string, so more fuel changes nothing. *)

Lemma str_drop_length (n : nat) (s : string) :
  String.length (str_drop n s) = (String.length s - n)%nat.
Proof.
  revert s. induction n as [|n IH]; intros [|c s]; cbn; try done.
Qed.

Lemma str_take_length (n : nat) (s : string) :
  String.length (str_take n s) = Nat.min n (String.length s).
Proof.
  revert s. induction n as [|n IH]; intros [|c s]; cbn; try done.
  by rewrite IH.
Qed.

Lemma HasPrefix_length (s prefix : string) :
  strings.HasPrefix s prefix = true ->
  (String.length prefix <= String.length s)%nat.
Proof.
  revert s. induction prefix as [|p prefix IH]; intros [|c s]; cbn;
    try done; try lia.
  intros [_ H]%andb_true_iff. apply IH in H. lia.
Qed.

Lemma index_bound (s substr : string) (m : nat) :
  strings.index s substr = Some m ->
  (m + String.length substr <= String.length s)%nat.
Proof.
  revert m. induction s as [|c s IH]; intros m; cbn [strings.index].
  - destruct (strings.HasPrefix "" substr) eqn:E; [|done].
    intros [= <-]. by apply HasPrefix_length in E.
  - destruct (strings.HasPrefix (String c s) substr) eqn:E.
    + intros [= <-]. by apply HasPrefix_length in E.
    + destruct (strings.index s substr) as [i|]; [|done].
      intros [= <-]. specialize (IH i eq_refl). cbn. lia.
Qed.

Lemma genSplit_fuel (sep : string) (n : nat) :
  sep <> EmptyString ->
  forall (fuel fuel' : nat) (s : string),
    (String.length s <= fuel)%nat -> (String.length s <= fuel')%nat ->
    strings.genSplit fuel n s sep = strings.genSplit fuel' n s sep.
Proof.
  intros Hsep. revert n.
  assert (forall s, String.length s = 0%nat -> strings.index s sep = None)
    as Hempty.
  { intros [|c s]; [|done]. intros _. by destruct sep. }
  assert (0 < String.length sep)%nat as Hlen by (destruct sep; [done|cbn; lia]).
  intros n fuel. revert n.
  induction fuel as [|fuel IH]; intros n fuel' s Hs Hs'.
  - destruct fuel', n; cbn; try done. rewrite Hempty; [done|lia].
  - destruct fuel' as [|fuel'], n as [|n]; cbn; try done.
    + rewrite Hempty; [done|lia].
    + destruct (strings.index s sep) as [m|] eqn:E; [|done].
      apply index_bound in E. f_equal.
      apply IH; rewrite str_drop_length; lia.
Qed.

Lemma genSplit_count (sep : string) :
  sep <> EmptyString ->
  forall (fuel n n' : nat) (s : string),
    (String.length s <= fuel)%nat ->
    (fuel <= n)%nat -> (fuel <= n')%nat ->
    strings.genSplit fuel n s sep = strings.genSplit fuel n' s sep.
Proof.
  intros Hsep.
  assert (0 < String.length sep)%nat as Hlen by (destruct sep; [done|cbn; lia]).
  induction fuel as [|fuel IH]; intros n n' s Hs Hn Hn'; [by destruct n, n'|].
  destruct n as [|n], n' as [|n']; try lia. cbn.
  destruct (strings.index s sep) as [m|] eqn:E; [|done].
  apply index_bound in E. f_equal.
  apply IH; [rewrite str_drop_length|..]; lia.
Qed.

(** [Split] cuts at every occurrence: more fuel, or a larger bound on
    the number of pieces, gives the same pieces. *)
Lemma Split_total (s sep : string) (fuel n : nat) :
  sep <> EmptyString ->
  (String.length s <= fuel)%nat -> (fuel <= n)%nat ->
  strings.genSplit fuel n s sep = strings.Split s sep.
Proof.
  intros Hsep Hfuel Hn. unfold strings.Split.
  rewrite (genSplit_fuel sep n Hsep fuel (String.length s) s) by lia.
  apply genSplit_count; try done; lia.
Qed.

Lemma spaceRunes_nonempty :
  Forall (fun r => (0 < String.length r)%nat) strings.spaceRunes.
Proof. repeat constructor. Qed.

Lemma leadingSpace_shortens (s r : string) :
  strings.leadingSpace s = Some r ->
  (String.length (str_drop (String.length r) s) < String.length s)%nat.
Proof.
  intros H. apply find_some in H as [Hin Hpre].
  apply HasPrefix_length in Hpre.
  pose proof (proj1 (List.Forall_forall _ _) spaceRunes_nonempty r Hin) as Hr.
  cbn beta in Hr. rewrite str_drop_length. lia.
Qed.

Lemma trailingSpace_shortens (s r : string) :
  strings.trailingSpace s = Some r ->
  (String.length (str_take (String.length s - String.length r) s)
   < String.length s)%nat.
Proof.
  intros H. apply find_some in H as [Hin Hsuf].
  unfold strings.HasSuffix in Hsuf.
  apply andb_true_iff in Hsuf as [Hle%Nat.leb_le _].
  pose proof (proj1 (List.Forall_forall _ _) spaceRunes_nonempty r Hin) as Hr.
  cbn beta in Hr. rewrite str_take_length. lia.
Qed.

Lemma trimLeftSpace_fuel (fuel fuel' : nat) (s : string) :
  (String.length s <= fuel)%nat -> (String.length s <= fuel')%nat ->
  strings.trimLeftSpace fuel s = strings.trimLeftSpace fuel' s.
Proof.
  revert fuel' s. induction fuel as [|fuel IH]; intros fuel' s Hs Hs'.
  - destruct s; [|cbn in Hs; lia]. destruct fuel'; [done|]. by vm_compute.
  - destruct fuel' as [|fuel']; [destruct s; [by vm_compute|cbn in Hs'; lia]|].
    cbn [strings.trimLeftSpace]. destruct (strings.leadingSpace s) as [r|] eqn:E; [|done].
    apply leadingSpace_shortens in E. apply IH; lia.
Qed.

Lemma trimRightSpace_fuel (fuel fuel' : nat) (s : string) :
  (String.length s <= fuel)%nat -> (String.length s <= fuel')%nat ->
  strings.trimRightSpace fuel s = strings.trimRightSpace fuel' s.
Proof.
  revert fuel' s. induction fuel as [|fuel IH]; intros fuel' s Hs Hs'.
  - destruct s; [|cbn in Hs; lia]. destruct fuel'; [done|]. by vm_compute.
  - destruct fuel' as [|fuel']; [destruct s; [by vm_compute|cbn in Hs'; lia]|].
    cbn [strings.trimRightSpace]. destruct (strings.trailingSpace s) as [r|] eqn:E; [|done].
    apply trailingSpace_shortens in E. apply IH; lia.
Qed.

(** What [TrimSpace] returns neither starts nor ends with white space. *)
Lemma trimLeftSpace_done (fuel : nat) (s : string) :
  (String.length s <= fuel)%nat ->
  strings.leadingSpace (strings.trimLeftSpace fuel s) = None.
Proof.
  revert s. induction fuel as [|fuel IH]; intros s Hs.
  - destruct s; [by vm_compute|cbn in Hs; lia].
  - cbn [strings.trimLeftSpace]. destruct (strings.leadingSpace s) as [r|] eqn:E; [|done].
    apply leadingSpace_shortens in E. apply IH. lia.
Qed.

Lemma trimRightSpace_done (fuel : nat) (s : string) :
  (String.length s <= fuel)%nat ->
  strings.trailingSpace (strings.trimRightSpace fuel s) = None.
Proof.
  revert s. induction fuel as [|fuel IH]; intros s Hs.
  - destruct s; [by vm_compute|cbn in Hs; lia].
  - cbn [strings.trimRightSpace]. destruct (strings.trailingSpace s) as [r|] eqn:E; [|done].
    apply trailingSpace_shortens in E. apply IH. lia.
Qed.

Lemma trimLeftSpace_length (fuel : nat) (s : string) :
  (String.length (strings.trimLeftSpace fuel s) <= String.length s)%nat.
Proof.
  revert s. induction fuel as [|fuel IH]; intros s;
    cbn [strings.trimLeftSpace]; [done|].
  destruct (strings.leadingSpace s) as [r|]; [|done].
  etransitivity; [apply IH|]. rewrite str_drop_length. lia.
Qed.

Lemma TrimSpace_trimmed (s : string) :
  strings.trailingSpace (strings.TrimSpace s) = None.
Proof. apply trimRightSpace_done, trimLeftSpace_length. Qed.

Lemma stripTrailingSlashes_done (fuel : nat) (p : string) :
  (String.length p <= fuel)%nat ->
  let p' := path.stripTrailingSlashes fuel p in
  p' = EmptyString \/ strings.HasSuffix p' "/" = false.
Proof.
  revert p. induction fuel as [|fuel IH]; intros p Hp.
  - left. by destruct p; [|cbn in Hp; lia].
  - cbn [path.stripTrailingSlashes].
    destruct (0 <? String.length p)%nat eqn:E0; cbn [andb].
    + destruct (strings.HasSuffix p "/") eqn:E; [|by right].
      apply IH. rewrite str_take_length. apply Nat.ltb_lt in E0. lia.
    + left. apply Nat.ltb_ge in E0. by destruct p; [|cbn in E0; lia].
Qed.

(** ** pnpm keys (C4, C5) *)

Lemma SplitN_scoped (scoped version : string) :
  strings.Contains scoped "@" = false ->
  strings.SplitN ("@" +:+ scoped +:+ "@" +:+ version) "@" 3
  = [EmptyString; scoped; version].
Proof.
  intros H. unfold strings.SplitN. rewrite !app_cons, !app_nil.
  cbn [String.length]. rewrite app_length. cbn [String.length].
  replace (String.length scoped + S (String.length version))%nat
    with (S (String.length scoped + String.length version)) by lia.
  cbn [strings.genSplit strings.index strings.HasPrefix].
  rewrite Ascii.eqb_refl.
  cbn [andb str_take str_drop Nat.add String.length].
  rewrite (index_byte_app scoped version "@" (Contains_false_index _ _ H)).
  rewrite str_take_app, str_drop_app_S.
  by destruct (String.length scoped + String.length version)%nat.
Qed.

Lemma parsePnpmPackageKey_scoped_at (scoped version : string) :
  strings.Contains scoped "@" = false ->
  parsePnpmPackageKey ("/@" +:+ scoped +:+ "@" +:+ version)
  = ("@" +:+ scoped, stripPnpmPeerDepSuffix version)
  /\ parsePnpmPackageKey ("@" +:+ scoped +:+ "@" +:+ version)
     = ("@" +:+ scoped, stripPnpmPeerDepSuffix version).
Proof.
  intros H. unfold parsePnpmPackageKey.
  change (strings.TrimPrefix ("/@" +:+ scoped +:+ "@" +:+ version) "/")
    with ("@" +:+ scoped +:+ "@" +:+ version).
  change (strings.TrimPrefix ("@" +:+ scoped +:+ "@" +:+ version) "/")
    with ("@" +:+ scoped +:+ "@" +:+ version).
  change (strings.HasPrefix ("@" +:+ scoped +:+ "@" +:+ version) "@") with true.
  cbv iota. by rewrite (SplitN_scoped _ _ H).
Qed.

(** C4: the pnpm key [/@scope/pkg@1.2.3(peer@4.0.0)] and the slash-less
    key [@scope/pkg@1.2.3] both parse to the name [@scope/pkg] and the
    version [1.2.3].  In general a scoped key, with or without the
    leading slash, is cut at the first [@] after the [scope/name] pair,
    not at the [@] that opens the scope, and the peer decoration is
    stripped from what follows. *)
Theorem parsePnpmPackageKey_scoped :
  parsePnpmPackageKey "/@scope/pkg@1.2.3(peer@4.0.0)" = ("@scope/pkg", "1.2.3")
  /\ parsePnpmPackageKey "@scope/pkg@1.2.3" = ("@scope/pkg", "1.2.3")
  /\ forall scoped version : string,
       strings.Contains scoped "@" = false ->
       parsePnpmPackageKey ("/@" +:+ scoped +:+ "@" +:+ version)
       = ("@" +:+ scoped, stripPnpmPeerDepSuffix version)
       /\ parsePnpmPackageKey ("@" +:+ scoped +:+ "@" +:+ version)
          = ("@" +:+ scoped, stripPnpmPeerDepSuffix version).
Proof.
  split; [reflexivity|]. split; [reflexivity|].
  apply parsePnpmPackageKey_scoped_at.
Qed.

(** C5, counterexample: a version whose underscore is followed by no
    [@] is not always left unchanged.  The stripper first cuts a
    parenthesised decoration: [1.0.0_alpha(x)], which holds no [@] at
    all, comes back as [1.0.0_alpha]. *)
Lemma stripPnpmPeerDepSuffix_cuts_paren :
  strings.Contains "1.0.0_alpha(x)" "@" = false
  /\ stripPnpmPeerDepSuffix "1.0.0_alpha(x)" = "1.0.0_alpha"
  /\ String.eqb (stripPnpmPeerDepSuffix "1.0.0_alpha(x)") "1.0.0_alpha(x)"
     = false.
Proof. repeat split; reflexivity. Qed.

(** C5, as the code has it: let [w] be the version once a parenthesised
    decoration is cut: the version up to its first [(] when that is
    not its first byte, the version itself otherwise.  Let the first
    underscore of [w] split it into [a] and [b].  The stripper cuts [w]
    down to [a] exactly when [a] is not empty and an [@] occurs in [b];
    otherwise, and when [w] has no underscore, it returns [w] itself.
    So [1.0.0_peer@2.0.0] becomes [1.0.0] and [1.0.0_alpha] is
    preserved. *)
Theorem stripPnpmPeerDepSuffix_underscore (version : string) :
  let w := stripParenSuffix version in
  (forall a b : string,
     w = a +:+ "_" +:+ b ->
     strings.Contains a "_" = false ->
     stripPnpmPeerDepSuffix version
     = if negb (String.eqb a "") && strings.Contains b "@" then a else w)
  /\ (strings.Contains w "_" = false -> stripPnpmPeerDepSuffix version = w)
  /\ (strings.Contains version "(" = false -> w = version)
  /\ (forall a b : string,
        version = a +:+ "(" +:+ b ->
        strings.Contains a "(" = false ->
        w = if String.eqb a "" then version else a)
  /\ stripPnpmPeerDepSuffix "1.0.0_peer@2.0.0" = "1.0.0"
  /\ stripPnpmPeerDepSuffix "1.0.0_alpha" = "1.0.0_alpha".
Proof.
  intros w. repeat split; try reflexivity.
  - intros a b Hw Ha. unfold stripPnpmPeerDepSuffix. fold w. rewrite Hw.
    change ("_" +:+ b) with (String "_" b).
    rewrite (Index_byte_app a b "_" Ha), slice_from_app_S, slice_to_app.
    rewrite len_pos_iff. by destruct (String.eqb a "").
  - intros Hw. unfold stripPnpmPeerDepSuffix. fold w.
    unfold strings.Index. by rewrite (Contains_false_index _ _ Hw).
  - unfold w, stripParenSuffix, strings.Index.
    intros H. by rewrite (Contains_false_index _ _ H).
  - intros a b Hv Ha. unfold w, stripParenSuffix. rewrite Hv.
    change ("(" +:+ b) with (String "(" b).
    rewrite (Index_byte_app a b "(" Ha), slice_to_app, len_pos_iff.
    by destruct (String.eqb a "").
Qed.

(** ** The indicator database *)

Lemma NewVulnDB_keyed : keyed NewVulnDB.
Proof. intros k e. cbn. by rewrite lookup_empty. Qed.

Lemma Add_lookup (db : VulnDB) (e : VulnEntry) (k : string) :
  entries (Add db e) !! k
  = match entries db !! k with
    | Some x => Some x
    | None => if decide (k = entryKey e) then Some e else None
    end.
Proof.
  unfold Add. destruct (entries db !! entryKey e) as [x|] eqn:E; cbn.
  - destruct (entries db !! k) eqn:Ek; [done|].
    case_decide; [congruence|done].
  - destruct (decide (k = entryKey e)) as [->|Hne].
    + by rewrite lookup_insert_eq, E.
    + rewrite lookup_insert_ne by done. by destruct (entries db !! k).
Qed.

Lemma Add_keyed (db : VulnDB) (e : VulnEntry) : keyed db -> keyed (Add db e).
Proof.
  intros Hdb k x. rewrite Add_lookup.
  destruct (entries db !! k) eqn:E; [intros [= <-]; by apply Hdb|].
  case_decide; [by intros [= <-]|done].
Qed.

Lemma Add_preserves (db : VulnDB) (e x : VulnEntry) (k : string) :
  entries db !! k = Some x -> entries (Add db e) !! k = Some x.
Proof. intros H. by rewrite Add_lookup, H. Qed.

Lemma Add_present (db : VulnDB) (e : VulnEntry) :
  is_Some (entries (Add db e) !! entryKey e).
Proof.
  rewrite Add_lookup. destruct (entries db !! entryKey e); [eauto|].
  case_decide; [eauto|done].
Qed.

Lemma Add_TotalEntries (db : VulnDB) (e : VulnEntry) :
  TotalEntries (Add db e) = S (TotalEntries db).
Proof. unfold Add. by destruct (entries db !! entryKey e). Qed.

Lemma Add_entries_present (db : VulnDB) (e : VulnEntry) :
  is_Some (entries db !! entryKey e) ->
  entries (Add db e) = entries db /\ byName (Add db e) = byName db.
Proof. intros [x Hx]. unfold Add. by rewrite Hx. Qed.

Lemma Add_Size_present (db : VulnDB) (e : VulnEntry) :
  is_Some (entries db !! entryKey e) -> Size (Add db e) = Size db.
Proof. intros H. unfold Size. by rewrite (proj1 (Add_entries_present _ _ H)). Qed.

Lemma Add_Size_fresh (db : VulnDB) (e : VulnEntry) :
  entries db !! entryKey e = None -> Size (Add db e) = S (Size db).
Proof.
  intros H. unfold Size, Add. rewrite H. cbn.
  by apply map_size_insert_None.
Qed.

(** Sequences of [Add]. *)
Lemma addAll_keyed (es : list VulnEntry) (db : VulnDB) :
  keyed db -> keyed (foldl Add db es).
Proof.
  revert db. induction es as [|e es IH]; intros db Hdb; cbn; [done|].
  by apply IH, Add_keyed.
Qed.

Lemma addAll_preserves (es : list VulnEntry) (db : VulnDB) (k : string)
    (x : VulnEntry) :
  entries db !! k = Some x -> entries (foldl Add db es) !! k = Some x.
Proof.
  revert db. induction es as [|e es IH]; intros db Hdb; cbn; [done|].
  by apply IH, Add_preserves.
Qed.

Lemma addAll_present (es : list VulnEntry) (db : VulnDB) (e : VulnEntry) :
  e ∈ es -> is_Some (entries (foldl Add db es) !! entryKey e).
Proof.
  revert db. induction es as [|e' es IH]; intros db Hin; cbn.
  - by apply elem_of_nil in Hin.
  - apply elem_of_cons in Hin as [->|Hin]; [|by apply IH].
    destruct (Add_present db e') as [x Hx].
    rewrite (addAll_preserves es _ _ _ Hx). eauto.
Qed.

Lemma addAll_origin (es : list VulnEntry) (db : VulnDB) (k : string)
    (x : VulnEntry) :
  entries (foldl Add db es) !! k = Some x ->
  entries db !! k = Some x \/ (x ∈ es /\ k = entryKey x).
Proof.
  revert db. induction es as [|e es IH]; intros db; cbn; [by left|].
  intros H. apply IH in H as [H|[H1 H2]].
  - rewrite Add_lookup in H. destruct (entries db !! k); [by left|].
    case_decide; [|done]. injection H as <-. right. split; [left|done].
  - right. split; [by right|done].
Qed.

Lemma addAll_TotalEntries (es : list VulnEntry) (db : VulnDB) :
  TotalEntries (foldl Add db es) = (TotalEntries db + length es)%nat.
Proof.
  revert db. induction es as [|e es IH]; intros db; cbn; [lia|].
  rewrite IH, Add_TotalEntries. lia.
Qed.


Lemma Check_lookup (db : VulnDB) (name version : string) (e : VulnEntry) :
  Check db name version = Some e ->
  entries db !! (name +:+ "@" +:+ version) = Some e
  /\ name <> EmptyString /\ version <> EmptyString.
Proof.
  unfold Check. destruct name, version; cbn; try done.
Qed.

Lemma Contains_tail (c : ascii) (s substr : string) :
  strings.Contains (String c s) substr = false ->
  strings.Contains s substr = false.
Proof.
  intros H. apply Contains_false_index in H. apply index_None_Contains.
  cbn in H. destruct (strings.HasPrefix (String c s) substr); [done|].
  by destruct (strings.index s substr).
Qed.

(** A byte occurs in any string it was put in. *)
Lemma Contains_byte_app (a b : string) (c : ascii) :
  strings.Contains (a +:+ String c b) (String c EmptyString) = true.
Proof.
  destruct (strings.Contains (a +:+ String c b) (String c "")) eqn:E; [done|].
  apply Contains_false_index in E.
  induction a as [|d a IH].
  - rewrite app_nil in E. cbn in E. by rewrite Ascii.eqb_refl in E.
  - rewrite app_cons in E. cbn in E. rewrite andb_true_r in E.
    destruct (Ascii.eqb d c); [done|].
    destruct (strings.index (a +:+ String c b) (String c "")); [done|].
    by apply IH.
Qed.

(** A key [n@v] whose [n] and [v] hold no [@] splits into a name and a
    version in one way only. *)
Lemma pkgKey_split (n v n' v' : string) :
  strings.Contains n "@" = false ->
  strings.Contains v "@" = false ->
  n' +:+ "@" +:+ v' = n +:+ "@" +:+ v ->
  n' = n /\ v' = v.
Proof.
  intros Hn Hv. revert n'.
  induction n as [|c n IH]; intros [|d n']; rewrite ?app_cons, ?app_nil.
  - by intros [= ->].
  - intros [= -> <-]. by rewrite (Contains_byte_app n' v' "@") in Hv.
  - intros [= <- _]. by vm_compute in Hn.
  - intros [= -> H]. by destruct (IH (Contains_tail _ _ _ Hn) _ H) as [-> ->].
Qed.

(** What a successful lookup tells: the entry found sits under the key
    [name@version].  Its name and version are the ones asked for when
    the entry is shaped like an npm identity: no [@] in its version and
    none in its name after a leading scope marker. *)
Lemma Check_exact (db : VulnDB) (name version : string) (e : VulnEntry) :
  keyed db ->
  Check db name version = Some e ->
  name +:+ "@" +:+ version = entryKey e
  /\ (strings.Contains (strings.TrimPrefix (PackageName e) "@") "@" = false ->
      strings.Contains (PackageVersion e) "@" = false ->
      PackageName e = name /\ PackageVersion e = version).
Proof.
  intros Hdb H. apply Check_lookup in H as (H & Hname & _).
  apply Hdb in H. split; [done|]. unfold entryKey in H.
  intros Hn Hv. destruct (PackageName e) as [|c n] eqn:E.
  - destruct (pkgKey_split _ _ _ _ Hn Hv H) as [H1 H2]. by subst.
  - destruct (Ascii.eqb c "@") eqn:Ec.
    + apply Ascii.eqb_eq in Ec as ->.
      destruct name as [|d name]; [done|].
      rewrite !app_cons in H. injection H as -> H.
      change (strings.TrimPrefix (String "@" n) "@") with n in Hn.
      destruct (pkgKey_split _ _ _ _ Hn Hv H) as [H1 H2]. by subst.
    + assert (strings.TrimPrefix (String c n) "@" = String c n) as Heq.
      { unfold strings.TrimPrefix. cbn [strings.HasPrefix].
        by rewrite Ec. }
      rewrite Heq in Hn.
      destruct (pkgKey_split _ _ _ _ Hn Hv H) as [H1 H2]. by subst.
Qed.

Lemma foldl_processRecord (n v : Z) (records : list (list string))
    (db : VulnDB) :
  foldl (processRecord n v) db records
  = foldl Add db (concat (map (recordEntries n v) records)).
Proof.
  revert db. induction records as [|r records IH]; intros db; cbn; [done|].
  by rewrite foldl_app, IH.
Qed.

Lemma parseCSV_Ok (header : list string) (rest : list (result (list string))) :
  (2 <= length header)%nat ->
  parseCSV (Ok header :: rest)
  = Ok (foldl Add NewVulnDB (csvEntries header rest)).
Proof.
  intros H. unfold parseCSV, csvEntries.
  destruct (length header <? 2)%nat eqn:E; [apply Nat.ltb_lt in E; lia|].
  destruct (findColumns header) as [n v]. by rewrite foldl_processRecord.
Qed.

Lemma parseCSV_Ok_inv (header : list string)
    (rest : list (result (list string))) (db : VulnDB) :
  parseCSV (Ok header :: rest) = Ok db ->
  (2 <= length header)%nat
  /\ db = foldl Add NewVulnDB (csvEntries header rest).
Proof.
  intros H.
  assert (2 <= length header)%nat as Hlen.
  { unfold parseCSV in H.
    destruct (length header <? 2)%nat eqn:E; [done|].
    apply Nat.ltb_ge in E. lia. }
  rewrite (parseCSV_Ok _ _ Hlen) in H. by injection H as <-.
Qed.

Lemma parseCSV_keyed (reads : list (result (list string))) (db : VulnDB) :
  parseCSV reads = Ok db -> keyed db.
Proof.
  destruct reads as [|[header|err] rest]; [done| |done].
  intros H. apply parseCSV_Ok_inv in H as [_ ->].
  apply addAll_keyed, NewVulnDB_keyed.
Qed.

Lemma csvEntries_app (header : list string)
    (r1 r2 : list (result (list string))) :
  csvEntries header (r1 ++ r2) = csvEntries header r1 ++ csvEntries header r2.
Proof.
  unfold csvEntries, readRecords. by rewrite omap_app, map_app, concat_app.
Qed.

Lemma csvEntries_row (header record : list string)
    (rest : list (result (list string))) :
  length record = length header ->
  csvEntries header (Ok record :: rest)
  = recordEntries (findColumns header).1 (findColumns header).2 record
    ++ csvEntries header rest.
Proof.
  intros H. unfold csvEntries. cbn. by rewrite H, Nat.eqb_refl.
Qed.

(** The comma-list row of the specification: wherever it stands in a
    CSV whose first two columns are the name and the version, both of
    its versions are found; alone, it makes no other version found. *)
Lemma parseCSV_comma_row (header : list string)
    (before after : list (result (list string))) :
  length header = 3%nat ->
  findColumns header = (0, 1) ->
  exists db,
    parseCSV (Ok header :: before ++ Ok ["pkg"; "1.0.0, 1.0.1"; "x"] :: after)
    = Ok db
    /\ is_Some (Check db "pkg" "1.0.0")
    /\ is_Some (Check db "pkg" "1.0.1")
    /\ exists db1,
         parseCSV [Ok header; Ok ["pkg"; "1.0.0, 1.0.1"; "x"]] = Ok db1
         /\ Check db1 "pkg" "1.0.2" = None.
Proof.
  intros Hlen Hcols. eexists. split; [apply parseCSV_Ok; lia|].
  rewrite csvEntries_app, csvEntries_row, Hcols by by rewrite Hlen.
  rewrite !foldl_app.
  set (db0 := foldl Add NewVulnDB (csvEntries header before)).
  set (row := recordEntries _ _ _).
  split; [|split].
  - change (is_Some (entries (foldl Add (foldl Add db0 row) (csvEntries header after))
                     !! entryKey (mkVulnEntry "pkg" "1.0.0" "1.0.0, 1.0.1"))).
    destruct (addAll_present row db0 (mkVulnEntry "pkg" "1.0.0" "1.0.0, 1.0.1"))
      as [x Hx]; [vm_compute; left|].
    rewrite (addAll_preserves _ _ _ _ Hx). eauto.
  - change (is_Some (entries (foldl Add (foldl Add db0 row) (csvEntries header after))
                     !! entryKey (mkVulnEntry "pkg" "1.0.1" "1.0.0, 1.0.1"))).
    destruct (addAll_present row db0 (mkVulnEntry "pkg" "1.0.1" "1.0.0, 1.0.1"))
      as [x Hx]; [vm_compute; right; left|].
    rewrite (addAll_preserves _ _ _ _ Hx). eauto.
  - eexists. split; [apply parseCSV_Ok; lia|].
    rewrite csvEntries_row, Hcols by by rewrite Hlen.
    by vm_compute.
Qed.

(** C1: the code keys the index by the string [name@version], which
    does not determine the pair: the indicator row [a@b,c] makes the
    lookup of the name [a] at the version [b@c] succeed, with an entry
    whose name is [a@b] and whose version is [c]. *)
Theorem Check_key_collision :
  exists db,
    parseCSV [Ok ["package_name"; "package_versions"]; Ok ["a@b"; "c"]] = Ok db
    /\ Check db "a" "b@c"
       = Some {| PackageName := "a@b"; PackageVersion := "c";
                 OriginalVersion := "c" |}.
Proof. eexists. split; [reflexivity|]. by vm_compute. Qed.

(** C2: a CSV row [pkg,= 1.0.0 || = 2.0.0] under a two-column header
    whose columns are the name and the version, wherever the row stands
    among the other rows, makes the lookups of [pkg] at [1.0.0] and at
    [2.0.0] succeed; the two entries made from the row carry the whole
    cell [= 1.0.0 || = 2.0.0] as their original version, and they are
    the entries the lookups return unless an earlier row already
    supplied the same name and version. *)
Theorem parseCSV_or_spec_row (header : list string)
    (before after : list (result (list string))) :
  length header = 2%nat ->
  findColumns header = (0, 1) ->
  let spec := "= 1.0.0 || = 2.0.0" in
  let row := ["pkg"; spec] in
  exists db,
    parseCSV (Ok header :: before ++ Ok row :: after) = Ok db
    /\ is_Some (Check db "pkg" "1.0.0")
    /\ is_Some (Check db "pkg" "2.0.0")
    /\ recordEntries 0 1 row
       = [mkVulnEntry "pkg" "1.0.0" spec; mkVulnEntry "pkg" "2.0.0" spec]
    /\ forall db0,
         parseCSV (Ok header :: before) = Ok db0 ->
         (Check db0 "pkg" "1.0.0" = None ->
          Check db "pkg" "1.0.0" = Some (mkVulnEntry "pkg" "1.0.0" spec))
         /\ (Check db0 "pkg" "2.0.0" = None ->
             Check db "pkg" "2.0.0" = Some (mkVulnEntry "pkg" "2.0.0" spec)).
Proof.
  intros Hlen Hcols spec row. eexists. split; [apply parseCSV_Ok; lia|].
  rewrite csvEntries_app, csvEntries_row, Hcols by by rewrite Hlen.
  rewrite !foldl_app.
  set (db0 := foldl Add NewVulnDB (csvEntries header before)).
  change (recordEntries (0, 1).1 (0, 1).2 ["pkg"; "= 1.0.0 || = 2.0.0"])
    with (recordEntries 0 1 row).
  assert (recordEntries 0 1 row
          = [mkVulnEntry "pkg" "1.0.0" spec; mkVulnEntry "pkg" "2.0.0" spec])
    as -> by by vm_compute.
  set (e1 := mkVulnEntry "pkg" "1.0.0" spec).
  set (e2 := mkVulnEntry "pkg" "2.0.0" spec).
  set (rest := csvEntries header after).
  split; [|split; [|split; [done|]]].
  - change (is_Some (entries (foldl Add (foldl Add db0 [e1; e2]) rest)
                     !! entryKey e1)).
    destruct (addAll_present [e1; e2] db0 e1) as [x Hx]; [left|].
    rewrite (addAll_preserves _ _ _ _ Hx). eauto.
  - change (is_Some (entries (foldl Add (foldl Add db0 [e1; e2]) rest)
                     !! entryKey e2)).
    destruct (addAll_present [e1; e2] db0 e2) as [x Hx]; [right; left|].
    rewrite (addAll_preserves _ _ _ _ Hx). eauto.
  - intros db0' H. apply parseCSV_Ok_inv in H as [_ ->]. fold db0.
    split; intros H.
    + change (entries db0 !! entryKey e1 = None) in H.
      change (entries (foldl Add (foldl Add db0 [e1; e2]) rest)
              !! entryKey e1 = Some e1).
      apply addAll_preserves. cbn [foldl]. by rewrite !Add_lookup, H.
    + change (entries db0 !! entryKey e2 = None) in H.
      change (entries (foldl Add (foldl Add db0 [e1; e2]) rest)
              !! entryKey e2 = Some e2).
      apply addAll_preserves. cbn [foldl]. by rewrite !Add_lookup, H.
Qed.

Lemma parseCSV_or_spec_row_witness :
  exists db,
    parseCSV [Ok ["Package"; "Version"]; Ok ["pkg"; "= 1.0.0 || = 2.0.0"]]
    = Ok db
    /\ is_Some (Check db "pkg" "1.0.0")
    /\ is_Some (Check db "pkg" "2.0.0").
Proof.
  destruct (parseCSV_or_spec_row ["Package"; "Version"] [] [])
    as (db & H & H1 & H2 & _); [reflexivity | reflexivity |].
  exists db. exact (conj H (conj H1 H2)).
Defined.




(** ** Loading from several sources (C9) *)

Lemma Merge_keyed (db src : VulnDB) :
  keyed db -> keyed (Merge db (Some src)).
Proof. apply addAll_keyed. Qed.

Lemma Merge_preserves (db src : VulnDB) (k : string) (x : VulnEntry) :
  entries db !! k = Some x -> entries (Merge db (Some src)) !! k = Some x.
Proof. apply addAll_preserves. Qed.

Lemma Merge_covers (db src : VulnDB) (k : string) (x : VulnEntry) :
  keyed src ->
  entries src !! k = Some x -> is_Some (entries (Merge db (Some src)) !! k).
Proof.
  intros Hsrc H. rewrite (Hsrc _ _ H). apply addAll_present.
  apply list_elem_of_fmap. exists (k, x). split; [done|].
  by apply elem_of_map_to_list.
Qed.

Lemma Merge_origin (db src : VulnDB) (k : string) (x : VulnEntry) :
  keyed src ->
  entries (Merge db (Some src)) !! k = Some x ->
  entries db !! k = Some x \/ entries src !! k = Some x.
Proof.
  intros Hsrc H. apply addAll_origin in H as [H|[H ->]]; [by left|right].
  apply list_elem_of_fmap in H as ([k' x'] & -> & H).
  apply elem_of_map_to_list in H. cbn. by rewrite <- (Hsrc _ _ H).
Qed.

Lemma Check_is_Some (db : VulnDB) (name version : string) :
  is_Some (Check db name version)
  <-> name <> EmptyString /\ version <> EmptyString
      /\ is_Some (entries db !! (name +:+ "@" +:+ version)).
Proof.
  unfold Check. destruct name, version; cbn; split;
    try (intros [? ?]; done); try (intros (? & ? & ?); done).
  all: intros H; by repeat split.
Qed.

Section LoaderProperties.

Variable http_Get : string -> result Response.

Lemma LoadFromURL_keyed (url : string) (src : VulnDB) :
  LoadFromURL http_Get url = Ok src -> keyed src.
Proof.
  unfold LoadFromURL. destruct (http_Get url) as [resp|]; [|done].
  destruct (negb (StatusCode resp =? 200)); [done|]. apply parseCSV_keyed.
Qed.

Lemma loadStep_fold (urls : list string) (db : VulnDB)
    (errors : list string) (n : nat) :
  foldl (loadStep http_Get) (db, errors, n) urls
  = (foldl Merge db (Some <$> omap (loadedSource http_Get) urls),
     errors ++ omap (failureLine http_Get) urls,
     (n + length (omap (loadedSource http_Get) urls))%nat).
Proof.
  revert db errors n. unfold loadedSource, failureLine.
  induction urls as [|u urls IH]; intros db errors n; cbn [foldl].
  - cbn. by rewrite app_nil_r, Nat.add_0_r.
  - unfold loadStep at 2. cbn [omap list_omap].
    destruct (LoadFromURL http_Get u) as [src|err]; rewrite IH; cbn.
    + f_equal. lia.
    + by rewrite <- app_assoc.
Qed.

Lemma no_source_loads (urls : list string) :
  length (omap (loadedSource http_Get) urls) = 0%nat
  <-> forall u, u ∈ urls -> is_ok (LoadFromURL http_Get u) = false.
Proof.
  induction urls as [|u urls IH]; cbn.
  - split; [|done]. intros _ u Hu. by apply elem_of_nil in Hu.
  - unfold loadedSource at 1. destruct (LoadFromURL http_Get u) as [src|err] eqn:E; cbn.
    + split; [done|]. intros H.
      assert (is_ok (LoadFromURL http_Get u) = false) as Hu
        by (apply H; left).
      by rewrite E in Hu.
    + rewrite IH. split.
      * intros H u' [->|Hu]%elem_of_cons; [by rewrite E|by apply H].
      * intros H u' Hu. apply H. by right.
Qed.

Lemma all_source_errors (urls : list string) :
  (forall u, u ∈ urls -> is_ok (LoadFromURL http_Get u) = false) ->
  omap (failureLine http_Get) urls
  = map (fun u => u +:+ ": "
                  +:+ match LoadFromURL http_Get u with Err err => err | Ok _ => "" end)
        urls.
Proof.
  induction urls as [|u urls IH]; intros H; cbn; [done|].
  rewrite <- IH by (intros u' Hu; apply H; by right).
  unfold failureLine at 1. specialize (H u (list_elem_of_here _ _)).
  by destruct (LoadFromURL http_Get u).
Qed.

Lemma mergeAll_preserves (srcs : list VulnDB) (db : VulnDB) (k : string)
    (x : VulnEntry) :
  entries db !! k = Some x ->
  entries (foldl Merge db (Some <$> srcs)) !! k = Some x.
Proof.
  revert db. induction srcs as [|s srcs IH]; intros db H; cbn; [done|].
  by apply IH, Merge_preserves.
Qed.

Lemma mergeAll_covers (srcs : list VulnDB) (db src : VulnDB) (k : string)
    (x : VulnEntry) :
  src ∈ srcs -> keyed src -> entries src !! k = Some x ->
  is_Some (entries (foldl Merge db (Some <$> srcs)) !! k).
Proof.
  revert db. induction srcs as [|s srcs IH]; intros db Hin Hk H; cbn.
  - by apply elem_of_nil in Hin.
  - apply elem_of_cons in Hin as [<-|Hin]; [|by apply IH].
    destruct (Merge_covers db src k x Hk H) as [y Hy].
    rewrite (mergeAll_preserves _ _ _ _ Hy). eauto.
Qed.

Lemma mergeAll_origin (srcs : list VulnDB) (db : VulnDB) (k : string)
    (x : VulnEntry) :
  (forall src, src ∈ srcs -> keyed src) ->
  entries (foldl Merge db (Some <$> srcs)) !! k = Some x ->
  entries db !! k = Some x
  \/ exists src, src ∈ srcs /\ entries src !! k = Some x.
Proof.
  revert db. induction srcs as [|s srcs IH]; intros db Hk H; cbn in H.
  - by left.
  - apply IH in H as [H|(src & Hin & H)].
    + apply Merge_origin in H as [H|H]; [by left| |apply Hk; left].
      right. exists s. split; [left|done].
    + right. exists src. split; [by right|done].
    + intros src Hin. apply Hk. by right.
Qed.

Lemma loadedSource_elem (urls : list string) (src : VulnDB) :
  src ∈ omap (loadedSource http_Get) urls
  <-> exists u, u ∈ urls /\ LoadFromURL http_Get u = Ok src.
Proof.
  rewrite list_elem_of_omap. unfold loadedSource.
  split; intros (u & Hu & H); exists u; split; try done.
  - by destruct (LoadFromURL http_Get u) as [s|]; [injection H as ->|].
  - by rewrite H.
Qed.

(** Over bodies that reach io.EOF the sources are loaded one by one.
    The load fails exactly when every source fails, and then its error
    is the list of the errors of all the sources, each after its URL,
    joined by [; ].  Otherwise the load returns a database in which
    every lookup that succeeds in a source that loaded succeeds, and
    whose entries all come from such sources. *)
Lemma LoadFromMultipleURLs_partial_failure (urls : list string) :
  (is_ok (LoadFromMultipleURLs http_Get urls) = false
   <-> forall u, u ∈ urls -> is_ok (LoadFromURL http_Get u) = false)
  /\ ((forall u, u ∈ urls -> is_ok (LoadFromURL http_Get u) = false) ->
      urls <> [] ->
      LoadFromMultipleURLs http_Get urls
      = Err ("failed to load any IOC sources: "
             +:+ strings.Join
                   (map (fun u =>
                           u +:+ ": "
                           +:+ match LoadFromURL http_Get u with
                               | Err err => err
                               | Ok _ => EmptyString
                               end) urls)
                   "; "))
  /\ (forall db,
        LoadFromMultipleURLs http_Get urls = Ok db ->
        (forall u src name version,
           u ∈ urls -> LoadFromURL http_Get u = Ok src ->
           is_Some (Check src name version) ->
           is_Some (Check db name version))
        /\ (forall k x,
              entries db !! k = Some x ->
              exists u src,
                u ∈ urls /\ LoadFromURL http_Get u = Ok src
                /\ entries src !! k = Some x)).
Proof.
  unfold LoadFromMultipleURLs.
  destruct urls as [|u0 urls'] eqn:Eurls.
  { cbn. split; [|split]; [| done | done].
    split; [|done]. intros _ u Hu. by apply elem_of_nil in Hu. }
  rewrite <- Eurls. assert ((length urls =? 0)%nat = false) as ->
    by by rewrite Eurls.
  rewrite loadStep_fold. cbn [Nat.add app].
  pose proof (no_source_loads urls) as Hnone.
  destruct (length (omap (loadedSource http_Get) urls) =? 0)%nat eqn:E.
  - apply Nat.eqb_eq in E. pose proof (proj1 Hnone E) as Hall.
    split; [done|]. split; [|done].
    intros _ _. by rewrite (all_source_errors _ Hall).
  - apply Nat.eqb_neq in E. split; [|split].
    + split; [done|]. intros H. by apply Hnone in H.
    + intros H. by apply Hnone in H.
    + intros db [= <-]. split.
      * intros u src name version Hu Hsrc.
        rewrite !Check_is_Some. intros (Hn & Hv & [x Hx]).
        repeat split; try done.
        apply (mergeAll_covers _ _ src _ x); [|by eapply LoadFromURL_keyed|done].
        apply loadedSource_elem. eauto.
      * intros k x H. apply mergeAll_origin in H as [H|(src & Hin & H)].
        -- cbn in H. by rewrite lookup_empty in H.
        -- apply loadedSource_elem in Hin as (u & Hu & Hsrc). eauto.
        -- intros src (u & _ & Hsrc)%loadedSource_elem.
           by eapply LoadFromURL_keyed.
Qed.

End LoaderProperties.

(** A run with two sources, of which the first cannot be fetched. *)
Lemma LoadFromMultipleURLs_partial_failure_example :
  let http_Get := fun url : string =>
    if String.eqb url "https://example.org/iocs.csv"
    then Ok {| StatusCode := 200;
               Body := [Ok ["Package"; "Version"]; Ok ["pkg"; "= 1.0.0"]] |}
    else Err "connection refused" in
  let urls := ["https://example.org/missing.csv";
               "https://example.org/iocs.csv"] in
  exists db,
    LoadFromMultipleURLs http_Get urls = Ok db
    /\ is_Some (Check db "pkg" "1.0.0").
Proof.
  intros http_Get urls.
  destruct (LoadFromMultipleURLs http_Get urls) as [db|] eqn:E;
    [|by vm_compute in E].
  exists db. split; [done|].
  destruct (LoadFromMultipleURLs_partial_failure http_Get urls) as (_ & _ & H).
  destruct (H db E) as [Hcover _].
  apply (Hcover "https://example.org/iocs.csv"
           (Add NewVulnDB (mkVulnEntry "pkg" "1.0.0" "= 1.0.0"))).
  - right; left.
  - by vm_compute.
  - by eexists.
Qed.

(** ** Extraction (C6, C7, C10) *)

Lemma eqb_empty_false (s : string) : String.eqb s "" = false -> s <> EmptyString.
Proof. by destruct s. Qed.

Lemma Forall_append_one {A} (P : A -> Prop) (l : list A) (x : A) :
  Forall P l -> P x -> Forall P (l ++ [x]).
Proof. intros. apply Forall_app. by repeat constructor. Qed.

(** A loop that keeps a property of the accumulated packages. *)
Lemma foldl_keeps {A B} (P : A -> Prop) (f : A -> B -> A) (l : list B) (a : A) :
  (forall a b, P a -> P (f a b)) -> P a -> P (foldl f a l).
Proof.
  intros Hf. revert a. induction l as [|b l IH]; intros a Ha; cbn; [done|].
  by apply IH, Hf.
Qed.

Lemma pnpmStep_nonEmpty (includeDev : bool) (a : acc)
    (kv : string * PnpmLockEntry.t) :
  Forall nonEmptyRecord a.2 -> Forall nonEmptyRecord (pnpmStep includeDev a kv).2.
Proof.
  intros Ha. destruct kv as [key entry]. unfold pnpmStep.
  destruct (String.eqb key ""); [done|].
  destruct (PnpmLockEntry.Dev entry && negb includeDev); [done|].
  destruct (parsePnpmPackageKey key) as [name version].
  destruct (String.eqb name "") eqn:En; [done|].
  destruct (String.eqb version "") eqn:Ev; [done|]. cbn [orb].
  destruct (isSeen _ a); [done|]. cbn.
  apply Forall_append_one; [done|]. split; by apply eqb_empty_false.
Qed.

Lemma lockPackagesStep_named (includeDev : bool) (a : acc)
    (kv : string * PackageLockEntry.t) :
  Forall (fun p => Name p <> EmptyString) a.2 ->
  Forall (fun p => Name p <> EmptyString) (lockPackagesStep includeDev a kv).2.
Proof.
  intros Ha. destruct kv as [pkgPath entry]. unfold lockPackagesStep.
  destruct (String.eqb pkgPath "" || String.eqb pkgPath "."); [done|].
  destruct (PackageLockEntry.Dev entry && negb includeDev); [done|].
  destruct (String.eqb (extractPackageName pkgPath) "") eqn:En; [done|].
  destruct (isSeen _ a); [done|]. cbn.
  apply Forall_append_one; [done|]. by apply eqb_empty_false.
Qed.

Lemma declarationStep_named (a : list string * gset string) (nr : string) :
  Forall (fun name => name <> EmptyString) a.1 ->
  Forall (fun name => name <> EmptyString) (declarationStep a nr).1.
Proof.
  intros Ha. unfold declarationStep.
  destruct (String.eqb _ "") eqn:E; [done|]. cbn [negb andb].
  destruct (negb _); [|done]. cbn.
  apply Forall_append_one; [done|]. by apply eqb_empty_false.
Qed.

Lemma parseYarnDeclarationLine_named (trimmed : string) :
  Forall (fun name => name <> EmptyString) (parseYarnDeclarationLine trimmed).
Proof.
  unfold parseYarnDeclarationLine.
  apply (foldl_keeps (fun a => Forall (fun name => name <> EmptyString) a.1)).
  - intros a nr. apply declarationStep_named.
  - constructor.
Qed.

Lemma saveName_inv (ver : string) (names : list string) (p : yarnLockParser) :
  ver <> EmptyString ->
  Forall (fun name => name <> EmptyString) names ->
  currentVer p = ver ->
  Forall (fun pkg => nonEmptyRecord pkg /\ IsDev pkg = false) (packages p) ->
  let p' := foldl saveName p names in
  Forall (fun pkg => nonEmptyRecord pkg /\ IsDev pkg = false) (packages p')
  /\ currentNames p' = currentNames p.
Proof.
  intros Hver Hnames. revert p.
  induction Hnames as [|name names Hname _ IH]; intros p Hp Hpk; cbn; [done|].
  destruct (IH (saveName p name)) as [H1 H2].
  - unfold saveName. by destruct (bool_decide _).
  - unfold saveName. destruct (bool_decide _); [done|]. cbn.
    apply Forall_append_one; [done|]. repeat split; [done|by rewrite Hp].
  - split; [done|]. rewrite H2. unfold saveName. by destruct (bool_decide _).
Qed.

Lemma saveCurrentEntry_inv (p : yarnLockParser) :
  yarnInv p -> yarnInv (saveCurrentEntry p).
Proof.
  intros [Hpk Hnames]. unfold saveCurrentEntry.
  destruct (negb (inEntry p)); [done|].
  destruct (String.eqb (currentVer p) "") eqn:Ev; [done|].
  destruct (length (currentNames p) =? 0)%nat; [done|]. cbn [orb].
  destruct (saveName_inv (currentVer p) (currentNames p) p) as [H1 H2];
    try done; [by apply eqb_empty_false|].
  split; [done|]. by rewrite H2.
Qed.

Lemma yarnStep_inv (p : yarnLockParser) (line : string) :
  yarnInv p -> yarnInv (yarnStep p line).
Proof.
  intros Hp. unfold yarnStep.
  destruct (skippedLine _); [done|].
  destruct (isYarnDeclarationLine _ _).
  - destruct (saveCurrentEntry_inv p Hp) as [H _].
    split; [done|]. apply parseYarnDeclarationLine_named.
  - by destruct (inEntry p && _).
Qed.

Lemma ParseYarnLock_inv (content : string) (includeDev : bool)
    (pkgs : list Package) :
  ParseYarnLock content includeDev = Ok pkgs ->
  Forall (fun pkg => nonEmptyRecord pkg /\ IsDev pkg = false) pkgs.
Proof.
  unfold ParseYarnLock. destruct (isYarnBerryFormat content); [done|].
  intros [= <-]. apply saveCurrentEntry_inv, foldl_keeps.
  - apply yarnStep_inv.
  - split; constructor.
Qed.

(** The first signature of the newer generation: the metadata header,
    wherever it stands and whatever else the content holds. *)
Lemma ParseYarnLock_metadata (content : string) (includeDev : bool) :
  strings.Contains content "__metadata:" = true ->
  ParseYarnLock content includeDev = Err berryError.
Proof. intros H. unfold ParseYarnLock, isYarnBerryFormat. by rewrite H. Qed.

(** The second signature, as the code tests it: some line that ends in
    a colon has its first [@npm:] followed by the start of a range. *)
Lemma ParseYarnLock_berry_line (content line : string) (includeDev : bool) :
  line ∈ strings.Split content nl ->
  berryLine line = true ->
  ParseYarnLock content includeDev = Err berryError.
Proof.
  intros Hin Hline. unfold ParseYarnLock, isYarnBerryFormat.
  destruct (strings.Contains content "__metadata:"); [done|].
  assert (existsb berryLine (strings.Split content nl) = true) as ->; [|done].
  apply existsb_exists. exists line. split; [|done].
  by apply list_elem_of_In.
Qed.

(** C6: an entry of the newer generation that declares two aliases, the
    first through a package name ([a-alias@npm:lodash@^4.17.0]) and the
    second with [@npm:] followed by a range ([lodash@npm:^4.17.0]), in
    a content without the metadata header, is not refused: only the
    first [@npm:] of the line is looked at.  The content parses, and
    the first name comes out with the quote that opens the line. *)
Theorem ParseYarnLock_second_alias_undetected :
  let declaration :=
    quoted "a-alias@npm:lodash@^4.17.0, lodash@npm:^4.17.0" +:+ ":" in
  let content :=
    strings.Join
      [declaration; "  version: 4.17.21";
       "  resolution: " +:+ quoted "lodash@npm:4.17.21"; ""] nl in
  isYarnDeclarationLine declaration (strings.TrimSpace declaration) = true
  /\ strings.Contains declaration "@npm:^" = true
  /\ isYarnBerryFormat content = false
  /\ ParseYarnLock content false
     = Ok [ {| Name := dq +:+ "a-alias"; Version := "4.17.21"; IsDev := false;
               Source := "transitive" |};
            {| Name := "lodash"; Version := "4.17.21"; IsDev := false;
               Source := "transitive" |} ].
Proof. vm_compute. by repeat split. Qed.

(** C10: the yarn.lock parser does not read the development flag, and
    no package it returns is marked as development-only. *)
Theorem ParseYarnLock_ignores_includeDev (content : string) :
  ParseYarnLock content true = ParseYarnLock content false
  /\ forall includeDev,
       match ParseYarnLock content includeDev with
       | Ok pkgs => Forall (fun pkg => IsDev pkg = false) pkgs
       | Err _ => True
       end.
Proof.
  split; [done|]. intros includeDev.
  destruct (ParseYarnLock content includeDev) as [pkgs|] eqn:E; [|done].
  apply ParseYarnLock_inv in E. eapply Forall_impl; [exact E|]. by intros p [_ H].
Qed.

(** The walk over the tree only appends to the packages. *)
Lemma parseLegacyEntry_appends (includeDev : bool) (entry : LegacyLockEntry) :
  forall (name : string) (a : acc),
    exists l, (parseLegacyEntry includeDev name entry a).2 = a.2 ++ l.
Proof.
  induction entry as [version dev optional requires deps IH]
    using LegacyLockEntry_tree_ind.
  intros name a. cbn [parseLegacyEntry].
  destruct (dev && negb includeDev); [exists []; by rewrite app_nil_r|].
  destruct (isSeen _ a); [exists []; by rewrite app_nil_r|].
  set (a1 := record name version dev a).
  assert (exists l1, a1.2 = a.2 ++ l1) as [l1 Hl1] by (by eexists).
  revert Hl1. generalize a1 l1. clear a1 l1.
  induction IH as [|[name' entry'] deps' Hentry _ IHdeps]; intros a1 l1 Hl1.
  - by exists l1.
  - destruct (Hentry name' a1) as [l2 Hl2]. cbn in Hl2.
    apply (IHdeps _ (l1 ++ l2)). by rewrite Hl2, Hl1, app_assoc.
Qed.

Lemma parseLegacyDeps_appends (includeDev : bool)
    (deps : list (string * LegacyLockEntry)) (a : acc) :
  exists l, (parseLegacyDeps deps includeDev a).2 = a.2 ++ l.
Proof.
  unfold parseLegacyDeps. revert a.
  induction deps as [|[name entry] deps IH]; intros a; cbn [foldl].
  - exists []. by rewrite app_nil_r.
  - destruct (parseLegacyEntry_appends includeDev entry name a) as [l1 Hl1].
    destruct (IH (parseLegacyEntry includeDev name entry a)) as [l2 Hl2].
    exists (l1 ++ l2). by rewrite Hl2, Hl1, app_assoc.
Qed.

(** C7, counterexample: the manifest parser returns a dependency that
    is declared with the empty version (which npm reads as any version)
    as a record with an empty version; so does the lockfile parser for
    an entry of the packages map that has no version (a link), and the
    walk over the legacy dependency tree for an entry without one. *)
Lemma parsers_emit_empty_version :
  let manifest :=
    "{" +:+ quoted "dependencies" +:+ ":{" +:+ quoted "foo" +:+ ":"
    +:+ quoted "" +:+ "}}" in
  let lock :=
    "{" +:+ quoted "packages" +:+ ":{" +:+ quoted "node_modules/foo" +:+ ":{"
    +:+ quoted "link" +:+ ":true}}}" in
  let legacy :=
    "{" +:+ quoted "dependencies" +:+ ":{" +:+ quoted "foo" +:+ ":{}}}" in
  ParsePackageJSON
    (fun _ => Ok (PackageJSON.mk "" "" [("foo", EmptyString)] [] [] []))
    manifest false
  = Ok [ {| Name := "foo"; Version := ""; IsDev := false;
            Source := "direct" |} ]
  /\ ParsePackageLock
       (fun _ =>
          Ok (PackageLockJSON.mk "" "" 0
                [("node_modules/foo",
                  PackageLockEntry.mk "" "" false false [])]
                []))
       lock false
     = Ok [ {| Name := "foo"; Version := ""; IsDev := false;
               Source := "transitive" |} ]
  /\ ParsePackageLock
       (fun _ =>
          Ok (PackageLockJSON.mk "" "" 0 []
                [("foo", mkLegacyLockEntry "" false false [] [])]))
       legacy false
     = Ok [ {| Name := "foo"; Version := ""; IsDev := false;
               Source := "transitive" |} ].
Proof. by vm_compute. Qed.

(** C7, as the code has it: every record that the pnpm parser and the yarn.lock
    parser return has a name and a version, and every record that the
    lockfile parser takes from the packages map (the records it returns
    first, before those of the legacy dependency tree) has a name. *)
Theorem extraction_nonEmpty
    (yaml_Unmarshal : string -> result PnpmLockYAML.t)
    (json_Unmarshal : string -> result PackageLockJSON.t)
    (content : string) (includeDev : bool) :
  match ParsePnpmLock yaml_Unmarshal content includeDev with
  | Ok pkgs => Forall nonEmptyRecord pkgs
  | Err _ => True
  end
  /\ match ParseYarnLock content includeDev with
     | Ok pkgs => Forall nonEmptyRecord pkgs
     | Err _ => True
     end
  /\ match json_Unmarshal content with
     | Ok lock =>
         exists fromTree,
           ParsePackageLock json_Unmarshal content includeDev
           = Ok (fromPackagesMap includeDev lock ++ fromTree)
           /\ Forall (fun p => Name p <> EmptyString)
                     (fromPackagesMap includeDev lock)
     | Err _ => True
     end.
Proof.
  split; [|split].
  - unfold ParsePnpmLock. destruct (yaml_Unmarshal content) as [lockFile|]; [|done].
    apply (foldl_keeps (fun a : acc => Forall nonEmptyRecord a.2)).
    + intros a kv. apply pnpmStep_nonEmpty.
    + constructor.
  - destruct (ParseYarnLock content includeDev) as [pkgs|] eqn:E; [|done].
    apply ParseYarnLock_inv in E. eapply Forall_impl; [exact E|]. by intros p [H _].
  - unfold ParsePackageLock. destruct (json_Unmarshal content) as [lock|]; [|done].
    destruct (parseLegacyDeps_appends includeDev
                (PackageLockJSON.Dependencies lock)
                (foldl (lockPackagesStep includeDev) (∅, [])
                       (PackageLockJSON.Packages lock))) as [fromTree H].
    exists fromTree. split; [by rewrite H|].
    apply (foldl_keeps (fun a : acc => Forall (fun p => Name p <> EmptyString) a.2)).
    + intros a kv. apply lockPackagesStep_named.
    + constructor.
Qed.

(** A pnpm lockfile with a key that has no version: the key is dropped
    and the records returned have names and versions. *)
Lemma extraction_nonEmpty_witness :
  let decode := fun _ : string =>
    Ok (PnpmLockYAML.mk "9.0"
          [("/@scope/pkg@1.2.3(peer@4.0.0)",
            PnpmLockEntry.mk "" [] false false []);
           ("pkg", PnpmLockEntry.mk "" [] false false [])]) in
  ParsePnpmLock decode "" false
  = Ok [ {| Name := "@scope/pkg"; Version := "1.2.3"; IsDev := false;
            Source := "transitive" |} ]
  /\ Forall nonEmptyRecord
       [ {| Name := "@scope/pkg"; Version := "1.2.3"; IsDev := false;
            Source := "transitive" |} ].
Proof.
  intros decode. split; [by vm_compute|].
  exact (proj1 (extraction_nonEmpty decode (fun _ => Err "") "" false)).
Defined.

(** ** The scan (C8) *)

Section ScanProperties.

Variable json_Unmarshal_PackageJSON : string -> result PackageJSON.t.
Variable json_Unmarshal_PackageLockJSON : string -> result PackageLockJSON.t.
Variable json_Unmarshal_Scripts : string -> result (gmap string string).

(** C8: [parseFile] knows two file names.  A file whose base name is
    npm-shrinkwrap.json, pnpm-lock.yaml or yarn.lock is parsed to no
    package at all, whatever its content; the scan of the
    npm-shrinkwrap.json of the scanner's own test reports nothing,
    while the same content under the name package-lock.json is
    reported. *)
Theorem ScanFiles_skips_lockfiles :
  (forall (s : Scanner) (file : PackageFile),
     path.Base (Path file)
       ∈ ["npm-shrinkwrap.json"; "pnpm-lock.yaml"; "yarn.lock"] ->
     parseFile json_Unmarshal_PackageJSON json_Unmarshal_PackageLockJSON
               s file
     = Ok [])
  /\ parseCSV [Ok ["package_name"; "package_versions"; "sources"];
               Ok ["test-muaddib-vulnerable"; "1.0.0"; "test"]]
     = Ok shrinkwrapDB
  /\ (let result :=
        ScanFiles json_Unmarshal_PackageJSON json_Unmarshal_PackageLockJSON
          json_Unmarshal_Scripts (NewScanner shrinkwrapDB true)
          [ {| RepoName := "test-repo"; Path := "npm-shrinkwrap.json";
               Content := shrinkwrapContent |} ] in
      VulnerablePackages result = [] /\ TotalPackages result = 0%nat)
  /\ (json_Unmarshal_PackageLockJSON shrinkwrapContent = Ok shrinkwrapLock ->
      let file := {| RepoName := "test-repo"; Path := "package-lock.json";
                     Content := shrinkwrapContent |} in
      let result :=
        ScanFiles json_Unmarshal_PackageJSON json_Unmarshal_PackageLockJSON
          json_Unmarshal_Scripts (NewScanner shrinkwrapDB true) [file] in
      map (fun v => Name (vpPackage v)) (VulnerablePackages result)
      = ["test-muaddib-vulnerable"]
      /\ TotalPackages result = 2%nat).
Proof.
  split; [|split; [|split]].
  - intros s file H. unfold parseFile.
    repeat (apply elem_of_cons in H as [->|H]; [reflexivity|]).
    by apply elem_of_nil in H.
  - reflexivity.
  - vm_compute. by split.
  - intros H. cbn zeta. unfold ScanFiles, scanFile, parseFile, ParsePackageLock.
    cbn [foldl Path Content path.Base].
    change (path.Base "package-lock.json") with "package-lock.json".
    cbn [String.eqb Ascii.eqb Bool.eqb]. rewrite H. vm_compute. by split.
Qed.

End ScanProperties.

(** * Further properties *)

(** ** The indicator database: round trip, indexes and counters *)

Lemma built_new : built NewVulnDB.
Proof. by exists []. Qed.

Lemma built_Add (db : VulnDB) (e : VulnEntry) : built db -> built (Add db e).
Proof. intros [es ->]. exists (es ++ [e]). by rewrite foldl_app. Qed.

Lemma built_addAll (es : list VulnEntry) (db : VulnDB) :
  built db -> built (foldl Add db es).
Proof.
  revert db. induction es as [|e es IH]; intros db H; [done|].
  cbn [foldl]. apply IH. by apply built_Add.
Qed.

Lemma built_Merge (db : VulnDB) (other : option VulnDB) :
  built db -> built (Merge db other).
Proof. destruct other; [apply built_addAll|done]. Qed.

Lemma built_parseCSV (reads : list (result (list string))) (db : VulnDB) :
  parseCSV reads = Ok db -> built db.
Proof.
  destruct reads as [|[header|] rest]; [done| |done]. intros H.
  apply parseCSV_Ok_inv in H as [_ ->]. by eexists.
Qed.

Lemma built_keyed (db : VulnDB) : built db -> keyed db.
Proof. intros [es ->]. apply addAll_keyed, NewVulnDB_keyed. Qed.

Lemma built_ind (P : VulnDB -> Prop) :
  P NewVulnDB -> (forall db e, built db -> P db -> P (Add db e)) ->
  forall db, built db -> P db.
Proof.
  intros Hnew Hadd db [es ->].
  induction es as [|e es IH] using rev_ind; [done|].
  rewrite foldl_app. cbn [foldl]. apply Hadd; [by eexists|done].
Qed.

Lemma Check_Add (db : VulnDB) (e : VulnEntry) (name version : string) :
  Check (Add db e) name version
  = if String.eqb name "" || String.eqb version "" then None
    else match entries db !! (name +:+ "@" +:+ version) with
         | Some x => Some x
         | None =>
             if decide (name +:+ "@" +:+ version = entryKey e)
             then Some e else None
         end.
Proof. unfold Check. by rewrite Add_lookup. Qed.

Lemma eqb_empty (s : string) : s <> EmptyString -> String.eqb s "" = false.
Proof. by destruct s. Qed.

(** X1: a look-up after [Add] finds an entry under the key of the entry
    that was added: the entry that was already there, if there was one
    (the first entry of a key wins), and the new entry otherwise.
    Look-ups of every other key are not affected. *)
Theorem Check_after_Add (db : VulnDB) (e : VulnEntry) :
  PackageName e <> EmptyString -> PackageVersion e <> EmptyString ->
  Check (Add db e) (PackageName e) (PackageVersion e)
  = Some (default e (Check db (PackageName e) (PackageVersion e)))
  /\ forall name version,
       name +:+ "@" +:+ version <> entryKey e ->
       Check (Add db e) name version = Check db name version.
Proof.
  intros Hn Hv. split.
  - rewrite Check_Add. unfold Check.
    rewrite (eqb_empty _ Hn), (eqb_empty _ Hv). cbn [orb].
    fold (entryKey e). destruct (entries db !! entryKey e); [done|].
    by rewrite decide_True.
  - intros name version Hne. rewrite Check_Add. unfold Check.
    destruct (_ || _); [done|].
    destruct (entries db !! _); [done|]. by rewrite decide_False.
Qed.

Lemma Check_after_Add_witness :
  let db := Add NewVulnDB (mkVulnEntry "pkg" "1.0.0" "1.0.0, 1.0.1") in
  Check (Add db (mkVulnEntry "pkg" "1.0.0" "= 1.0.0")) "pkg" "1.0.0"
  = Some (mkVulnEntry "pkg" "1.0.0" "1.0.0, 1.0.1")
  /\ Check (Add db (mkVulnEntry "pkg" "1.0.1" "1.0.0, 1.0.1")) "pkg" "1.0.1"
     = Some (mkVulnEntry "pkg" "1.0.1" "1.0.0, 1.0.1").
Proof.
  intros db. split.
  - exact (proj1 (Check_after_Add db (mkVulnEntry "pkg" "1.0.0" "= 1.0.0")
                    ltac:(discriminate) ltac:(discriminate))).
  - exact (proj1 (Check_after_Add db (mkVulnEntry "pkg" "1.0.1" "1.0.0, 1.0.1")
                    ltac:(discriminate) ltac:(discriminate))).
Defined.

(** *** The two indexes *)

Lemma indexed_new : indexed NewVulnDB.
Proof.
  split; intros ? ? H; cbn [NewVulnDB entries byName] in H;
    by rewrite lookup_empty in H.
Qed.

Lemma indexed_Add (db : VulnDB) (e : VulnEntry) :
  keyed db -> indexed db -> indexed (Add db e).
Proof.
  intros Hk [Hl He]. unfold Add.
  destruct (entries db !! entryKey e) as [x|] eqn:E; [by split|].
  split; cbn [entries byName].
  - intros name l Hlook.
    destruct (decide (name = PackageName e)) as [->|Hne].
    + rewrite lookup_insert_eq in Hlook. injection Hlook as <-.
      assert (forall x, x ∈ default [] (byName db !! PackageName e)
                        <-> PackageName x = PackageName e
                            /\ entries db !! entryKey x = Some x) as Hold.
      { intros x. destruct (byName db !! PackageName e) as [old|] eqn:Eo.
        - by apply (Hl _ _ Eo).
        - cbn. split; [by intros ?%elem_of_nil|]. intros [Hx1 Hx2].
          apply He in Hx2. rewrite Hx1, Eo in Hx2. by destruct Hx2. }
      assert (NoDup (default [] (byName db !! PackageName e))) as Hnd.
      { destruct (byName db !! PackageName e) as [old|] eqn:Eo.
        - by apply (Hl _ _ Eo).
        - constructor. }
      split; [by destruct (default _ _)|]. split.
      * apply NoDup_app. split; [done|]. split; [|apply NoDup_singleton].
        intros x Hx ->%list_elem_of_singleton.
        apply Hold in Hx as [_ Hx]. by rewrite E in Hx.
      * intros x. rewrite elem_of_app, list_elem_of_singleton, Hold.
        destruct (decide (entryKey x = entryKey e)) as [Hkx|Hkx].
        -- rewrite Hkx, lookup_insert_eq, E. split.
           ++ intros [[_ ?]| ->]; [done|]. by split.
           ++ intros [_ [= ->]]. by right.
        -- rewrite lookup_insert_ne by done. split.
           ++ intros [?| ->]; [done|]. by destruct Hkx.
           ++ intros ?. by left.
    + rewrite lookup_insert_ne in Hlook by done.
      destruct (Hl _ _ Hlook) as (H1 & H2 & H3). split; [done|]. split; [done|].
      intros x. rewrite H3.
      destruct (decide (entryKey x = entryKey e)) as [Hkx|Hkx].
      * rewrite Hkx, lookup_insert_eq, E. split.
        -- by intros [_ ?].
        -- intros [Hx [= ->]]. by destruct Hne.
      * by rewrite lookup_insert_ne.
  - intros k x Hlook.
    destruct (decide (PackageName x = PackageName e)) as [->|Hne].
    + rewrite lookup_insert_eq. by eexists.
    + rewrite lookup_insert_ne by done.
      destruct (decide (k = entryKey e)) as [->|Hkx].
      * rewrite lookup_insert_eq in Hlook. injection Hlook as ->. by destruct Hne.
      * rewrite lookup_insert_ne in Hlook by done. by apply (He k).
Qed.

Lemma built_indexed (db : VulnDB) : built db -> indexed db.
Proof.
  apply built_ind; [apply indexed_new|].
  intros db' e Hb H. apply indexed_Add; [by apply built_keyed|done].
Qed.

(** X2: in a database built by [Add], the versions that
    [GetVulnerableVersions] lists for a name are exactly the versions
    of the entries of that name that sit under the key [name@version];
    the list is never empty, and [Check] finds each of its versions.
    A name for which nil is returned has no entry. *)
Theorem GetVulnerableVersions_agrees (db : VulnDB) (name : string) :
  built db ->
  match GetVulnerableVersions db name with
  | Some versions =>
      versions <> []
      /\ (forall version,
            version ∈ versions
            <-> exists e, PackageName e = name /\ PackageVersion e = version
                          /\ entries db !! (name +:+ "@" +:+ version) = Some e)
      /\ (name <> EmptyString ->
          forall version, version ∈ versions -> version <> EmptyString ->
                          is_Some (Check db name version))
  | None =>
      forall version e,
        entries db !! (name +:+ "@" +:+ version) = Some e ->
        PackageName e <> name
  end.
Proof.
  intros Hb. pose proof (built_keyed _ Hb) as Hk.
  destruct (built_indexed _ Hb) as [Hl He]. unfold GetVulnerableVersions.
  destruct (byName db !! name) as [l|] eqn:E; cbn [fmap option_fmap option_map].
  - destruct (Hl _ _ E) as (Hne & _ & Hin).
    assert (forall version,
              version ∈ map PackageVersion l
              <-> exists e, PackageName e = name /\ PackageVersion e = version
                            /\ entries db !! (name +:+ "@" +:+ version) = Some e)
      as Hspec.
    { intros version. rewrite list_elem_of_fmap. split.
      - intros (e & -> & [<- H]%Hin). by exists e.
      - intros (e & <- & <- & H). exists e. split; [done|]. apply Hin.
        split; [done|]. pose proof (Hk _ _ H) as Hkey. by rewrite <- Hkey. }
    split; [by destruct l|]. split; [done|].
    intros Hn version (e & _ & _ & H)%Hspec Hv. unfold Check.
    rewrite (eqb_empty _ Hn), (eqb_empty _ Hv). by eexists.
  - intros version e H <-. apply He in H. rewrite E in H. by destruct H.
Qed.

Lemma GetVulnerableVersions_agrees_witness :
  let db := foldl Add NewVulnDB
              [mkVulnEntry "pkg" "1.0.0" "1.0.0, 1.0.1";
               mkVulnEntry "pkg" "1.0.1" "1.0.0, 1.0.1";
               mkVulnEntry "pkg" "1.0.0" "= 1.0.0"] in
  GetVulnerableVersions db "pkg" = Some ["1.0.0"; "1.0.1"]
  /\ ["1.0.0"; "1.0.1"] <> ([] : list string).
Proof.
  intros db. split; [reflexivity|].
  pose proof (GetVulnerableVersions_agrees db "pkg" ltac:(by eexists)) as H.
  change (GetVulnerableVersions db "pkg") with (Some ["1.0.0"; "1.0.1"]) in H.
  exact (proj1 H).
Defined.

(** *** The counters *)

Lemma Add_counters (db : VulnDB) (e : VulnEntry) :
  (UniquePackages db <= Size db <= TotalEntries db)%nat ->
  (UniquePackages (Add db e) <= Size (Add db e) <= TotalEntries (Add db e))%nat.
Proof.
  unfold UniquePackages, Size, TotalEntries, Add. intros [H1 H2].
  destruct (entries db !! entryKey e) eqn:E; cbn [entries byName totalEntries].
  - lia.
  - rewrite (map_size_insert_None _ _ _ E).
    destruct (byName db !! PackageName e) eqn:En.
    + rewrite map_size_insert_Some by done. lia.
    + rewrite map_size_insert_None by done. lia.
Qed.

Lemma built_counters (db : VulnDB) :
  built db -> (UniquePackages db <= Size db <= TotalEntries db)%nat.
Proof.
  intros Hb. revert db Hb.
  apply (built_ind (fun db =>
           (UniquePackages db <= Size db <= TotalEntries db)%nat)).
  - vm_compute. lia.
  - intros db e _. apply Add_counters.
Qed.

(** X3: in a database built by [Add] there are at most as many names
    as keys and at most as many keys as calls of [Add], and there is no
    name exactly when there is no key. *)
Theorem counters_ordered (db : VulnDB) :
  built db ->
  (UniquePackages db <= Size db <= TotalEntries db)%nat
  /\ (UniquePackages db = 0%nat <-> Size db = 0%nat).
Proof.
  intros Hb. split; [by apply built_counters|].
  destruct (built_indexed _ Hb) as [Hl He]. unfold UniquePackages, Size.
  rewrite !map_size_empty_iff. split; intros H0; apply map_empty; intros k.
  - destruct (entries db !! k) as [e|] eqn:E; [|done].
    apply He in E. rewrite H0, lookup_empty in E. by destruct E.
  - destruct (byName db !! k) as [l|] eqn:E; [|done].
    destruct (Hl _ _ E) as (Hne & _ & Hin). destruct l as [|e l]; [done|].
    destruct (proj1 (Hin e)) as [_ H]; [left|]. by rewrite H0, lookup_empty in H.
Qed.

Lemma counters_ordered_witness :
  let db := foldl Add NewVulnDB
              [mkVulnEntry "a" "1.0.0" "1.0.0, 1.0.1";
               mkVulnEntry "a" "1.0.1" "1.0.0, 1.0.1";
               mkVulnEntry "a" "1.0.0" "1.0.0"] in
  (UniquePackages db = 1 /\ Size db = 2 /\ TotalEntries db = 3)%nat
  /\ (UniquePackages db <= Size db <= TotalEntries db)%nat.
Proof.
  intros db. split; [by vm_compute|].
  exact (proj1 (counters_ordered db ltac:(by eexists))).
Defined.

(** *** Merge *)

Lemma Merge_lookup (db src : VulnDB) (k : string) :
  keyed src ->
  entries (Merge db (Some src)) !! k = (entries db ∪ entries src) !! k.
Proof.
  intros Hk. destruct (entries db !! k) as [x|] eqn:E.
  - rewrite (Merge_preserves _ src _ _ E). symmetry. by apply lookup_union_Some_l.
  - destruct (entries src !! k) as [y|] eqn:Es.
    + destruct (Merge_covers db src k y Hk Es) as [z Hz]. rewrite Hz.
      destruct (Merge_origin db src k z Hk Hz) as [H|H]; [congruence|].
      symmetry. rewrite lookup_union_r by done. congruence.
    + destruct (entries (Merge db (Some src)) !! k) as [z|] eqn:Em.
      * destruct (Merge_origin db src k z Hk Em); congruence.
      * symmetry. apply lookup_union_None. by split.
Qed.

Lemma Merge_TotalEntries (db src : VulnDB) :
  TotalEntries (Merge db (Some src)) = (TotalEntries db + Size src)%nat.
Proof.
  unfold Merge. rewrite addAll_TotalEntries, length_fmap, length_map_to_list.
  reflexivity.
Qed.

Lemma addAll_Size (es : list VulnEntry) (db : VulnDB) :
  (Size db <= Size (foldl Add db es) <= Size db + length es)%nat.
Proof.
  revert db. induction es as [|e es IH]; intros db; cbn [foldl length]; [lia|].
  specialize (IH (Add db e)).
  destruct (entries db !! entryKey e) eqn:E.
  - rewrite Add_Size_present in IH by done. lia.
  - rewrite Add_Size_fresh in IH by done. lia.
Qed.

(** X4: [Merge] is the union of the two indexes by key that keeps the
    entry of the receiver where both have one.  It adds the number of
    keys of the source, not the source's own count, to [TotalEntries],
    and the size grows by at most the size of the source. *)
Theorem Merge_union (db src : VulnDB) :
  keyed src ->
  entries (Merge db (Some src)) = entries db ∪ entries src
  /\ TotalEntries (Merge db (Some src)) = (TotalEntries db + Size src)%nat
  /\ (Size db <= Size (Merge db (Some src)) <= Size db + Size src)%nat.
Proof.
  intros Hk.
  assert (entries (Merge db (Some src)) = entries db ∪ entries src) as H.
  { apply map_eq. intros k. by apply Merge_lookup. }
  split; [done|]. split; [apply Merge_TotalEntries|].
  pose proof (addAll_Size (map_to_list (entries src)).*2 db) as Hs.
  by rewrite length_fmap, length_map_to_list in Hs.
Qed.

Lemma Merge_union_witness :
  let db := Add NewVulnDB (mkVulnEntry "pkg" "1.0.0" "1.0.0") in
  let src := foldl Add NewVulnDB
               [mkVulnEntry "pkg" "1.0.0" "= 1.0.0 || = 2.0.0";
                mkVulnEntry "pkg" "2.0.0" "= 1.0.0 || = 2.0.0";
                mkVulnEntry "pkg" "2.0.0" "= 2.0.0"] in
  entries (Merge db (Some src)) = entries db ∪ entries src
  /\ TotalEntries src = 3%nat
  /\ TotalEntries (Merge db (Some src)) = 3%nat
  /\ Check (Merge db (Some src)) "pkg" "1.0.0"
     = Some (mkVulnEntry "pkg" "1.0.0" "1.0.0").
Proof.
  intros db src. split.
  - refine (proj1 (Merge_union db src _)).
    apply addAll_keyed, NewVulnDB_keyed.
  - vm_compute. by repeat split.
Defined.

(** *** Reading the CSV *)

Lemma elem_of_concat {A} (x : A) (ls : list (list A)) :
  x ∈ concat ls <-> exists l, x ∈ l /\ l ∈ ls.
Proof.
  induction ls as [|l ls IH]; cbn [concat].
  - split; [by intros ?%elem_of_nil|]. by intros (l & _ & ?%elem_of_nil).
  - rewrite elem_of_app, IH. split.
    + intros [H|(l' & H1 & H2)]; [exists l; split; [done|left]|].
      exists l'. split; [done|by right].
    + intros (l' & H1 & [->|H2]%elem_of_cons); [by left|]. right. by exists l'.
Qed.

Lemma npmSpecPart_nonEmpty (part : string) :
  Forall (fun version => version <> EmptyString) (npmSpecPart part).
Proof.
  unfold npmSpecPart.
  destruct (String.eqb (strings.TrimSpace part) "") eqn:E; [constructor|].
  destruct (strings.HasPrefix (strings.TrimSpace part) "=").
  - destruct (String.eqb (strings.TrimSpace (strings.TrimPrefix _ "=")) "")
      eqn:E'; [constructor|].
    repeat constructor. by apply eqb_empty_false.
  - rewrite E. repeat constructor. by apply eqb_empty_false.
Qed.

Lemma parseVersionList_versions (versionField : string) :
  Forall (fun version => version <> EmptyString) (parseVersionList versionField).
Proof.
  unfold parseVersionList, parseNpmVersionSpec.
  destruct (_ || _).
  - apply Forall_concat, Forall_forall. intros l [part [-> _]]%list_elem_of_fmap.
    apply npmSpecPart_nonEmpty.
  - set (versions := filter _ _).
    assert (Forall (fun version => version <> EmptyString) versions) as H.
    { apply Forall_forall. by intros v [? _]%list_elem_of_filter. }
    destruct (_ && _) eqn:E; [|done].
    apply andb_true_iff in E as [_ E]. apply negb_true_iff in E.
    repeat constructor. by apply eqb_empty_false.
Qed.

Lemma recordEntries_fields (nameIdx versionIdx : Z) (record : list string)
    (e : VulnEntry) :
  e ∈ recordEntries nameIdx versionIdx record ->
  PackageName e <> EmptyString /\ PackageVersion e <> EmptyString.
Proof.
  unfold recordEntries. destruct (_ <=? _); [by intros ?%elem_of_nil|].
  destruct (String.eqb _ "") eqn:En; [by intros ?%elem_of_nil|].
  destruct (String.eqb (if _ : bool then _ else _) "");
    [by intros ?%elem_of_nil|].
  intros [v [-> Hv]]%list_elem_of_fmap. cbn [PackageName PackageVersion].
  split; [by apply eqb_empty_false|].
  pose proof (parseVersionList_versions
                (if (0 <=? versionIdx) && (versionIdx <? Z.of_nat (length record))
                 then strings.TrimSpace (index_at record versionIdx)
                 else EmptyString)) as H.
  rewrite Forall_forall in H. by apply H.
Qed.

Lemma csvEntries_fields (header : list string)
    (rest : list (result (list string))) (e : VulnEntry) :
  e ∈ csvEntries header rest ->
  PackageName e <> EmptyString /\ PackageVersion e <> EmptyString.
Proof.
  unfold csvEntries. intros [l [H [record [-> _]]%list_elem_of_fmap]]%elem_of_concat.
  by apply recordEntries_fields in H.
Qed.

(** X5: no version that [parseVersionList] or [parseNpmVersionSpec]
    returns is the empty string; and [parseVersionList] returns no
    version at all only for the empty cell or for a cell in the npm
    syntax. *)
Theorem parseVersionList_nonEmpty (versionField : string) :
  Forall (fun version => version <> EmptyString) (parseVersionList versionField)
  /\ Forall (fun version => version <> EmptyString)
            (parseNpmVersionSpec versionField)
  /\ (parseVersionList versionField = [] ->
      versionField = EmptyString
      \/ strings.Contains versionField "= " || strings.HasPrefix versionField "="
         = true).
Proof.
  split; [apply parseVersionList_versions|]. split.
  - unfold parseNpmVersionSpec. apply Forall_concat, Forall_forall.
    intros l [part [-> _]]%list_elem_of_fmap. apply npmSpecPart_nonEmpty.
  - unfold parseVersionList. destruct (_ || _); [by right|].
    destruct (_ && _) eqn:E; [done|]. intros Hnil.
    rewrite Hnil in E. cbn in E. apply negb_false_iff in E.
    left. by apply String.eqb_eq.
Qed.

Lemma csvEntries_present (header : list string)
    (rest : list (result (list string))) (db : VulnDB) (e : VulnEntry) :
  parseCSV (Ok header :: rest) = Ok db ->
  e ∈ csvEntries header rest ->
  is_Some (Check db (PackageName e) (PackageVersion e)).
Proof.
  intros [_ ->]%parseCSV_Ok_inv He. apply Check_is_Some.
  destruct (csvEntries_fields _ _ _ He) as [Hn Hv]. split; [done|]. split; [done|].
  by apply addAll_present.
Qed.

Lemma csvEntries_origin (header : list string)
    (rest : list (result (list string))) (db : VulnDB) (k : string)
    (e : VulnEntry) :
  parseCSV (Ok header :: rest) = Ok db ->
  entries db !! k = Some e ->
  e ∈ csvEntries header rest /\ k = entryKey e.
Proof.
  intros [_ ->]%parseCSV_Ok_inv He.
  apply addAll_origin in He as [He|He]; [|done].
  cbn [NewVulnDB entries] in He. by rewrite lookup_empty in He.
Qed.

(** X6: the database that [parseCSV] returns answers [Check] for
    every name and version that an accepted record expands to; every
    answer of [Check] is an entry of some accepted record, stored under
    the key that was asked for; and every entry that is stored is found
    by [Check] under its own name and version. *)
Theorem parseCSV_Check (header : list string)
    (rest : list (result (list string))) (db : VulnDB) :
  parseCSV (Ok header :: rest) = Ok db ->
  (forall record e,
     record ∈ readRecords header rest ->
     e ∈ recordEntries (findColumns header).1 (findColumns header).2 record ->
     is_Some (Check db (PackageName e) (PackageVersion e)))
  /\ (forall name version e,
        Check db name version = Some e ->
        name +:+ "@" +:+ version = entryKey e
        /\ exists record,
             record ∈ readRecords header rest
             /\ e ∈ recordEntries (findColumns header).1
                                  (findColumns header).2 record)
  /\ (forall k e,
        entries db !! k = Some e ->
        Check db (PackageName e) (PackageVersion e) = Some e).
Proof.
  intros Hdb. split; [|split].
  - intros record e Hr He. apply (csvEntries_present header rest); [done|].
    unfold csvEntries. apply elem_of_concat. eexists. split; [exact He|].
    apply list_elem_of_fmap. by exists record.
  - intros name version e [He _]%Check_lookup.
    destruct (csvEntries_origin _ _ _ _ _ Hdb He) as [Hin Hk]. split; [done|].
    unfold csvEntries in Hin.
    apply elem_of_concat in Hin as [l [Hl [record [-> Hr]]%list_elem_of_fmap]].
    by exists record.
  - intros k e He.
    destruct (csvEntries_origin _ _ _ _ _ Hdb He) as [Hin ->].
    destruct (csvEntries_fields _ _ _ Hin) as [Hn Hv]. unfold Check.
    by rewrite (eqb_empty _ Hn), (eqb_empty _ Hv).
Qed.

Lemma parseCSV_Check_witness :
  let header := ["Package"; "Version"] in
  let rest := [Ok ["pkg"; "= 1.0.0 || = 2.0.0"]; Err "parse error";
               Ok ["other"; "1.0.0, 1.0.1"; "extra"]] in
  exists db,
    parseCSV (Ok header :: rest) = Ok db
    /\ forall k e, entries db !! k = Some e ->
                   Check db (PackageName e) (PackageVersion e) = Some e.
Proof.
  intros header rest. eexists. split; [reflexivity|].
  exact (proj2 (proj2 (parseCSV_Check header rest _ eq_refl))).
Defined.

Lemma readRecords_app (header : list string)
    (r1 r2 : list (result (list string))) :
  readRecords header (r1 ++ r2) = readRecords header r1 ++ readRecords header r2.
Proof. unfold readRecords. apply omap_app. Qed.

(** *** The columns and the warning *)

Lemma headerStep_fold (header : list string) :
  forall i n v : Z,
    (n = -1 \/ 0 <= n < i) -> (v = -1 \/ 0 <= v < i) -> 0 <= i ->
    let st := foldl headerStep (i, n, v) header in
    st.1.1 = i + Z.of_nat (length header)
    /\ (st.1.2 = -1 \/ 0 <= st.1.2 < st.1.1)
    /\ (st.2 = -1 \/ 0 <= st.2 < st.1.1).
Proof.
  induction header as [|col header IH]; intros i n v Hn Hv Hi; cbn [foldl].
  - cbn. split; [lia|done].
  - set (n' := if isNameColumn (strings.ToLower (strings.TrimSpace col))
               then i else n).
    set (v' := if isVersionColumn (strings.ToLower (strings.TrimSpace col))
               then i else v).
    change (headerStep (i, n, v) col) with (i + 1, n', v').
    destruct (IH (i + 1) n' v') as (H1 & H2 & H3).
    + subst n'. destruct (isNameColumn _); lia.
    + subst v'. destruct (isVersionColumn _); lia.
    + lia.
    + cbn zeta. cbn [length]. rewrite Nat2Z.inj_succ. lia.
Qed.

Lemma findColumns_range (header : list string) :
  (2 <= length header)%nat ->
  0 <= (findColumns header).1 < Z.of_nat (length header)
  /\ 0 <= (findColumns header).2 < Z.of_nat (length header).
Proof.
  intros Hlen. unfold findColumns.
  pose proof (headerStep_fold header 0 (-1) (-1)
                ltac:(by left) ltac:(by left) ltac:(lia)) as H.
  cbn zeta in H. destruct (foldl headerStep (0, -1, -1) header) as [[i n] v].
  cbn [fst snd] in *. destruct H as (-> & Hn & Hv).
  destruct (n =? -1) eqn:En, (v =? -1) eqn:Ev; lia.
Qed.

Lemma readRecords_length (header : list string)
    (rest : list (result (list string))) (record : list string) :
  record ∈ readRecords header rest -> length record = length header.
Proof.
  unfold readRecords. intros [[r|] [_ H]]%list_elem_of_omap; [|done].
  destruct (length r =? length header)%nat eqn:E; [|done].
  injection H as <-. by apply Nat.eqb_eq.
Qed.

(** X8: whatever the header says, the two column indexes that
    [parseCSV] settles on are inside the header, and so inside every
    record that the reader accepts: indexing a record with them does
    not go out of range. *)
Theorem findColumns_in_range (header : list string)
    (rest : list (result (list string))) :
  (2 <= length header)%nat ->
  0 <= (findColumns header).1 < Z.of_nat (length header)
  /\ 0 <= (findColumns header).2 < Z.of_nat (length header)
  /\ forall record,
       record ∈ readRecords header rest ->
       is_Some (elem_at record (findColumns header).1)
       /\ is_Some (elem_at record (findColumns header).2).
Proof.
  intros Hlen. destruct (findColumns_range header Hlen) as [Hn Hv].
  split; [done|]. split; [done|]. intros record Hr%readRecords_length.
  unfold elem_at. split.
  - destruct (0 <=? _) eqn:E; [|lia]. apply lookup_lt_is_Some. lia.
  - destruct (0 <=? (findColumns header).2) eqn:E; [|lia].
    apply lookup_lt_is_Some. lia.
Qed.

Lemma findColumns_in_range_witness :
  findColumns ["sources"; "Version"; "Name "] = (2, 1)
  /\ 0 <= 2 < Z.of_nat (length ["sources"; "Version"; "Name "]).
Proof.
  split; [reflexivity|].
  exact (proj1 (findColumns_in_range ["sources"; "Version"; "Name "] []
                  ltac:(cbn; lia))).
Defined.

Lemma samples_safe (nameIdx versionIdx : Z) (allRecords : list (list string)) :
  (forall record, record ∈ allRecords ->
                  is_Some (elem_at record nameIdx)
                  /\ is_Some (elem_at record versionIdx)) ->
  is_Some (samples nameIdx versionIdx allRecords).
Proof.
  intros H. unfold samples. apply fmap_is_Some, mapM_is_Some, Forall_forall.
  intros record Hr%elem_of_take. destruct Hr as [i [Hr _]].
  apply list_elem_of_lookup_2 in Hr.
  destruct (H _ Hr) as [[n Hn] [v Hv]].
  change (is_Some (sampleLines nameIdx versionIdx record)). unfold sampleLines.
  destruct (1 <? length record)%nat; [|by eexists].
  rewrite Hn. cbn. rewrite Hv. by eexists.
Qed.

(** *** The read loop *)

Lemma parseCSVWarning_Ok (header : list string)
    (rest : list (result (list string))) :
  parseCSVWarning (Ok header :: rest)
  = if (length header <? 2)%nat then Some None
    else warnCall header (readRecords header rest).
Proof. reflexivity. Qed.

(** When the loop ends, it has gathered the records among the reads
    before io.EOF. *)
Lemma readAll_Some (fuel : nat) (header : list string) (reader : csvReader) :
  forall n allRecords all,
    readAll fuel header reader n allRecords = Some all ->
    all = allRecords ++ readRecords header (readsBefore fuel reader n)
    /\ exists k, (k < fuel)%nat /\ reader (n + k)%nat = None.
Proof.
  induction fuel as [|fuel IH]; intros n allRecords all; cbn [readAll]; [done|].
  unfold Read. cbn [readsBefore].
  destruct (reader n) as [[record|err]|] eqn:E.
  - cbn [readRecords omap list_omap].
    destruct (length record =? length header)%nat; intros H;
      apply IH in H as (-> & k & Hk & Hr).
    + split; [by rewrite <- app_assoc|].
      exists (S k). split; [lia|]. by rewrite Nat.add_succ_r.
    + split; [done|]. exists (S k). split; [lia|]. by rewrite Nat.add_succ_r.
  - intros H. apply IH in H as (-> & k & Hk & Hr). split; [done|].
    exists (S k). split; [lia|]. by rewrite Nat.add_succ_r.
  - intros [= <-]. split; [by rewrite app_nil_r|].
    exists 0%nat. split; [lia|]. by rewrite Nat.add_0_r.
Qed.

(** The loop ends once io.EOF is met. *)
Lemma readAll_ends (header : list string) (reader : csvReader) (k : nat) :
  forall fuel n allRecords,
    (k < fuel)%nat -> reader (n + k)%nat = None ->
    is_Some (readAll fuel header reader n allRecords).
Proof.
  induction k as [|k IH]; intros fuel n allRecords Hk Hr;
    (destruct fuel as [|fuel]; [lia|]); cbn [readAll]; unfold Read.
  - rewrite Nat.add_0_r in Hr. rewrite Hr. by eexists.
  - rewrite Nat.add_succ_r in Hr.
    destruct (reader n) as [[record|err]|]; [| |by eexists].
    + destruct (length record =? length header)%nat; apply IH; (lia || done).
    + apply IH; (lia || done).
Qed.

(** Without io.EOF the loop does not end. *)
Lemma readAll_None (header : list string) (reader : csvReader) :
  forall fuel n allRecords,
    (forall k, reader (n + k)%nat <> None) ->
    readAll fuel header reader n allRecords = None.
Proof.
  induction fuel as [|fuel IH]; intros n allRecords H; cbn [readAll]; [done|].
  assert (forall k, reader (S n + k)%nat <> None) as H'.
  { intros k. specialize (H (S k)). by rewrite Nat.add_succ_r in H. }
  specialize (H 0%nat). rewrite Nat.add_0_r in H. unfold Read.
  destruct (reader n) as [[record|err]|]; [| |done].
  - destruct (length record =? length header)%nat; by apply IH.
  - by apply IH.
Qed.

Lemma warnCall_safe (header : list string) (allRecords : list (list string)) :
  (2 <= length header)%nat ->
  (forall record, record ∈ allRecords -> length record = length header) ->
  exists w,
    warnCall header allRecords = Some w
    /\ (is_Some w <-> usedFallback header = true /\ allRecords <> []).
Proof.
  intros Hlen Hrec. unfold warnCall.
  destruct (findColumns_range header Hlen) as [Hn Hv].
  destruct (findColumns header) as [nameIdx versionIdx]. cbn [fst snd] in *.
  destruct (usedFallback header); cbn [andb].
  - destruct allRecords as [|record allRecords].
    + exists None. split; [done|]. split; [by intros []|]. by intros [_ ?].
    + cbn [length Nat.ltb Nat.leb].
      destruct (samples_safe nameIdx versionIdx (record :: allRecords))
        as [s Hs].
      { intros r Hr%Hrec. unfold elem_at. split.
        - destruct (0 <=? nameIdx) eqn:E; [|lia]. apply lookup_lt_is_Some. lia.
        - destruct (0 <=? versionIdx) eqn:E; [|lia].
          apply lookup_lt_is_Some. lia. }
      rewrite Hs. cbn. eexists. split; [done|]. split; [done|by eexists].
  - exists None. split; [done|]. split; [by intros []|]. by intros [? _].
Qed.

(** [parseCSV] over a reader that reaches io.EOF returns what [parseCSV]
    makes of the reads before it, and passes to [warn] what
    [parseCSVWarning] says. *)
Lemma parseCSV_run_Returned (fuel : nat) (reader : csvReader)
    (w : option string) (r : result VulnDB) :
  parseCSV_run fuel reader = Returned (w, r) ->
  r = parseCSV (readsBefore (S fuel) reader 0)
  /\ parseCSVWarning (readsBefore (S fuel) reader 0) = Some w.
Proof.
  unfold parseCSV_run. cbn [readsBefore].
  destruct (reader 0%nat) as [[header|err]|]; [| |by intros [= <- <-]].
  - rewrite parseCSVWarning_Ok. cbn [parseCSV].
    destruct (length header <? 2)%nat; [by intros [= <- <-]|].
    destruct (findColumns header) as [nameIdx versionIdx].
    destruct (readAll fuel header reader 1 []) as [all|] eqn:E; [|done].
    apply readAll_Some in E as [-> _]. cbn [app].
    destruct (warnCall header _) as [warned|]; [|done]. by intros [= <- <-].
  - by intros [= <- <-].
Qed.

Lemma parseCSV_run_in_range (fuel : nat) (reader : csvReader) :
  parseCSV_run fuel reader <> OutOfRange.
Proof.
  unfold parseCSV_run.
  destruct (reader 0%nat) as [[header|err]|]; [|done|done].
  destruct (length header <? 2)%nat eqn:Hlen; [done|].
  apply Nat.ltb_ge in Hlen.
  destruct (findColumns header) as [nameIdx versionIdx].
  destruct (readAll fuel header reader 1 []) as [all|] eqn:E; [|done].
  apply readAll_Some in E as [-> _]. cbn [app].
  destruct (warnCall_safe header (readRecords header (readsBefore fuel reader 1)))
    as (w & -> & _); [done| |done].
  intros record. apply readRecords_length.
Qed.

Lemma parseCSV_run_Running (fuel : nat) (reader : csvReader)
    (header : list string) :
  reader 0%nat = Some (Ok header) -> (2 <= length header)%nat ->
  (forall n, reader (S n) <> None) ->
  parseCSV_run fuel reader = Running.
Proof.
  intros Hh Hlen Hr. unfold parseCSV_run. rewrite Hh.
  apply Nat.ltb_ge in Hlen. rewrite Hlen.
  destruct (findColumns header) as [nameIdx versionIdx].
  by rewrite readAll_None.
Qed.

Lemma parseCSV_run_returns (fuel : nat) (reader : csvReader) (k : nat) :
  (k <= fuel)%nat -> reader k = None ->
  exists out, parseCSV_run fuel reader = Returned out.
Proof.
  intros Hk Hr.
  destruct (parseCSV_run fuel reader) as [| |out] eqn:E; [| |by eexists].
  - exfalso. revert E. unfold parseCSV_run.
    destruct (reader 0%nat) as [[header|err]|] eqn:E0; [|done|done].
    destruct (length header <? 2)%nat; [done|].
    destruct (findColumns header) as [nameIdx versionIdx].
    destruct k as [|k]; [congruence|].
    destruct (readAll_ends header reader k fuel 1 []) as [all ->]; [lia|done|].
    by destruct (warnCall header all).
  - by apply parseCSV_run_in_range in E.
Qed.

Lemma readsBefore_readerOf (reads : list (result (list string))) :
  forall bound n,
    (length reads <= n + bound)%nat ->
    readsBefore bound (readerOf reads) n = drop n reads.
Proof.
  induction bound as [|bound IH]; intros n Hn; cbn [readsBefore].
  - rewrite drop_ge by lia. done.
  - unfold readerOf at 1. destruct (reads !! n) as [r|] eqn:E.
    + rewrite IH by lia. symmetry. by apply drop_S.
    + apply lookup_ge_None in E. by rewrite drop_ge.
Qed.

(** Over the reader of an input that gives [reads] and then io.EOF,
    [parseCSV] returns, and it returns [parseCSV reads] after the call
    of [warn] that [parseCSVWarning reads] says. *)
Lemma parseCSV_run_readerOf (reads : list (result (list string)))
    (fuel : nat) :
  (length reads <= fuel)%nat ->
  exists w,
    parseCSV_run fuel (readerOf reads) = Returned (w, parseCSV reads)
    /\ parseCSVWarning reads = Some w.
Proof.
  intros Hfuel.
  destruct (parseCSV_run_returns fuel (readerOf reads) (length reads) Hfuel)
    as [[w r] H].
  { unfold readerOf. by apply lookup_ge_None. }
  pose proof (parseCSV_run_Returned _ _ _ _ H) as [Hr Hw].
  rewrite readsBefore_readerOf in Hr, Hw by lia. rewrite drop_0 in Hr, Hw.
  exists w. by rewrite H, Hr.
Qed.

(** X7: [parseCSV] returns an error exactly when the header cannot be
    read or has fewer than two columns.  Past such a header it returns
    a database exactly when the reader reaches io.EOF, and it never
    returns when the reader never does: an error of a later read is
    not a failure of [parseCSV], the loop goes on to the next read.
    When io.EOF is reached, a data line that cannot be read and a
    record whose number of fields differs from the header's are
    skipped, and the result is the one without them. *)
Theorem parseCSV_failure :
  (forall fuel reader,
     (exists w msg, parseCSV_run fuel reader = Returned (w, Err msg))
     <-> (reader 0%nat = None
          \/ (exists err, reader 0%nat = Some (Err err))
          \/ (exists header,
                reader 0%nat = Some (Ok header) /\ (length header < 2)%nat)))
  /\ (forall fuel reader header,
        reader 0%nat = Some (Ok header) -> (2 <= length header)%nat ->
        ((exists w db, parseCSV_run fuel reader = Returned (w, Ok db))
         <-> exists k, (k < fuel)%nat /\ reader (S k) = None))
  /\ (forall reader header,
        reader 0%nat = Some (Ok header) -> (2 <= length header)%nat ->
        (forall n, reader (S n) <> None) ->
        forall fuel, parseCSV_run fuel reader = Running)
  /\ (forall fuel reader w r,
        parseCSV_run fuel reader = Returned (w, r) ->
        r = parseCSV (readsBefore (S fuel) reader 0))
  /\ (forall header before after err,
        parseCSV (Ok header :: before ++ Err err :: after)
        = parseCSV (Ok header :: before ++ after))
  /\ (forall header before after record,
        length record <> length header ->
        parseCSV (Ok header :: before ++ Ok record :: after)
        = parseCSV (Ok header :: before ++ after)).
Proof.
  split; [|split; [|split; [|split; [|split]]]].
  - intros fuel reader. unfold parseCSV_run.
    destruct (reader 0%nat) as [[header|err]|].
    + destruct (length header <? 2)%nat eqn:E.
      * apply Nat.ltb_lt in E. split; [|by eexists _, _].
        intros _. right; right. by exists header.
      * apply Nat.ltb_ge in E. split.
        -- intros (w & msg & H). exfalso. revert H.
           destruct (findColumns header) as [nameIdx versionIdx].
           destruct (readAll fuel header reader 1 []) as [all|]; [|done].
           by destruct (warnCall header all).
        -- intros [H|[[err H]|(h & [= <-] & H)]]; [done|done|lia].
    + split; [|by eexists _, _]. intros _. right; left. by exists err.
    + split; [|by eexists _, _]. intros _. by left.
  - intros fuel reader header Hh Hlen. unfold parseCSV_run. rewrite Hh.
    apply Nat.ltb_ge in Hlen. rewrite Hlen.
    apply Nat.ltb_ge in Hlen.
    destruct (findColumns header) as [nameIdx versionIdx]. split.
    + intros (w & db & H).
      destruct (readAll fuel header reader 1 []) as [all|] eqn:E; [|done].
      apply readAll_Some in E as (_ & k & Hk & Hr). by exists k.
    + intros (k & Hk & Hr).
      destruct (readAll_ends header reader k fuel 1 []) as [all Hall];
        [done|done|]. rewrite Hall.
      destruct (warnCall_safe header all) as (w & -> & _); [done| |by eexists _, _].
      apply readAll_Some in Hall as [-> _]. intros record.
      apply readRecords_length.
  - intros reader header Hh Hlen Hr fuel. by eapply parseCSV_run_Running.
  - intros fuel reader w r H. by apply parseCSV_run_Returned in H as [-> _].
  - intros header before after err. cbn [parseCSV].
    by rewrite !readRecords_app.
  - intros header before after record Hlen. cbn [parseCSV].
    rewrite !readRecords_app. cbn [readRecords omap list_omap].
    apply Nat.eqb_neq in Hlen. by rewrite Hlen.
Qed.

(** X9: building the warning never indexes a record out of range, so
    [parseCSV] is never stopped by it; and when [parseCSV] returns,
    [warn] was called exactly when the header was accepted, one of the
    two columns was not recognised, and at least one record was
    accepted.  ([warn] is called after the read loop: there is no
    warning from a call that does not return.) *)
Theorem parseCSVWarning_safe :
  (forall fuel reader, parseCSV_run fuel reader <> OutOfRange)
  /\ (forall fuel reader w r,
        parseCSV_run fuel reader = Returned (w, r) ->
        (is_Some w
         <-> exists header,
               reader 0%nat = Some (Ok header) /\ (2 <= length header)%nat
               /\ usedFallback header = true
               /\ readRecords header (readsBefore fuel reader 1) <> []))
  /\ (forall fuel reader w r,
        parseCSV_run fuel reader = Returned (w, r) ->
        parseCSVWarning (readsBefore (S fuel) reader 0) = Some w).
Proof.
  split; [|split].
  - apply parseCSV_run_in_range.
  - intros fuel reader w r. unfold parseCSV_run.
    destruct (reader 0%nat) as [[header|err]|].
    + destruct (length header <? 2)%nat eqn:Hlen.
      * intros [= <- <-]. split; [by intros []|].
        intros (h & [= <-] & H & _). apply Nat.ltb_lt in Hlen. lia.
      * apply Nat.ltb_ge in Hlen.
        destruct (findColumns header) as [nameIdx versionIdx].
        destruct (readAll fuel header reader 1 []) as [all|] eqn:E; [|done].
        apply readAll_Some in E as [-> _]. cbn [app].
        destruct (warnCall_safe header
                    (readRecords header (readsBefore fuel reader 1)))
          as (w' & -> & Hw); [done| |].
        { intros record. apply readRecords_length. }
        intros [= <- <-]. rewrite Hw. split.
        -- intros [? ?]. by exists header.
        -- by intros (h & [= <-] & _ & ? & ?).
    + intros [= <- <-]. split; [by intros []|]. by intros (h & ? & _).
    + intros [= <- <-]. split; [by intros []|]. by intros (h & ? & _).
  - intros fuel reader w r H. by apply parseCSV_run_Returned in H as [_ ?].
Qed.

(** *** Loading over readers *)

Section LoaderRunProperties.

Variable http_Get : string -> result HTTPResponse.

Lemma LoadFromURL_run_in_range (fuel : nat) (url : string) :
  LoadFromURL_run http_Get fuel url <> OutOfRange.
Proof.
  unfold LoadFromURL_run. destruct (http_Get url) as [resp|]; [|done].
  destruct (negb (Code resp =? 200)); [done|].
  pose proof (parseCSV_run_in_range fuel (BodyReader resp)).
  by destruct (parseCSV_run fuel (BodyReader resp)) as [| |[w r]].
Qed.

(** A source that returns, returns what [LoadFromURL] makes of the
    reads before io.EOF. *)
Lemma LoadFromURL_run_Returned (fuel : nat) (url : string)
    (r : result VulnDB) :
  LoadFromURL_run http_Get fuel url = Returned r ->
  r = LoadFromURL (frozen fuel http_Get) url.
Proof.
  unfold LoadFromURL_run, LoadFromURL, frozen.
  destruct (http_Get url) as [resp|err]; [|by intros [= <-]].
  cbn [StatusCode Body].
  destruct (negb (Code resp =? 200)); [by intros [= <-]|].
  destruct (parseCSV_run fuel (BodyReader resp)) as [| |[w r']] eqn:E;
    [done|done|].
  intros [= <-]. by apply parseCSV_run_Returned in E as [-> _].
Qed.

Lemma LoadFromURL_run_broken (fuel : nat) (url : string) :
  broken http_Get url -> LoadFromURL_run http_Get fuel url = Running.
Proof.
  intros (resp & header & Hget & Hcode & Hh & Hlen & Hr).
  unfold LoadFromURL_run. rewrite Hget, Hcode. cbn [Z.eqb Pos.eqb negb].
  by rewrite (parseCSV_run_Running fuel _ header).
Qed.

Lemma loadStep_run_Running (fuel : nat) (urls : list string) :
  foldl (loadStep_run http_Get fuel) Running urls = Running.
Proof. by induction urls. Qed.

Lemma loadStep_run_broken (fuel : nat) (urls : list string) (url : string) :
  forall st,
    url ∈ urls -> broken http_Get url ->
    foldl (loadStep_run http_Get fuel) (Returned st) urls = Running.
Proof.
  induction urls as [|u urls IH]; intros st Hin Hb.
  - by apply elem_of_nil in Hin.
  - cbn [foldl]. destruct st as [[db errors] successCount].
    cbn [loadStep_run].
    pose proof (LoadFromURL_run_in_range fuel u) as Hu.
    destruct (LoadFromURL_run http_Get fuel u) as [| |[src|err]] eqn:E.
    + apply loadStep_run_Running.
    + done.
    + apply elem_of_cons in Hin as [->|Hin]; [|by apply IH].
      by rewrite LoadFromURL_run_broken in E.
    + apply elem_of_cons in Hin as [->|Hin]; [|by apply IH].
      by rewrite LoadFromURL_run_broken in E.
Qed.

Lemma loadStep_run_Returned (fuel : nat) (urls : list string) :
  forall st st',
    foldl (loadStep_run http_Get fuel) (Returned st) urls = Returned st' ->
    st' = foldl (loadStep (frozen fuel http_Get)) st urls.
Proof.
  induction urls as [|u urls IH]; intros st st'; cbn [foldl].
  - by intros [= <-].
  - destruct st as [[db errors] successCount]. cbn [loadStep_run loadStep].
    destruct (LoadFromURL_run http_Get fuel u) as [| |r] eqn:E.
    + by rewrite loadStep_run_Running.
    + by apply LoadFromURL_run_in_range in E.
    + apply LoadFromURL_run_Returned in E as ->.
      destruct (LoadFromURL (frozen fuel http_Get) u); apply IH.
Qed.

(** When the load returns, it returns what [LoadFromMultipleURLs] makes
    of the bodies read up to io.EOF. *)
Lemma LoadFromMultipleURLs_run_Returned (fuel : nat) (urls : list string)
    (r : result VulnDB) :
  LoadFromMultipleURLs_run http_Get fuel urls = Returned r ->
  r = LoadFromMultipleURLs (frozen fuel http_Get) urls.
Proof.
  unfold LoadFromMultipleURLs_run, LoadFromMultipleURLs.
  destruct (length urls =? 0)%nat; [by intros [= <-]|].
  destruct (foldl (loadStep_run http_Get fuel) _ urls)
    as [| |[[db errors] successCount]] eqn:E; [done|done|].
  apply loadStep_run_Returned in E as <-. by intros [= <-].
Qed.

(** The load returns when every body reaches io.EOF. *)
Lemma LoadFromMultipleURLs_run_returns (fuel : nat) (urls : list string) :
  (forall u resp,
     u ∈ urls -> http_Get u = Ok resp -> Code resp = 200 ->
     exists k, (k <= fuel)%nat /\ BodyReader resp k = None) ->
  exists r, LoadFromMultipleURLs_run http_Get fuel urls = Returned r.
Proof.
  intros H. unfold LoadFromMultipleURLs_run.
  destruct (length urls =? 0)%nat; [by eexists|].
  assert (forall st, exists st',
            foldl (loadStep_run http_Get fuel) (Returned st) urls
            = Returned st') as Hfold.
  { induction urls as [|u urls IH]; intros st; cbn [foldl]; [by eexists|].
    destruct st as [[db errors] successCount]. cbn [loadStep_run].
    assert (exists r, LoadFromURL_run http_Get fuel u = Returned r) as [r ->].
    { unfold LoadFromURL_run.
      destruct (http_Get u) as [resp|err] eqn:Hget; [|by eexists].
      destruct (Code resp =? 200) eqn:Hcode; cbn [negb]; [|by eexists].
      apply Z.eqb_eq in Hcode.
      destruct (H u resp) as (k & Hk & Hr); [left|done|done|].
      destruct (parseCSV_run_returns fuel (BodyReader resp) k Hk Hr)
        as [[w r] ->].
      by eexists. }
    destruct r; apply IH; intros u' resp Hu'; apply H; by right. }
  destruct (Hfold (NewVulnDB, [], 0%nat)) as [[[db errors] successCount] ->].
  by eexists.
Qed.

End LoaderRunProperties.

(** C9: [LoadFromMultipleURLs] does not get over every failing source.
    A source that answers 200 and whose body gives the header and then
    never io.EOF (every later read returns an error, as after a download
    that broke) keeps [parseCSV] in its read loop: with such a source in
    the list the load never returns, neither the database of the other
    sources nor an error.  The second part is a run with two sources:
    the first, asked alone, loads and gives a hit for [pkg]; the second
    breaks; the load of the two never returns. *)
Theorem LoadFromMultipleURLs_hangs :
  (forall http_Get urls url,
     url ∈ urls -> broken http_Get url ->
     forall fuel, LoadFromMultipleURLs_run http_Get fuel urls = Running)
  /\ (let http_Get := fun url : string =>
        if String.eqb url "https://example.org/iocs.csv"
        then Ok {| Code := 200;
                   BodyReader := fun n =>
                     match n with
                     | 0%nat => Some (Ok ["Package"; "Version"])
                     | 1%nat => Some (Ok ["pkg"; "= 1.0.0"])
                     | _ => None
                     end |}
        else Ok {| Code := 200;
                   BodyReader := fun n =>
                     match n with
                     | 0%nat => Some (Ok ["Package"; "Version"])
                     | _ => Some (Err "unexpected EOF")
                     end |} in
      (exists db,
         LoadFromMultipleURLs_run http_Get 2 ["https://example.org/iocs.csv"]
         = Returned (Ok db)
         /\ is_Some (Check db "pkg" "1.0.0"))
      /\ forall fuel,
           LoadFromMultipleURLs_run http_Get fuel
             ["https://example.org/iocs.csv"; "https://example.org/broken.csv"]
           = Running).
Proof.
  assert (forall http_Get urls url,
            url ∈ urls -> broken http_Get url ->
            forall fuel, LoadFromMultipleURLs_run http_Get fuel urls = Running)
    as Hgen.
  { intros http_Get urls url Hin Hb fuel. unfold LoadFromMultipleURLs_run.
    destruct urls as [|u urls]; [by apply elem_of_nil in Hin|].
    cbn [length Nat.eqb].
    by rewrite (loadStep_run_broken http_Get fuel (u :: urls) url). }
  split; [exact Hgen|]. intros http_Get. split.
  - exists (Merge NewVulnDB
              (Some (Add NewVulnDB (mkVulnEntry "pkg" "1.0.0" "= 1.0.0")))).
    split; [vm_compute; reflexivity|]. vm_compute. by eexists.
  - apply (Hgen http_Get _ "https://example.org/broken.csv"); [right; left|].
    eexists _, ["Package"; "Version"]. split; [by vm_compute|].
    cbn [Code BodyReader]. repeat split; [cbn; lia|]. by intros [|n].
Qed.

(** *** Loading from several sources: the counters *)

Lemma mergeAll_TotalEntries (srcs : list VulnDB) (db : VulnDB) :
  TotalEntries (foldl Merge db (Some <$> srcs))
  = (TotalEntries db + sum_list_with Size srcs)%nat.
Proof.
  revert db. induction srcs as [|src srcs IH]; intros db;
    cbn [fmap list_fmap foldl sum_list_with]; [lia|].
  rewrite IH, Merge_TotalEntries. lia.
Qed.

Lemma built_mergeAll (srcs : list (option VulnDB)) (db : VulnDB) :
  built db -> built (foldl Merge db srcs).
Proof.
  revert db. induction srcs as [|src srcs IH]; intros db H; [done|].
  cbn [foldl]. by apply IH, built_Merge.
Qed.

Lemma Merge_into_new (src : VulnDB) :
  keyed src -> entries (Merge NewVulnDB (Some src)) = entries src.
Proof.
  intros Hk. apply map_eq. intros k. rewrite Merge_lookup by done.
  cbn [NewVulnDB entries]. by rewrite (left_id_L ∅ (∪)).
Qed.

Section LoaderCounters.

Variable http_Get : string -> result Response.

Lemma LoadFromMultipleURLs_Ok (urls : list string) (db : VulnDB) :
  LoadFromMultipleURLs http_Get urls = Ok db ->
  db = foldl Merge NewVulnDB (Some <$> omap (loadedSource http_Get) urls).
Proof.
  unfold LoadFromMultipleURLs. destruct (length urls =? 0)%nat; [done|].
  rewrite loadStep_fold. destruct (_ =? 0)%nat; [done|]. by intros [= <-].
Qed.

(** X10: after [LoadFromMultipleURLs], [TotalEntries] is the sum of
    the sizes of the sources that loaded, and the counters are ordered;
    for a single URL the entries are those of [LoadFromURL], while
    [TotalEntries] is the number of keys of the source and not the
    source's own count. *)
Theorem LoadFromMultipleURLs_counters (urls : list string) (db : VulnDB) :
  LoadFromMultipleURLs http_Get urls = Ok db ->
  TotalEntries db = sum_list_with Size (omap (loadedSource http_Get) urls)
  /\ (UniquePackages db <= Size db <= TotalEntries db)%nat
  /\ (forall url, urls = [url] ->
        exists src, LoadFromURL http_Get url = Ok src
                    /\ entries db = entries src
                    /\ TotalEntries db = Size src).
Proof.
  intros H. pose proof (LoadFromMultipleURLs_Ok _ _ H) as Hdb.
  split; [|split].
  - by rewrite Hdb, mergeAll_TotalEntries.
  - rewrite Hdb. apply built_counters, built_mergeAll, built_new.
  - intros url ->. unfold LoadFromMultipleURLs in H.
    cbn [length Nat.eqb foldl loadStep] in H.
    destruct (LoadFromURL http_Get url) as [src|] eqn:E; [|done].
    injection H as <-. exists src. split; [done|].
    change (foldl Add NewVulnDB (map_to_list (entries src)).*2)
      with (Merge NewVulnDB (Some src)).
    split.
    + apply Merge_into_new. by apply (LoadFromURL_keyed http_Get url).
    + by rewrite Merge_TotalEntries.
Qed.

End LoaderCounters.

Lemma LoadFromMultipleURLs_counters_witness :
  let http_Get := fun url : string =>
    if String.eqb url "https://example.org/a.csv"
    then Ok {| StatusCode := 200;
               Body := [Ok ["name"; "version"]; Ok ["pkg"; "1.0.0"];
                        Ok ["pkg"; "1.0.0"]] |}
    else Ok {| StatusCode := 404; Body := [] |} in
  exists src db,
    LoadFromURL http_Get "https://example.org/a.csv" = Ok src
    /\ LoadFromMultipleURLs http_Get ["https://example.org/a.csv"] = Ok db
    /\ TotalEntries src = 2%nat
    /\ TotalEntries db = 1%nat.
Proof.
  intros http_Get. eexists _, _. split; [reflexivity|].
  split; [reflexivity|]. split; [reflexivity|].
  etransitivity;
    [exact (proj1 (LoadFromMultipleURLs_counters http_Get
                     ["https://example.org/a.csv"] _ eq_refl))|].
  reflexivity.
Defined.

(** ** More on byte strings *)

Lemma app_empty_r (s : string) : s +:+ EmptyString = s.
Proof. induction s as [|c s IH]; [done|]. by rewrite app_cons, IH. Qed.

Lemma app_assoc' (a b c : string) : (a +:+ b) +:+ c = a +:+ (b +:+ c).
Proof. induction a as [|x a IH]; [done|]. by rewrite !app_cons, IH. Qed.

Lemma str_take_drop (n : nat) (s : string) : str_take n s +:+ str_drop n s = s.
Proof.
  revert s. induction n as [|n IH]; intros [|c s]; try reflexivity.
  cbn [str_take str_drop]. by rewrite app_cons, IH.
Qed.

Lemma index_Some_0 (s substr : string) :
  strings.index s substr = Some 0%nat -> strings.HasPrefix s substr = true.
Proof.
  destruct s as [|c s]; cbn [strings.index];
    destruct (strings.HasPrefix _ substr); try done.
  by destruct (strings.index s substr).
Qed.

Lemma index_byte_cons (x c : ascii) (s : string) :
  strings.index (String x s) (String c EmptyString)
  = if Ascii.eqb x c then Some 0%nat
    else S <$> strings.index s (String c EmptyString).
Proof. cbn [strings.index strings.HasPrefix]. by rewrite andb_true_r. Qed.

Lemma index_byte_nil (c : ascii) :
  strings.index EmptyString (String c EmptyString) = None.
Proof. reflexivity. Qed.

(** The bytes before the first occurrence of a byte do not hold it. *)
Lemma index_take_None (c : ascii) (s : string) (m : nat) :
  strings.index s (String c EmptyString) = Some m ->
  strings.index (str_take m s) (String c EmptyString) = None.
Proof.
  revert m. induction s as [|x s IH]; intros m; [done|].
  rewrite index_byte_cons. destruct (Ascii.eqb x c) eqn:E.
  - by intros [= <-].
  - destruct (strings.index s (String c EmptyString)) as [k|] eqn:Ek; [|done].
    intros [= <-]. cbn [str_take]. rewrite index_byte_cons, E.
    by rewrite (IH k).
Qed.

Lemma index_None_take (c : ascii) (s : string) (n : nat) :
  strings.index s (String c EmptyString) = None ->
  strings.index (str_take n s) (String c EmptyString) = None.
Proof.
  revert n. induction s as [|x s IH]; intros [|n]; try done.
  rewrite index_byte_cons. cbn [str_take]. rewrite index_byte_cons.
  destruct (Ascii.eqb x c); [done|].
  destruct (strings.index s (String c EmptyString)) eqn:E; [done|].
  intros _. by rewrite IH.
Qed.

Lemma index_0_take (c : ascii) (s : string) (n : nat) :
  strings.index s (String c EmptyString) = Some 0%nat ->
  strings.index (str_take (S n) s) (String c EmptyString) = Some 0%nat.
Proof.
  destruct s as [|x s]; [done|]. rewrite index_byte_cons. cbn [str_take].
  rewrite index_byte_cons. destruct (Ascii.eqb x c); [done|].
  by destruct (strings.index s _).
Qed.

Lemma HasPrefix_byte_take (c : ascii) (s : string) (n : nat) :
  strings.HasPrefix s (String c EmptyString) = false ->
  strings.HasPrefix (str_take n s) (String c EmptyString) = false.
Proof. by destruct s, n. Qed.

Lemma Index_None (s substr : string) :
  strings.index s substr = None -> strings.Index s substr = -1.
Proof. unfold strings.Index. by intros ->. Qed.

Lemma Index_Some (s substr : string) (m : nat) :
  strings.index s substr = Some m -> strings.Index s substr = Z.of_nat m.
Proof. unfold strings.Index. by intros ->. Qed.

Lemma Contains_index (s substr : string) :
  strings.Contains s substr = false <-> strings.index s substr = None.
Proof.
  split; [apply Contains_false_index|apply index_None_Contains].
Qed.

(** *** White space *)

Lemma leadingSpace_None (s r : string) :
  strings.leadingSpace s = None -> In r strings.spaceRunes ->
  strings.HasPrefix s r = false.
Proof. intros H Hin. by apply (find_none _ _ H r). Qed.

Lemma space_in_spaceRunes : In " " strings.spaceRunes.
Proof. vm_compute. tauto. Qed.

Lemma trimRightSpace_keeps_start (c : ascii) (fuel : nat) (s : string) :
  strings.HasPrefix s (String c EmptyString) = false ->
  strings.HasPrefix (strings.trimRightSpace fuel s) (String c EmptyString)
  = false.
Proof.
  revert s. induction fuel as [|fuel IH]; intros s H; [done|].
  cbn [strings.trimRightSpace]. destruct (strings.trailingSpace s); [|done].
  by apply IH, HasPrefix_byte_take.
Qed.

Lemma TrimSpace_no_leading_blank (s : string) :
  strings.HasPrefix (strings.TrimSpace s) " " = false.
Proof.
  unfold strings.TrimSpace. apply trimRightSpace_keeps_start.
  apply leadingSpace_None; [|apply space_in_spaceRunes].
  by apply trimLeftSpace_done.
Qed.

(** ** Version ranges of the manifest *)

Lemma cleanVersion_blank_free (version : string) :
  strings.Contains (cleanVersion version) " " = false.
Proof.
  unfold cleanVersion. set (v := strings.TrimSpace _).
  assert (strings.HasPrefix v " " = false) as Hv
    by apply TrimSpace_no_leading_blank.
  destruct (strings.index v " ") as [[|m]|] eqn:E.
  - apply index_Some_0 in E. congruence.
  - rewrite (Index_Some _ _ _ E).
    replace (0 <? Z.of_nat (S m)) with true by (symmetry; apply Z.ltb_lt; lia).
    unfold slice_to. rewrite Nat2Z.id. by apply Contains_index, index_take_None.
  - rewrite (Index_None _ _ E). cbn. by apply Contains_index.
Qed.

(** ** The manifest *)

Lemma directPackages_fields (isDev : bool) (deps : list (string * string)) :
  Forall (fun p => IsDev p = isDev /\ Source p = "direct")
         (directPackages isDev deps).
Proof.
  unfold directPackages. apply Forall_forall.
  by intros p [[name version] [-> _]]%list_elem_of_fmap.
Qed.

Lemma directPackages_filter (isDev : bool) (deps : list (string * string)) :
  filter (fun p => IsDev p = false) (directPackages isDev deps)
  = if isDev then [] else directPackages isDev deps.
Proof.
  induction deps as [|[name version] deps IH]; [by destruct isDev|].
  unfold directPackages in *. cbn [map]. rewrite filter_cons.
  cbn [IsDev]. destruct isDev.
  - by rewrite decide_False.
  - rewrite decide_True by done. by rewrite IH.
Qed.

(** X11: what [ParsePackageJSON] returns without the development
    dependencies is what it returns with them, less the records marked
    as development-only.  The records are direct, they are the names
    and cleaned ranges of the four sections in the order production,
    development, optional, peer (a name that occurs in two sections
    occurs twice), and the records marked as development-only are those
    of the development section. *)
Theorem ParsePackageJSON_includeDev
    (json_Unmarshal : string -> result PackageJSON.t)
    (content : string) (pkg : PackageJSON.t) :
  json_Unmarshal content = Ok pkg ->
  exists withDev without,
    ParsePackageJSON json_Unmarshal content true = Ok withDev
    /\ ParsePackageJSON json_Unmarshal content false = Ok without
    /\ without = filter (fun p => IsDev p = false) withDev
    /\ Forall (fun p => Source p = "direct") withDev
    /\ map (fun p => (Name p, Version p)) withDev
       = map (fun kv => (kv.1, cleanVersion kv.2))
             (PackageJSON.Dependencies pkg ++ PackageJSON.DevDependencies pkg
              ++ PackageJSON.OptionalDependencies pkg
              ++ PackageJSON.PeerDependencies pkg)
    /\ filter (fun p => IsDev p = true) withDev
       = directPackages true (PackageJSON.DevDependencies pkg).
Proof.
  intros H. unfold ParsePackageJSON. rewrite H. eexists _, _.
  split; [reflexivity|]. split; [reflexivity|].
  assert (forall isDev deps,
            map (fun p => (Name p, Version p)) (directPackages isDev deps)
            = map (fun kv => (kv.1, cleanVersion kv.2)) deps) as Hmap.
  { intros isDev deps. unfold directPackages. rewrite map_map.
    apply map_ext. by intros [name version]. }
  assert (forall isDev deps,
            filter (fun p => IsDev p = true) (directPackages isDev deps)
            = if isDev then directPackages isDev deps else []) as Hdev.
  { intros isDev deps.
    induction deps as [|[name version] deps IH]; [by destruct isDev|].
    unfold directPackages in *. cbn [map]. rewrite filter_cons.
    cbn [IsDev]. destruct isDev.
    - rewrite decide_True by done. by rewrite IH.
    - by rewrite decide_False. }
  split; [|split; [|split]].
  - by rewrite !filter_app, !directPackages_filter.
  - repeat (apply Forall_app; split);
      (eapply Forall_impl; [apply directPackages_fields|]); by intros p [_ ?].
  - by rewrite !map_app, !Hmap.
  - rewrite !filter_app, !Hdev. cbn [app]. by rewrite app_nil_r.
Qed.

Lemma ParsePackageJSON_includeDev_witness :
  let pkg := PackageJSON.mk "app" "1.0.0" [("foo", "^1.2.3")]
               [("jest", "~29.0.0")] [] [("foo", ">=1.0.0 <2.0.0")] in
  ParsePackageJSON (fun _ => Ok pkg) "" true
  = Ok [mkPackage "foo" "1.2.3" false "direct";
        mkPackage "jest" "29.0.0" true "direct";
        mkPackage "foo" "1.0.0" false "direct"]
  /\ exists withDev without,
       ParsePackageJSON (fun _ => Ok pkg) "" true = Ok withDev
       /\ ParsePackageJSON (fun _ => Ok pkg) "" false = Ok without
       /\ without = filter (fun p => IsDev p = false) withDev.
Proof.
  intros pkg. split; [vm_compute; reflexivity|].
  destruct (ParsePackageJSON_includeDev (fun _ => Ok pkg) "" pkg eq_refl)
    as (withDev & without & H1 & H2 & H3 & _).
  by exists withDev, without.
Defined.

Lemma TrimPrefix_other (c x : ascii) (s prefix : string) :
  Ascii.eqb c x = false ->
  strings.TrimPrefix (String c s) (String x prefix) = String c s.
Proof. intros H. unfold strings.TrimPrefix. cbn [strings.HasPrefix]. by rewrite H. Qed.

(** X12: a cleaned range holds no blank; and a version that has no
    surrounding white space, no blank and no leading operator is left
    as it is. *)
Theorem cleanVersion_no_blank (version : string) :
  strings.Contains (cleanVersion version) " " = false
  /\ strings.HasPrefix (cleanVersion version) " " = false
  /\ (strings.TrimSpace version = version ->
      strings.Contains version " " = false ->
      Forall (fun p => strings.HasPrefix version p = false)
             ["^"; "~"; ">"; "<"; "="] ->
      cleanVersion version = version).
Proof.
  split; [apply cleanVersion_blank_free|]. split.
  - pose proof (cleanVersion_blank_free version) as H.
    apply Contains_index in H.
    destruct (strings.HasPrefix (cleanVersion version) " ") eqn:E; [|done].
    destruct (cleanVersion version); [done|].
    cbn [strings.index] in H. by rewrite E in H.
  - intros Ht Hb Hp. unfold cleanVersion.
    repeat (apply Forall_cons in Hp as [? Hp]).
    destruct version as [|c version]; [reflexivity|].
    cbn [strings.HasPrefix] in *. rewrite !andb_true_r in *.
    rewrite !TrimPrefix_other by done. rewrite Ht. apply Contains_index in Hb.
    by rewrite (Index_None _ _ Hb).
Qed.

(** ** pnpm versions and keys *)

Lemma slice_to_prefix (s : string) (i : Z) :
  exists rest, s = slice_to s i +:+ rest.
Proof. exists (slice_from s i). symmetry. apply str_take_drop. Qed.

Lemma stripParenSuffix_prefix (version : string) :
  exists rest, version = stripParenSuffix version +:+ rest.
Proof.
  unfold stripParenSuffix. destruct (0 <? _); [apply slice_to_prefix|].
  exists EmptyString. by rewrite app_empty_r.
Qed.

(** After the first step the first parenthesis, if there is one left,
    is the first byte; the same holds for what is cut from it. *)
Lemma stripParenSuffix_stable (version : string) :
  strings.index (stripParenSuffix version) "(" = None
  \/ strings.index (stripParenSuffix version) "(" = Some 0%nat.
Proof.
  unfold stripParenSuffix, strings.Index.
  destruct (strings.index version "(") as [[|m]|] eqn:E; cbn [Z.ltb Z.compare Z.of_nat].
  - by right.
  - left. unfold slice_to. rewrite Nat2Z.id. by apply index_take_None.
  - by left.
Qed.

Lemma stable_take (s : string) (n : nat) :
  strings.index s "(" = None \/ strings.index s "(" = Some 0%nat ->
  strings.index (str_take n s) "(" = None
  \/ strings.index (str_take n s) "(" = Some 0%nat.
Proof.
  intros [H|H]; [left; by apply index_None_take|].
  destruct n as [|n]; [left; by destruct s|]. right. by apply index_0_take.
Qed.

Lemma stripParenSuffix_fixed (s : string) :
  strings.index s "(" = None \/ strings.index s "(" = Some 0%nat ->
  stripParenSuffix s = s.
Proof. unfold stripParenSuffix, strings.Index. by intros [-> | ->]. Qed.

Lemma stripPnpmPeerDepSuffix_cases (version : string) :
  stripPnpmPeerDepSuffix version
  = match strings.index (stripParenSuffix version) "_" with
    | Some (S j) =>
        if strings.Contains (str_drop (S j + 1) (stripParenSuffix version)) "@"
        then str_take (S j) (stripParenSuffix version)
        else stripParenSuffix version
    | _ => stripParenSuffix version
    end.
Proof.
  unfold stripPnpmPeerDepSuffix, strings.Index, slice_to, slice_from. cbn zeta.
  destruct (strings.index (stripParenSuffix version) "_") as [[|j]|]; try done.
  replace (0 <? Z.of_nat (S j)) with true by (symmetry; apply Z.ltb_lt; lia).
  rewrite Nat2Z.id.
  by replace (Z.to_nat (Z.of_nat (S j) + 1)) with (S j + 1)%nat by lia.
Qed.

Lemma stripPnpmPeerDepSuffix_fixed (version : string) :
  stripPnpmPeerDepSuffix (stripPnpmPeerDepSuffix version)
  = stripPnpmPeerDepSuffix version.
Proof.
  rewrite (stripPnpmPeerDepSuffix_cases version).
  pose proof (stripParenSuffix_stable version) as Hw.
  set (w := stripParenSuffix version) in *.
  destruct (strings.index w "_") as [[|j]|] eqn:Ej.
  - rewrite stripPnpmPeerDepSuffix_cases, stripParenSuffix_fixed by done.
    by rewrite Ej.
  - destruct (strings.Contains _ "@") eqn:Ec.
    + rewrite stripPnpmPeerDepSuffix_cases.
      rewrite stripParenSuffix_fixed by (by apply stable_take).
      by rewrite (index_take_None _ _ _ Ej).
    + rewrite stripPnpmPeerDepSuffix_cases, stripParenSuffix_fixed by done.
      by rewrite Ej, Ec.
  - rewrite stripPnpmPeerDepSuffix_cases, stripParenSuffix_fixed by done.
    by rewrite Ej.
Qed.

Lemma stripPnpmPeerDepSuffix_prefix (version : string) :
  exists rest, version = stripPnpmPeerDepSuffix version +:+ rest.
Proof.
  destruct (stripParenSuffix_prefix version) as [r1 H1].
  rewrite stripPnpmPeerDepSuffix_cases.
  destruct (strings.index _ "_") as [[|j]|]; try by exists r1.
  destruct (strings.Contains _ "@"); [|by exists r1].
  exists (str_drop (S j) (stripParenSuffix version) +:+ r1).
  by rewrite <- app_assoc', str_take_drop.
Qed.

Lemma stripPnpmPeerDepSuffix_keeps (version : string) :
  version <> EmptyString -> stripPnpmPeerDepSuffix version <> EmptyString.
Proof.
  intros Hne.
  assert (stripParenSuffix version <> EmptyString) as Hw.
  { unfold stripParenSuffix, strings.Index, slice_to.
    destruct (strings.index version "(") as [[|m]|]; try done.
    replace (0 <? Z.of_nat (S m)) with true by (symmetry; apply Z.ltb_lt; lia).
    rewrite Nat2Z.id. by destruct version. }
  rewrite stripPnpmPeerDepSuffix_cases.
  destruct (strings.index _ "_") as [[|j]|]; try done.
  destruct (strings.Contains _ "@"); [|done].
  by destruct (stripParenSuffix version).
Qed.

(** X13: stripping the peer-dependency suffix twice is the same as
    stripping it once; the result is an initial part of the version,
    and it is not empty unless the version is. *)
Theorem stripPnpmPeerDepSuffix_idempotent (version : string) :
  stripPnpmPeerDepSuffix (stripPnpmPeerDepSuffix version)
  = stripPnpmPeerDepSuffix version
  /\ (exists rest, version = stripPnpmPeerDepSuffix version +:+ rest)
  /\ (version <> EmptyString -> stripPnpmPeerDepSuffix version <> EmptyString).
Proof.
  split; [apply stripPnpmPeerDepSuffix_fixed|].
  split; [apply stripPnpmPeerDepSuffix_prefix|apply stripPnpmPeerDepSuffix_keeps].
Qed.

Lemma index_byte_app_None (a b : string) (c : ascii) :
  strings.index a (String c EmptyString) = None ->
  strings.index b (String c EmptyString) = None ->
  strings.index (a +:+ b) (String c EmptyString) = None.
Proof.
  intros Ha Hb. induction a as [|x a IH]; [done|].
  rewrite app_cons, index_byte_cons. rewrite index_byte_cons in Ha.
  destruct (Ascii.eqb x c); [done|].
  destruct (strings.index a (String c EmptyString)); [done|]. by rewrite IH.
Qed.

Lemma last_index_None (s : string) (c : ascii) :
  strings.index s (String c EmptyString) = None ->
  strings.last_index s (String c EmptyString) = None.
Proof.
  induction s as [|x s IH]; [done|]. rewrite index_byte_cons.
  destruct (Ascii.eqb x c) eqn:E; [done|].
  destruct (strings.index s (String c EmptyString)) eqn:Es; [done|]. intros _.
  cbn [strings.last_index strings.HasPrefix]. by rewrite IH, E.
Qed.

Lemma last_index_byte_app (a b : string) (c : ascii) :
  strings.index b (String c EmptyString) = None ->
  strings.last_index (a +:+ String c b) (String c EmptyString)
  = Some (String.length a).
Proof.
  intros Hb. induction a as [|x a IH].
  - rewrite app_nil. cbn [strings.last_index strings.HasPrefix].
    by rewrite (last_index_None _ _ Hb), Ascii.eqb_refl.
  - rewrite app_cons. cbn [strings.last_index]. by rewrite IH.
Qed.

Lemma first_byte_other (s : string) (c : ascii) :
  s <> EmptyString ->
  strings.index s (String c EmptyString) = None ->
  exists x s', s = String x s' /\ Ascii.eqb x c = false.
Proof.
  destruct s as [|x s']; [done|]. intros _. rewrite index_byte_cons.
  destruct (Ascii.eqb x c) eqn:E; [done|]. by exists x, s'.
Qed.

Lemma SplitN_unscoped (name version : string) :
  strings.Contains name "@" = false ->
  strings.SplitN (name +:+ "@" +:+ version) "@" 2 = [name; version].
Proof.
  intros H%Contains_index. unfold strings.SplitN.
  change ("@" +:+ version) with (String "@" version).
  rewrite app_length. cbn [String.length].
  replace (String.length name + S (String.length version))%nat
    with (S (String.length name + String.length version)) by lia.
  cbn [strings.genSplit].
  rewrite (index_byte_app name version "@" H), str_take_app, str_drop_app_S.
  by destruct (String.length name + String.length version)%nat.
Qed.

Lemma parsePnpmPackageKey_at (name version : string) :
  name <> EmptyString ->
  strings.Contains name "@" = false ->
  parsePnpmPackageKey ("/" +:+ name +:+ "@" +:+ version)
  = (name, stripPnpmPeerDepSuffix version)
  /\ (strings.HasPrefix name "/" = false ->
      parsePnpmPackageKey (name +:+ "@" +:+ version)
      = (name, stripPnpmPeerDepSuffix version)).
Proof.
  intros Hne Hat.
  assert (parsePnpmPackageKey ("/" +:+ name +:+ "@" +:+ version)
          = (name, stripPnpmPeerDepSuffix version)) as Hkey.
  { unfold parsePnpmPackageKey.
    change (strings.TrimPrefix ("/" +:+ name +:+ "@" +:+ version) "/")
      with (name +:+ "@" +:+ version). cbn zeta.
    destruct (first_byte_other name "@" Hne (proj1 (Contains_index _ _) Hat))
      as (x & n' & -> & Hx).
    rewrite app_cons. cbn [strings.HasPrefix]. rewrite Hx. cbn [andb].
    rewrite <- app_cons.
    change ("@" +:+ version) with (String "@" version).
    rewrite Contains_byte_app.
    change (String "@" version) with ("@" +:+ version).
    by rewrite SplitN_unscoped. }
  split; [done|]. intros Hslash.
  { rewrite <- Hkey. unfold parsePnpmPackageKey.
    change (strings.TrimPrefix ("/" +:+ name +:+ "@" +:+ version) "/")
      with (name +:+ "@" +:+ version).
    assert (strings.TrimPrefix (name +:+ "@" +:+ version) "/"
            = name +:+ "@" +:+ version) as ->; [|done].
    destruct name as [|x n']; [done|]. rewrite app_cons.
    unfold strings.TrimPrefix. cbn [strings.HasPrefix] in *.
    rewrite andb_true_r in Hslash. by rewrite Hslash. }
Qed.

(** X14: a pnpm key [name@version], with or without the leading
    slash, whose name holds no [@], parses to the name and the stripped
    version.  (The name is everything before the first [@], slashes
    included.) *)
Theorem parsePnpmPackageKey_unscoped (name version : string) :
  name <> EmptyString ->
  strings.Contains name "@" = false ->
  parsePnpmPackageKey ("/" +:+ name +:+ "@" +:+ version)
  = (name, stripPnpmPeerDepSuffix version)
  /\ (strings.HasPrefix name "/" = false ->
      parsePnpmPackageKey (name +:+ "@" +:+ version)
      = (name, stripPnpmPeerDepSuffix version)).
Proof. apply parsePnpmPackageKey_at. Qed.

Lemma parsePnpmPackageKey_unscoped_witness :
  parsePnpmPackageKey "/left-pad@1.3.0(react@18.2.0)"
  = ("left-pad", stripPnpmPeerDepSuffix "1.3.0(react@18.2.0)")
  /\ stripPnpmPeerDepSuffix "1.3.0(react@18.2.0)" = "1.3.0"
  /\ parsePnpmPackageKey "/foo/1.0.0_bar@2.0.0"
     = ("foo/1.0.0_bar", stripPnpmPeerDepSuffix "2.0.0").
Proof.
  split; [|split; [reflexivity|]].
  - exact (proj1 (parsePnpmPackageKey_unscoped "left-pad" "1.3.0(react@18.2.0)"
                    ltac:(discriminate) eq_refl)).
  - exact (proj1 (parsePnpmPackageKey_unscoped "foo/1.0.0_bar" "2.0.0"
                    ltac:(discriminate) eq_refl)).
Defined.

Lemma splitAtLastSlash_path (name version : string) :
  name <> EmptyString ->
  strings.Contains version "/" = false ->
  splitAtLastSlash (name +:+ "/" +:+ version)
  = (name, stripPnpmPeerDepSuffix version).
Proof.
  intros Hne Hv%Contains_index. unfold splitAtLastSlash, strings.LastIndex.
  change ("/" +:+ version) with (String "/" version).
  rewrite (last_index_byte_app name version "/" Hv).
  fold (len name). rewrite len_pos_iff.
  destruct (String.eqb name "") eqn:E; [by apply String.eqb_eq in E|].
  cbn [negb]. by rewrite slice_to_app, slice_from_app_S.
Qed.

(** X15: a pnpm key in the path form [/name/version], scoped or not,
    parses to the name and the stripped version when the version holds
    neither a slash nor an [@]. *)
Theorem parsePnpmPackageKey_path (name version : string) :
  name <> EmptyString ->
  strings.Contains (strings.TrimPrefix name "@") "@" = false ->
  strings.Contains version "/" = false ->
  strings.Contains version "@" = false ->
  parsePnpmPackageKey ("/" +:+ name +:+ "/" +:+ version)
  = (name, stripPnpmPeerDepSuffix version).
Proof.
  intros Hne Hn Hv Hva. unfold parsePnpmPackageKey.
  change (strings.TrimPrefix ("/" +:+ name +:+ "/" +:+ version) "/")
    with (name +:+ "/" +:+ version). cbn zeta.
  pose proof (splitAtLastSlash_path name version Hne Hv) as Hsplit.
  destruct name as [|x n']; [done|]. rewrite app_cons in *.
  unfold strings.TrimPrefix in Hn. cbn [strings.HasPrefix] in *.
  rewrite andb_true_r in *.
  assert (strings.index (n' +:+ "/" +:+ version) "@" = None) as Hrest.
  { apply index_byte_app_None;
      [|apply Contains_index in Hva;
        change ("/" +:+ version) with (String "/" version);
        by rewrite index_byte_cons, Hva].
    destruct (Ascii.eqb x "@") eqn:E.
    - by apply Contains_index in Hn.
    - apply Contains_index in Hn. rewrite index_byte_cons, E in Hn.
      by destruct (strings.index n' "@"). }
  destruct (Ascii.eqb x "@") eqn:E.
  - apply Ascii.eqb_eq in E as ->. unfold strings.SplitN.
    cbn [String.length strings.genSplit strings.index strings.HasPrefix].
    rewrite Ascii.eqb_refl. cbn [andb str_take str_drop Nat.add String.length].
    destruct (String.length (n' +:+ "/" +:+ version)) eqn:El.
    + by rewrite Hsplit.
    + cbn [strings.genSplit]. rewrite Hrest. by rewrite Hsplit.
  - assert (strings.Contains (String x (n' +:+ "/" +:+ version)) "@" = false)
      as ->; [|done].
    apply Contains_index. rewrite index_byte_cons, E. by rewrite Hrest.
Qed.

Lemma parsePnpmPackageKey_path_witness :
  parsePnpmPackageKey "/@babel/core/7.20.0"
  = ("@babel/core", stripPnpmPeerDepSuffix "7.20.0")
  /\ parsePnpmPackageKey "/lodash/4.17.21"
     = ("lodash", stripPnpmPeerDepSuffix "4.17.21").
Proof.
  split.
  - exact (parsePnpmPackageKey_path "@babel/core" "7.20.0"
             ltac:(discriminate) eq_refl eq_refl eq_refl).
  - exact (parsePnpmPackageKey_path "lodash" "4.17.21"
             ltac:(discriminate) eq_refl eq_refl eq_refl).
Defined.

(** ** Paths of the packages map *)

Lemma index_None_first_byte (s rest : string) (c : ascii) :
  strings.index s (String c EmptyString) = None ->
  strings.index s (String c rest) = None.
Proof.
  induction s as [|x s IH]; [done|]. rewrite index_byte_cons.
  destruct (Ascii.eqb x c) eqn:E; [done|].
  destruct (strings.index s (String c EmptyString)); [done|]. intros _.
  cbn [strings.index strings.HasPrefix]. rewrite E. cbn [andb]. by rewrite IH.
Qed.

Lemma HasPrefix_app (p rest : string) : strings.HasPrefix (p +:+ rest) p = true.
Proof.
  induction p as [|x p IH]; [done|]. rewrite app_cons.
  cbn [strings.HasPrefix]. by rewrite Ascii.eqb_refl, IH.
Qed.

(** A string that starts with [p] holds every byte of [p]. *)
Lemma HasPrefix_index (c : ascii) (p : string) :
  forall s : string,
    strings.HasPrefix s p = true ->
    is_Some (strings.index p (String c EmptyString)) ->
    is_Some (strings.index s (String c EmptyString)).
Proof.
  induction p as [|y p IH]; intros s Hs Hp; [by destruct Hp|].
  destruct s as [|x s]; [done|]. cbn [strings.HasPrefix] in Hs.
  apply andb_true_iff in Hs as [Hxy%Ascii.eqb_eq Hs]. subst y.
  rewrite index_byte_cons in *. destruct (Ascii.eqb x c); [done|].
  apply fmap_is_Some, IH; [done|]. by apply fmap_is_Some in Hp.
Qed.

Lemma index_HasPrefix (s substr : string) :
  strings.HasPrefix s substr = true -> strings.index s substr = Some 0%nat.
Proof. intros H. destruct s; cbn [strings.index]; by rewrite H. Qed.

Lemma index_app_first (p rest : string) (c : ascii) (sep : string) :
  strings.index p (String c EmptyString) = None ->
  strings.index (p +:+ String c sep +:+ rest) (String c sep)
  = Some (String.length p).
Proof.
  intros Hp. induction p as [|x p IH].
  - rewrite app_nil. apply index_HasPrefix, HasPrefix_app.
  - rewrite index_byte_cons in Hp. destruct (Ascii.eqb x c) eqn:E; [done|].
    rewrite app_cons. cbn [strings.index strings.HasPrefix]. rewrite E.
    cbn [andb]. rewrite IH; [done|].
    by destruct (strings.index p (String c EmptyString)).
Qed.

Lemma str_drop_app (a b : string) : str_drop (String.length a) (a +:+ b) = b.
Proof. induction a as [|x a IH]; [done|]. by rewrite app_cons. Qed.

Lemma str_drop_add (n m : nat) (s : string) :
  str_drop (n + m) s = str_drop m (str_drop n s).
Proof.
  revert s. induction n as [|n IH]; intros s; [done|].
  destruct s as [|x s]; [by destruct m|]. apply IH.
Qed.

Lemma genSplit_None (fuel n : nat) (s sep : string) :
  strings.index s sep = None -> strings.genSplit fuel n s sep = [s].
Proof. intros H. destruct fuel, n; try done. cbn. by rewrite H. Qed.

Lemma Split_None (s sep : string) :
  strings.index s sep = None -> strings.Split s sep = [s].
Proof. apply genSplit_None. Qed.

(** The name that [extractPackageName] takes from the last part of the
    path. *)
Lemma extractPackageName_last (path : string) :
  strings.index path "/node_modules/" = None ->
  extractPackageName ("node_modules/" +:+ path)
  = if strings.HasPrefix path "@"
       && (2 <=? length (strings.SplitN path "/" 3))%nat
    then nth 0 (strings.SplitN path "/" 3) EmptyString +:+ "/"
         +:+ nth 1 (strings.SplitN path "/" 3) EmptyString
    else nth 0 (strings.SplitN path "/" 2) EmptyString.
Proof.
  intros H. unfold extractPackageName.
  change (strings.TrimPrefix ("node_modules/" +:+ path) "node_modules/")
    with path.
  cbn zeta. by rewrite (Split_None _ _ H).
Qed.

Lemma extractPackageName_plain (name : string) :
  strings.Contains name "/" = false ->
  extractPackageName ("node_modules/" +:+ name) = name.
Proof.
  intros H%Contains_index.
  rewrite extractPackageName_last by (by apply index_None_first_byte).
  unfold strings.SplitN. rewrite !genSplit_None by done. cbn [length nth].
  by rewrite andb_false_r.
Qed.

Lemma extractPackageName_in_scope (scope pkg : string) :
  strings.Contains scope "/" = false ->
  strings.Contains pkg "/" = false ->
  extractPackageName ("node_modules/@" +:+ scope +:+ "/" +:+ pkg)
  = "@" +:+ scope +:+ "/" +:+ pkg.
Proof.
  intros Hs%Contains_index Hp%Contains_index.
  change ("node_modules/@" +:+ scope +:+ "/" +:+ pkg)
    with ("node_modules/" +:+ (String "@" scope +:+ String "/" pkg)).
  assert (strings.index (String "@" scope) "/" = None) as Hs'
    by (by rewrite index_byte_cons, Hs).
  rewrite extractPackageName_last.
  - assert (strings.SplitN (String "@" scope +:+ String "/" pkg) "/" 3
            = [String "@" scope; pkg]) as ->.
    { unfold strings.SplitN. rewrite app_length. cbn [String.length].
      replace (S (String.length scope) + S (String.length pkg))%nat
        with (S (S (String.length scope) + String.length pkg)) by lia.
      cbn [strings.genSplit].
      rewrite (index_byte_app _ pkg "/" Hs').
      change (S (String.length scope)) with (String.length (String "@" scope)).
      rewrite str_take_app, str_drop_app_S. by rewrite genSplit_None. }
    by rewrite app_cons.
  - assert (forall a, strings.index a "/" = None ->
              strings.index (a +:+ String "/" pkg) "/node_modules/" = None) as Hgen.
    { intros a Ha. induction a as [|x a IH].
      - rewrite app_nil. cbn [strings.index].
        destruct (strings.HasPrefix (String "/" pkg) "/node_modules/") eqn:E.
        + cbn [strings.HasPrefix] in E.
          destruct (HasPrefix_index "/" "node_modules/" pkg) as [k Hk];
            [done|by eexists|congruence].
        + by rewrite (index_None_first_byte _ _ _ Hp).
      - rewrite index_byte_cons in Ha. destruct (Ascii.eqb x "/") eqn:E; [done|].
        rewrite app_cons. cbn [strings.index strings.HasPrefix]. rewrite E.
        cbn [andb]. rewrite IH; [done|]. by destruct (strings.index a "/"). }
    by apply Hgen.
Qed.

Lemma extractPackageName_nested (parent path : string) :
  strings.Contains parent "/" = false ->
  strings.Contains path "/node_modules/" = false ->
  extractPackageName ("node_modules/" +:+ parent +:+ "/node_modules/" +:+ path)
  = extractPackageName ("node_modules/" +:+ path).
Proof.
  intros Hparent%Contains_index Hpath%Contains_index.
  rewrite (extractPackageName_last path Hpath). unfold extractPackageName.
  change (strings.TrimPrefix
            ("node_modules/" +:+ parent +:+ "/node_modules/" +:+ path)
            "node_modules/")
    with (parent +:+ "/node_modules/" +:+ path).
  cbn zeta.
  assert (strings.Split (parent +:+ "/node_modules/" +:+ path) "/node_modules/"
          = [parent; path]) as ->; [|done].
  unfold strings.Split. rewrite app_length.
  change (String.length ("/node_modules/" +:+ path))
    with (S (String.length ("node_modules/" +:+ path))).
  replace (String.length parent + S (String.length ("node_modules/" +:+ path)))%nat
    with (S (String.length parent + String.length ("node_modules/" +:+ path)))
    by lia.
  cbn [strings.genSplit].
  change ("/node_modules/" +:+ path) with (String "/" "node_modules/" +:+ path).
  rewrite (index_app_first parent path "/" "node_modules/" Hparent).
  rewrite str_take_app, str_drop_add, str_drop_app.
  change (str_drop (String.length "/node_modules/")
            (String "/" "node_modules/" +:+ path)) with path.
  by rewrite genSplit_None.
Qed.

(** X16: [extractPackageName] returns the name of a package that
    sits directly under node_modules, scoped or not, and for a package
    nested under another one the name it returns for the nested
    path. *)
Theorem extractPackageName_paths :
  (forall name,
     strings.Contains name "/" = false ->
     extractPackageName ("node_modules/" +:+ name) = name)
  /\ (forall scope pkg,
        strings.Contains scope "/" = false ->
        strings.Contains pkg "/" = false ->
        extractPackageName ("node_modules/@" +:+ scope +:+ "/" +:+ pkg)
        = "@" +:+ scope +:+ "/" +:+ pkg)
  /\ (forall parent path,
        strings.Contains parent "/" = false ->
        strings.Contains path "/node_modules/" = false ->
        extractPackageName
          ("node_modules/" +:+ parent +:+ "/node_modules/" +:+ path)
        = extractPackageName ("node_modules/" +:+ path)).
Proof.
  split; [apply extractPackageName_plain|].
  split; [apply extractPackageName_in_scope|apply extractPackageName_nested].
Qed.

(** *** A substring stays one in a larger text *)

Lemma Contains_is_Some (s substr : string) :
  strings.Contains s substr = true <-> is_Some (strings.index s substr).
Proof.
  unfold strings.Contains, strings.Index.
  destruct (strings.index s substr) as [i|].
  - split; [by eexists|]. intros _. apply Z.leb_le. lia.
  - split; [done|]. by intros [].
Qed.

Lemma HasPrefix_app_l (p : string) :
  forall s rest,
    strings.HasPrefix s p = true -> strings.HasPrefix (s +:+ rest) p = true.
Proof.
  induction p as [|y p IH]; intros s rest H; [done|].
  destruct s as [|x s]; [done|]. rewrite app_cons. cbn [strings.HasPrefix] in *.
  apply andb_true_iff in H as [-> H]. by rewrite (IH _ _ H).
Qed.

Lemma index_app_l (s substr rest : string) :
  is_Some (strings.index s substr) ->
  is_Some (strings.index (s +:+ rest) substr).
Proof.
  induction s as [|x s IH]; cbn [strings.index].
  - destruct (strings.HasPrefix EmptyString substr) eqn:E; [|by intros []].
    intros _. rewrite (index_HasPrefix _ _ (HasPrefix_app_l _ _ rest E)).
    by eexists.
  - destruct (strings.HasPrefix (String x s) substr) eqn:E.
    + intros _. rewrite (index_HasPrefix _ _ (HasPrefix_app_l _ _ rest E)).
      by eexists.
    + intros H%fmap_is_Some. rewrite app_cons. cbn [strings.index].
      destruct (strings.HasPrefix (String x (s +:+ rest)) substr);
        [by eexists|].
      by apply fmap_is_Some, IH.
Qed.

Lemma index_app_r (before s substr : string) :
  is_Some (strings.index s substr) ->
  is_Some (strings.index (before +:+ s) substr).
Proof.
  intros H. induction before as [|x before IH]; [done|].
  rewrite app_cons. cbn [strings.index].
  destruct (strings.HasPrefix (String x (before +:+ s)) substr); [by eexists|].
  by apply fmap_is_Some.
Qed.

Lemma Contains_app (before s rest substr : string) :
  strings.Contains s substr = true ->
  strings.Contains (before +:+ s +:+ rest) substr = true.
Proof.
  rewrite !Contains_is_Some. intros H. by apply index_app_r, index_app_l.
Qed.

(** ** The records of the lockfile parsers *)

Lemma dedupInv_empty (includeDev : bool) : dedupInv includeDev ∅ [].
Proof.
  split; [constructor|]. split; [|constructor].
  intros key. split; [by intros ?%elem_of_nil|by intros ?%elem_of_empty].
Qed.

Lemma dedupInv_append (includeDev : bool) (seen : gset string)
    (pkgs : list Package) (name version : string) (isDev : bool) :
  dedupInv includeDev seen pkgs ->
  pkgKey name version ∉ seen ->
  (includeDev = false -> isDev = false) ->
  dedupInv includeDev ({[pkgKey name version]} ∪ seen)
    (pkgs ++ [{| Name := name; Version := version; IsDev := isDev;
                 Source := "transitive" |}]).
Proof.
  unfold dedupInv, recordKeys. intros (Hnd & Hseen & Hall) Hfresh Hdev.
  split; [|split].
  - rewrite map_app. cbn [map Name Version]. apply NoDup_app.
    split; [done|]. split; [|apply NoDup_singleton].
    intros key Hk ->%list_elem_of_singleton. by apply Hfresh, Hseen.
  - intros key. rewrite map_app. cbn [map Name Version].
    rewrite elem_of_app, list_elem_of_singleton, elem_of_union,
      elem_of_singleton, Hseen. tauto.
  - apply Forall_append_one; [done|]. by split.
Qed.

Lemma record_inv (includeDev : bool) (a : acc) (name version : string)
    (isDev : bool) :
  dedupInv includeDev a.1 a.2 ->
  isSeen (pkgKey name version) a = false ->
  isDev && negb includeDev = false ->
  dedupInv includeDev (record name version isDev a).1
                      (record name version isDev a).2.
Proof.
  intros H Hfresh Hdev. apply dedupInv_append; [done| |].
  - unfold isSeen in Hfresh. by apply bool_decide_eq_false in Hfresh.
  - intros ->. by destruct isDev.
Qed.

Lemma lockPackagesStep_inv (includeDev : bool) (a : acc)
    (kv : string * PackageLockEntry.t) :
  dedupInv includeDev a.1 a.2 ->
  dedupInv includeDev (lockPackagesStep includeDev a kv).1
                      (lockPackagesStep includeDev a kv).2.
Proof.
  intros H. destruct kv as [pkgPath entry]. unfold lockPackagesStep.
  destruct (_ || _); [done|].
  destruct (PackageLockEntry.Dev entry && negb includeDev) eqn:Ed; [done|].
  destruct (String.eqb _ ""); [done|].
  destruct (isSeen _ a) eqn:Es; [done|]. by apply record_inv.
Qed.

Lemma pnpmStep_inv (includeDev : bool) (a : acc)
    (kv : string * PnpmLockEntry.t) :
  dedupInv includeDev a.1 a.2 ->
  dedupInv includeDev (pnpmStep includeDev a kv).1 (pnpmStep includeDev a kv).2.
Proof.
  intros H. destruct kv as [key entry]. unfold pnpmStep.
  destruct (String.eqb key ""); [done|].
  destruct (PnpmLockEntry.Dev entry && negb includeDev) eqn:Ed; [done|].
  destruct (parsePnpmPackageKey key) as [name version].
  destruct (_ || _); [done|].
  destruct (isSeen _ a) eqn:Es; [done|]. by apply record_inv.
Qed.

Lemma parseLegacyEntry_inv (includeDev : bool) (entry : LegacyLockEntry) :
  forall (name : string) (a : acc),
    dedupInv includeDev a.1 a.2 ->
    dedupInv includeDev (parseLegacyEntry includeDev name entry a).1
                        (parseLegacyEntry includeDev name entry a).2.
Proof.
  induction entry as [version dev optional requires deps IH]
    using LegacyLockEntry_tree_ind.
  intros name a H. cbn [parseLegacyEntry].
  destruct (dev && negb includeDev) eqn:Ed; [done|].
  destruct (isSeen _ a) eqn:Es; [done|].
  pose proof (record_inv includeDev a name version dev H Es Ed) as H1.
  revert H1. generalize (record name version dev a). clear H Es.
  induction IH as [|[name' entry'] deps' Hentry _ IHdeps]; intros a1 H1; [done|].
  apply IHdeps. by apply Hentry.
Qed.

Lemma parseLegacyDeps_inv (includeDev : bool)
    (deps : list (string * LegacyLockEntry)) (a : acc) :
  dedupInv includeDev a.1 a.2 ->
  dedupInv includeDev (parseLegacyDeps deps includeDev a).1
                      (parseLegacyDeps deps includeDev a).2.
Proof.
  unfold parseLegacyDeps. revert a.
  induction deps as [|[name entry] deps IH]; intros a H; [done|].
  cbn [foldl]. by apply IH, parseLegacyEntry_inv.
Qed.

Lemma dedupInv_records (includeDev : bool) (seen : gset string)
    (pkgs : list Package) :
  dedupInv includeDev seen pkgs ->
  NoDup (recordKeys pkgs)
  /\ Forall (fun p => Source p = "transitive") pkgs
  /\ (includeDev = false -> Forall (fun p => IsDev p = false) pkgs).
Proof.
  intros (Hnd & _ & Hall). split; [done|]. split.
  - eapply Forall_impl; [exact Hall|]. by intros p [? _].
  - intros Hd. eapply Forall_impl; [exact Hall|]. intros p [_ ?]. auto.
Qed.

(** Every step keeps the seen-set, and adds the key of an entry that it
    does not skip. *)
Lemma lockPackagesStep_seen (includeDev : bool) (a : acc)
    (kv : string * PackageLockEntry.t) (key : string) :
  key ∈ a.1 -> key ∈ (lockPackagesStep includeDev a kv).1.
Proof.
  intros H. destruct kv as [pkgPath entry]. unfold lockPackagesStep.
  destruct (_ || _); [done|]. destruct (_ && _); [done|].
  destruct (String.eqb _ ""); [done|]. destruct (isSeen _ a); [done|].
  by apply elem_of_union_r.
Qed.

Lemma lockPackagesStep_adds (includeDev : bool) (a : acc) (pkgPath : string)
    (entry : PackageLockEntry.t) :
  pkgPath <> EmptyString -> pkgPath <> "." ->
  (PackageLockEntry.Dev entry = true -> includeDev = true) ->
  extractPackageName pkgPath <> EmptyString ->
  pkgKey (extractPackageName pkgPath) (PackageLockEntry.Version entry)
    ∈ (lockPackagesStep includeDev a (pkgPath, entry)).1.
Proof.
  intros H1 H2 Hd Hn. unfold lockPackagesStep.
  rewrite (eqb_empty _ H1).
  destruct (String.eqb pkgPath ".") eqn:E; [by apply String.eqb_eq in E|].
  cbn [orb].
  destruct (PackageLockEntry.Dev entry && negb includeDev) eqn:Ed.
  { apply andb_true_iff in Ed as [Ed1 Ed2]. rewrite (Hd Ed1) in Ed2. done. }
  rewrite (eqb_empty _ Hn). unfold isSeen. case_bool_decide as Hs; [done|].
  apply elem_of_union_l. by apply elem_of_singleton.
Qed.

Lemma pnpmStep_seen (includeDev : bool) (a : acc)
    (kv : string * PnpmLockEntry.t) (key : string) :
  key ∈ a.1 -> key ∈ (pnpmStep includeDev a kv).1.
Proof.
  intros H. destruct kv as [k entry]. unfold pnpmStep.
  destruct (String.eqb k ""); [done|]. destruct (_ && _); [done|].
  destruct (parsePnpmPackageKey k) as [name version].
  destruct (_ || _); [done|]. destruct (isSeen _ a); [done|].
  by apply elem_of_union_r.
Qed.

Lemma pnpmStep_adds (includeDev : bool) (a : acc) (key name version : string)
    (entry : PnpmLockEntry.t) :
  key <> EmptyString ->
  (PnpmLockEntry.Dev entry = true -> includeDev = true) ->
  parsePnpmPackageKey key = (name, version) ->
  name <> EmptyString -> version <> EmptyString ->
  pkgKey name version ∈ (pnpmStep includeDev a (key, entry)).1.
Proof.
  intros Hk Hd Hp Hn Hv. unfold pnpmStep. rewrite (eqb_empty _ Hk).
  destruct (PnpmLockEntry.Dev entry && negb includeDev) eqn:Ed.
  { apply andb_true_iff in Ed as [Ed1 Ed2]. rewrite (Hd Ed1) in Ed2. done. }
  rewrite Hp, (eqb_empty _ Hn), (eqb_empty _ Hv). cbn [orb].
  unfold isSeen. case_bool_decide as Hs; [done|].
  apply elem_of_union_l. by apply elem_of_singleton.
Qed.

Lemma foldl_adds {B} (step : acc -> B -> acc) (l : list B) (x : B)
    (key : string) :
  (forall a b k, k ∈ a.1 -> k ∈ (step a b).1) ->
  (forall a, key ∈ (step a x).1) ->
  x ∈ l -> forall a, key ∈ (foldl step a l).1.
Proof.
  intros Hmono Hadd. induction l as [|y l IH]; [by intros ?%elem_of_nil|].
  intros [->|Hin]%elem_of_cons a; cbn [foldl].
  - apply (foldl_keeps (fun a : acc => key ∈ a.1)); [|apply Hadd].
    intros a' b. apply Hmono.
  - by apply IH.
Qed.

Lemma ParsePackageLock_dedup
    (json_Unmarshal : string -> result PackageLockJSON.t)
    (content : string) (includeDev : bool) (pkgs : list Package) :
  ParsePackageLock json_Unmarshal content includeDev = Ok pkgs ->
  exists seen, dedupInv includeDev seen pkgs.
Proof.
  unfold ParsePackageLock. destruct (json_Unmarshal content) as [lock|]; [|done].
  intros [= <-]. cbn zeta. set (a := parseLegacyDeps _ _ _).
  exists a.1. subst a. apply parseLegacyDeps_inv.
  apply (foldl_keeps (fun a : acc => dedupInv includeDev a.1 a.2)).
  - intros a kv. apply lockPackagesStep_inv.
  - apply dedupInv_empty.
Qed.

Lemma ParsePackageLock_covers
    (json_Unmarshal : string -> result PackageLockJSON.t)
    (content : string) (includeDev : bool) (lock : PackageLockJSON.t)
    (pkgs : list Package) (pkgPath : string) (entry : PackageLockEntry.t) :
  json_Unmarshal content = Ok lock ->
  ParsePackageLock json_Unmarshal content includeDev = Ok pkgs ->
  (pkgPath, entry) ∈ PackageLockJSON.Packages lock ->
  pkgPath <> EmptyString -> pkgPath <> "." ->
  (PackageLockEntry.Dev entry = true -> includeDev = true) ->
  extractPackageName pkgPath <> EmptyString ->
  pkgKey (extractPackageName pkgPath) (PackageLockEntry.Version entry)
    ∈ recordKeys pkgs.
Proof.
  intros Hlock Hparse Hin H1 H2 Hd Hn. unfold ParsePackageLock in Hparse.
  rewrite Hlock in Hparse. injection Hparse as <-.
  set (a := foldl (lockPackagesStep includeDev) (∅, [])
                  (PackageLockJSON.Packages lock)).
  assert (dedupInv includeDev a.1 a.2) as (_ & Hseen & _).
  { apply (foldl_keeps (fun a : acc => dedupInv includeDev a.1 a.2)).
    - intros a' kv. apply lockPackagesStep_inv.
    - apply dedupInv_empty. }
  destruct (parseLegacyDeps_appends includeDev
              (PackageLockJSON.Dependencies lock) a) as [l ->].
  unfold recordKeys. rewrite map_app. apply elem_of_app. left.
  apply Hseen. subst a.
  apply (foldl_adds _ _ (pkgPath, entry)); [|intros a|done].
  - intros a b k. apply lockPackagesStep_seen.
  - by apply lockPackagesStep_adds.
Qed.

(** A key [n@v] whose [n] holds no [@] after a leading scope marker and
    whose [v] holds none is the key of no other name that is not
    empty. *)
Lemma pkgKey_split_scoped (n v n' v' : string) :
  strings.Contains (strings.TrimPrefix n "@") "@" = false ->
  strings.Contains v "@" = false ->
  n' <> EmptyString ->
  pkgKey n' v' = pkgKey n v ->
  n' = n /\ v' = v.
Proof.
  unfold pkgKey. intros Hn Hv Hn' H. destruct n as [|c n].
  - by apply pkgKey_split.
  - destruct (Ascii.eqb c "@") eqn:Ec.
    + apply Ascii.eqb_eq in Ec as ->.
      destruct n' as [|d n']; [done|].
      rewrite !app_cons in H. injection H as -> H.
      change (strings.TrimPrefix (String "@" n) "@") with n in Hn.
      destruct (pkgKey_split _ _ _ _ Hn Hv H) as [H1 H2]. by subst.
    + assert (strings.TrimPrefix (String c n) "@" = String c n) as Heq.
      { unfold strings.TrimPrefix. cbn [strings.HasPrefix]. by rewrite Ec. }
      rewrite Heq in Hn. by apply pkgKey_split.
Qed.

Lemma ParsePackageLock_has
    (json_Unmarshal : string -> result PackageLockJSON.t)
    (content : string) (includeDev : bool) (lock : PackageLockJSON.t)
    (pkgs : list Package) (pkgPath : string) (entry : PackageLockEntry.t) :
  json_Unmarshal content = Ok lock ->
  ParsePackageLock json_Unmarshal content includeDev = Ok pkgs ->
  (pkgPath, entry) ∈ PackageLockJSON.Packages lock ->
  pkgPath <> EmptyString -> pkgPath <> "." ->
  (PackageLockEntry.Dev entry = true -> includeDev = true) ->
  extractPackageName pkgPath <> EmptyString ->
  strings.Contains (strings.TrimPrefix (extractPackageName pkgPath) "@") "@"
  = false ->
  strings.Contains (PackageLockEntry.Version entry) "@" = false ->
  exists p,
    p ∈ pkgs /\ Name p = extractPackageName pkgPath
    /\ Version p = PackageLockEntry.Version entry.
Proof.
  intros Hlock Hparse Hin H1 H2 Hd Hn Hna Hva. unfold ParsePackageLock in Hparse.
  rewrite Hlock in Hparse. injection Hparse as <-.
  set (a := foldl (lockPackagesStep includeDev) (∅, [])
                  (PackageLockJSON.Packages lock)).
  assert (dedupInv includeDev a.1 a.2) as (_ & Hseen & _).
  { apply (foldl_keeps (fun a : acc => dedupInv includeDev a.1 a.2)).
    - intros a' kv. apply lockPackagesStep_inv.
    - apply dedupInv_empty. }
  assert (Forall (fun p => Name p <> EmptyString) a.2) as Hnamed.
  { apply (foldl_keeps
             (fun a : acc => Forall (fun p => Name p <> EmptyString) a.2)).
    - intros a' kv. apply lockPackagesStep_named.
    - constructor. }
  assert (pkgKey (extractPackageName pkgPath) (PackageLockEntry.Version entry)
            ∈ recordKeys a.2) as Hkey.
  { apply Hseen. subst a.
    apply (foldl_adds _ _ (pkgPath, entry)); [|intros a|done].
    - intros a b k. apply lockPackagesStep_seen.
    - by apply lockPackagesStep_adds. }
  unfold recordKeys in Hkey.
  apply list_elem_of_In, in_map_iff in Hkey as (p & Hp & Hin').
  apply list_elem_of_In in Hin'.
  rewrite Forall_forall in Hnamed.
  destruct (pkgKey_split_scoped _ _ _ _ Hna Hva (Hnamed p Hin') Hp) as [? ?].
  exists p. split; [|done].
  destruct (parseLegacyDeps_appends includeDev
              (PackageLockJSON.Dependencies lock) a) as [l ->].
  apply elem_of_app. by left.
Qed.

(** X17: no two records that [ParsePackageLock] returns have the same
    [name@version]; all are transitive; none is development-only when
    those are excluded; every entry of the packages map that is neither
    the root, nor excluded as development-only, nor without a name has
    its key [name@version] among the keys of the records; and it has a
    record with its name and its version when its name holds no [@]
    after a leading scope marker and its version none (two entries of
    which one has an [@] elsewhere can share a key, and then only the
    first gets a record). *)
Theorem ParsePackageLock_records
    (json_Unmarshal : string -> result PackageLockJSON.t)
    (content : string) (includeDev : bool) (pkgs : list Package) :
  ParsePackageLock json_Unmarshal content includeDev = Ok pkgs ->
  NoDup (recordKeys pkgs)
  /\ Forall (fun p => Source p = "transitive") pkgs
  /\ (includeDev = false -> Forall (fun p => IsDev p = false) pkgs)
  /\ (forall lock pkgPath entry,
        json_Unmarshal content = Ok lock ->
        (pkgPath, entry) ∈ PackageLockJSON.Packages lock ->
        pkgPath <> EmptyString -> pkgPath <> "." ->
        (PackageLockEntry.Dev entry = true -> includeDev = true) ->
        extractPackageName pkgPath <> EmptyString ->
        pkgKey (extractPackageName pkgPath) (PackageLockEntry.Version entry)
          ∈ recordKeys pkgs)
  /\ (forall lock pkgPath entry,
        json_Unmarshal content = Ok lock ->
        (pkgPath, entry) ∈ PackageLockJSON.Packages lock ->
        pkgPath <> EmptyString -> pkgPath <> "." ->
        (PackageLockEntry.Dev entry = true -> includeDev = true) ->
        extractPackageName pkgPath <> EmptyString ->
        strings.Contains
          (strings.TrimPrefix (extractPackageName pkgPath) "@") "@" = false ->
        strings.Contains (PackageLockEntry.Version entry) "@" = false ->
        exists p,
          p ∈ pkgs /\ Name p = extractPackageName pkgPath
          /\ Version p = PackageLockEntry.Version entry).
Proof.
  intros Hparse. destruct (ParsePackageLock_dedup _ _ _ _ Hparse) as [seen H].
  destruct (dedupInv_records _ seen _ H) as (H1 & H2 & H3).
  split; [done|]. split; [done|]. split; [done|]. split.
  - intros lock pkgPath entry Hlock.
    by apply (ParsePackageLock_covers json_Unmarshal content).
  - intros lock pkgPath entry Hlock.
    by apply (ParsePackageLock_has json_Unmarshal content).
Qed.

Lemma ParsePackageLock_records_witness :
  let lock :=
    PackageLockJSON.mk "app" "1.0.0" 2
      [("", PackageLockEntry.mk "1.0.0" "" false false []);
       ("node_modules/foo", PackageLockEntry.mk "1.2.3" "" false false []);
       ("node_modules/bar", PackageLockEntry.mk "2.0.0" "" true false []);
       ("node_modules/bar/node_modules/foo",
        PackageLockEntry.mk "1.2.3" "" false false []);
       ("node_modules/@scope/pkg",
        PackageLockEntry.mk "4.5.6" "" false false [])]
      [("foo", mkLegacyLockEntry "1.2.3" false false [] []);
       ("qux", mkLegacyLockEntry "3.0.0" false false []
                 [("baz", mkLegacyLockEntry "0.1.0" false false [] [])])] in
  let pkgs := [mkPackage "foo" "1.2.3" false "transitive";
               mkPackage "@scope/pkg" "4.5.6" false "transitive";
               mkPackage "qux" "3.0.0" false "transitive";
               mkPackage "baz" "0.1.0" false "transitive"] in
  ParsePackageLock (fun _ => Ok lock) "" false = Ok pkgs
  /\ NoDup (recordKeys pkgs)
  /\ exists p, p ∈ pkgs /\ Name p = "@scope/pkg" /\ Version p = "4.5.6".
Proof.
  intros lock pkgs.
  assert (ParsePackageLock (fun _ => Ok lock) "" false = Ok pkgs) as E
    by (vm_compute; reflexivity).
  split; [exact E|].
  pose proof (ParsePackageLock_records (fun _ => Ok lock) "" false _ E)
    as (Hnd & _ & _ & _ & Hhas).
  split; [exact Hnd|].
  apply (Hhas lock "node_modules/@scope/pkg"
              (PackageLockEntry.mk "4.5.6" "" false false [])).
  - reflexivity.
  - do 4 right. left.
  - discriminate.
  - discriminate.
  - discriminate.
  - discriminate.
  - reflexivity.
  - reflexivity.
Defined.

(** X18: no two records that [ParsePnpmLock] returns have the same
    [name@version]; all are transitive; none is development-only when
    those are excluded; and every key that is not excluded as
    development-only and parses to a name and a version has a record
    with them. *)
Theorem ParsePnpmLock_records
    (yaml_Unmarshal : string -> result PnpmLockYAML.t)
    (content : string) (includeDev : bool) (pkgs : list Package) :
  ParsePnpmLock yaml_Unmarshal content includeDev = Ok pkgs ->
  NoDup (recordKeys pkgs)
  /\ Forall (fun p => Source p = "transitive") pkgs
  /\ (includeDev = false -> Forall (fun p => IsDev p = false) pkgs)
  /\ (forall lockFile key entry name version,
        yaml_Unmarshal content = Ok lockFile ->
        (key, entry) ∈ PnpmLockYAML.Packages lockFile ->
        key <> EmptyString ->
        (PnpmLockEntry.Dev entry = true -> includeDev = true) ->
        parsePnpmPackageKey key = (name, version) ->
        name <> EmptyString -> version <> EmptyString ->
        pkgKey name version ∈ recordKeys pkgs).
Proof.
  unfold ParsePnpmLock.
  destruct (yaml_Unmarshal content) as [lockFile|] eqn:E; [|done].
  intros [= <-]. set (a := foldl _ _ _).
  assert (dedupInv includeDev a.1 a.2) as H.
  { apply (foldl_keeps (fun a : acc => dedupInv includeDev a.1 a.2)).
    - intros a' kv. apply pnpmStep_inv.
    - apply dedupInv_empty. }
  destruct (dedupInv_records _ _ _ H) as (H1 & H2 & H3).
  split; [done|]. split; [done|]. split; [done|].
  intros lockFile' key entry name version [= <-] Hin Hk Hd Hp Hn Hv.
  destruct H as (_ & Hseen & _). apply Hseen. subst a.
  apply (foldl_adds _ _ (key, entry)); [|intros a|done].
  - intros a b k. apply pnpmStep_seen.
  - by apply pnpmStep_adds.
Qed.

Lemma ParsePnpmLock_records_witness :
  let lockFile :=
    PnpmLockYAML.mk "6.0"
      [("/foo@1.2.3", PnpmLockEntry.mk "" [] false false []);
       ("/foo@1.2.3(react@18.2.0)", PnpmLockEntry.mk "" [] false false []);
       ("/bar@2.0.0", PnpmLockEntry.mk "" [] true false [])] in
  ParsePnpmLock (fun _ => Ok lockFile) "" false
  = Ok [mkPackage "foo" "1.2.3" false "transitive"]
  /\ NoDup (recordKeys [mkPackage "foo" "1.2.3" false "transitive"]).
Proof.
  intros lockFile.
  assert (ParsePnpmLock (fun _ => Ok lockFile) "" false
          = Ok [mkPackage "foo" "1.2.3" false "transitive"]) as E
    by (vm_compute; reflexivity).
  split; [exact E|].
  exact (proj1 (ParsePnpmLock_records (fun _ => Ok lockFile) "" false _ E)).
Defined.

(** *** yarn.lock *)

Lemma saveName_dedup (p : yarnLockParser) (name : string) :
  dedupInv false (seen p) (packages p) ->
  dedupInv false (seen (saveName p name)) (packages (saveName p name))
  /\ currentVer (saveName p name) = currentVer p.
Proof.
  intros H. unfold saveName. case_bool_decide as Hs; [done|].
  cbn [seen packages currentVer]. split; [|done]. by apply dedupInv_append.
Qed.

Lemma saveCurrentEntry_dedup (p : yarnLockParser) :
  dedupInv false (seen p) (packages p) ->
  dedupInv false (seen (saveCurrentEntry p)) (packages (saveCurrentEntry p)).
Proof.
  intros H. unfold saveCurrentEntry. destruct (_ || _); [done|].
  apply (foldl_keeps (fun p => dedupInv false (seen p) (packages p))); [|done].
  intros q name Hq. by apply saveName_dedup.
Qed.

Lemma yarnStep_dedup (p : yarnLockParser) (line : string) :
  dedupInv false (seen p) (packages p) ->
  dedupInv false (seen (yarnStep p line)) (packages (yarnStep p line)).
Proof.
  intros H. unfold yarnStep. destruct (skippedLine _); [done|].
  destruct (isYarnDeclarationLine _ _).
  - cbn [seen packages]. by apply saveCurrentEntry_dedup.
  - by destruct (_ && _).
Qed.

(** X19: no two records that [ParseYarnLock] returns have the same
    [name@version], all are transitive, and records are returned only
    for a content without the marks of the newer format. *)
Theorem ParseYarnLock_records (content : string) (includeDev : bool)
    (pkgs : list Package) :
  ParseYarnLock content includeDev = Ok pkgs ->
  NoDup (recordKeys pkgs)
  /\ Forall (fun p => Source p = "transitive") pkgs
  /\ isYarnBerryFormat content = false.
Proof.
  unfold ParseYarnLock. destruct (isYarnBerryFormat content); [done|].
  intros [= <-].
  destruct (dedupInv_records false
              (seen (saveCurrentEntry
                       (foldl yarnStep newYarnLockParser
                              (strings.Split content nl))))
              (packages (saveCurrentEntry
                           (foldl yarnStep newYarnLockParser
                                  (strings.Split content nl)))))
    as (H1 & H2 & _); [|done].
  apply saveCurrentEntry_dedup.
  apply (foldl_keeps (fun p => dedupInv false (seen p) (packages p))).
  - intros p line. apply yarnStep_dedup.
  - apply dedupInv_empty.
Qed.

Lemma ParseYarnLock_records_witness :
  let content :=
    strings.Join
      ["# yarn lockfile v1"; "";
       "foo@^1.0.0, foo@~1.2.0:"; "  version " +:+ quoted "1.2.3"; "";
       "foo@1.2.3:"; "  version " +:+ quoted "1.2.3"; ""] nl in
  ParseYarnLock content false = Ok [mkPackage "foo" "1.2.3" false "transitive"]
  /\ NoDup (recordKeys [mkPackage "foo" "1.2.3" false "transitive"]).
Proof.
  intros content.
  assert (ParseYarnLock content false
          = Ok [mkPackage "foo" "1.2.3" false "transitive"]) as E
    by (vm_compute; reflexivity).
  split; [exact E|].
  exact (proj1 (ParseYarnLock_records content false _ E)).
Defined.

(** *** Declaration lines of yarn.lock *)

Lemma declarationStep_names (ranges : list string)
    (a : list string * gset string) :
  NoDup a.1 -> (forall name, name ∈ a.1 <-> name ∈ a.2) ->
  let a' := foldl declarationStep a ranges in
  NoDup a'.1
  /\ (forall name, name ∈ a'.1 <-> name ∈ a'.2)
  /\ (forall name,
        name ∈ a'.1
        <-> name ∈ a.1
            \/ (name <> EmptyString
                /\ exists nr,
                     nr ∈ ranges
                     /\ name = extractYarnPackageName
                                 (trimSurroundingQuotes (strings.TrimSpace nr)))).
Proof.
  revert a. induction ranges as [|nr ranges IH]; intros a Hnd Hseen; cbn zeta.
  - cbn [foldl]. split; [done|]. split; [done|]. intros name. split; [by left|].
    intros [?|(_ & nr & ?%elem_of_nil & _)]; done.
  - cbn [foldl].
    set (name0 := extractYarnPackageName
                    (trimSurroundingQuotes (strings.TrimSpace nr))).
    assert (declarationStep a nr
            = if negb (String.eqb name0 "") && negb (bool_decide (name0 ∈ a.2))
              then (a.1 ++ [name0], {[name0]} ∪ a.2) else a) as -> by done.
    destruct (String.eqb name0 "") eqn:E0; cbn [negb andb].
    { destruct (IH a Hnd Hseen) as (H1 & H2 & H3). cbn zeta in *.
      split; [done|]. split; [done|]. intros name. rewrite H3.
      apply String.eqb_eq in E0. split.
      - intros [?|(Hne & nr' & Hin & Hn)]; [by left|]. right. split; [done|].
        exists nr'. split; [by right|done].
      - intros [?|(Hne & nr' & [->|Hin]%elem_of_cons & Hn)]; [by left| |].
        + fold name0 in Hn. congruence.
        + right. split; [done|]. by exists nr'. }
    case_bool_decide as Hin0; cbn [negb].
    { destruct (IH a Hnd Hseen) as (H1 & H2 & H3). cbn zeta in *.
      split; [done|]. split; [done|]. intros name. rewrite H3. split.
      - intros [?|(Hne & nr' & Hin & Hn)]; [by left|]. right. split; [done|].
        exists nr'. split; [by right|done].
      - intros [?|(Hne & nr' & [->|Hin]%elem_of_cons & Hn)]; [by left| |].
        + fold name0 in Hn. subst name. left. by apply Hseen.
        + right. split; [done|]. by exists nr'. }
    destruct (IH (a.1 ++ [name0], {[name0]} ∪ a.2)) as (H1 & H2 & H3).
    + cbn [fst]. apply NoDup_app. split; [done|]. split; [|apply NoDup_singleton].
      intros x Hx ->%list_elem_of_singleton. by apply Hin0, Hseen.
    + intros name. cbn [fst snd].
      rewrite elem_of_app, list_elem_of_singleton, elem_of_union,
        elem_of_singleton, Hseen. tauto.
    + cbn zeta in *. split; [done|]. split; [done|]. intros name. rewrite H3.
      cbn [fst]. rewrite elem_of_app, list_elem_of_singleton.
      apply eqb_empty_false in E0. split.
      * intros [[?| ->]|(Hne & nr' & Hin & Hn)].
        -- by left.
        -- right. split; [done|]. exists nr. split; [by left|done].
        -- right. split; [done|]. exists nr'. split; [by right|done].
      * intros [?|(Hne & nr' & [->|Hin]%elem_of_cons & Hn)].
        -- left. by left.
        -- left. by right.
        -- right. split; [done|]. by exists nr'.
Qed.

(** X20: the names that [parseYarnDeclarationLine] returns are
    distinct; they are the non-empty names that
    [extractYarnPackageName] yields for the comma-separated parts of
    the line, trimmed and without their quotes. *)
Theorem parseYarnDeclarationLine_names (trimmed : string) :
  NoDup (parseYarnDeclarationLine trimmed)
  /\ forall name,
       name ∈ parseYarnDeclarationLine trimmed
       <-> name <> EmptyString
           /\ exists nr,
                nr ∈ strings.Split (strings.TrimSuffix trimmed ":") ","
                /\ name = extractYarnPackageName
                            (trimSurroundingQuotes (strings.TrimSpace nr)).
Proof.
  unfold parseYarnDeclarationLine. cbn zeta.
  destruct (declarationStep_names
              (strings.Split (strings.TrimSuffix trimmed ":") ",") ([], ∅))
    as (H1 & _ & H3).
  - constructor.
  - intros name. cbn [fst snd]. split; [by intros ?%elem_of_nil|].
    by intros ?%elem_of_empty.
  - cbn zeta in *. split; [done|]. intros name. rewrite H3. cbn [fst]. split.
    + by intros [?%elem_of_nil|?].
    + by right.
Qed.

Lemma SplitN_byte (a b : string) (c : ascii) :
  strings.index a (String c EmptyString) = None ->
  strings.SplitN (a +:+ String c b) (String c EmptyString) 2 = [a; b].
Proof.
  intros H. unfold strings.SplitN. rewrite app_length. cbn [String.length].
  replace (String.length a + S (String.length b))%nat
    with (S (String.length a + String.length b)) by lia.
  cbn [strings.genSplit].
  rewrite (index_byte_app a b c H), str_take_app, str_drop_app_S.
  by destruct (String.length a + String.length b)%nat.
Qed.

Lemma HasPrefix_first_other (s : string) (c : ascii) :
  s <> EmptyString ->
  strings.index s (String c EmptyString) = None ->
  forall rest, strings.HasPrefix (s +:+ rest) (String c EmptyString) = false.
Proof.
  intros Hne Hs rest.
  destruct (first_byte_other s c Hne Hs) as (x & s' & -> & Hx).
  rewrite app_cons. cbn [strings.HasPrefix]. by rewrite Hx.
Qed.

Lemma extractYarnPackageName_plain (name range : string) :
  name <> EmptyString ->
  strings.Contains name "@" = false ->
  strings.Contains (name +:+ "@" +:+ range) "@npm:" = false ->
  extractYarnPackageName (name +:+ "@" +:+ range) = name.
Proof.
  intros Hne Hat%Contains_index Hnpm. unfold extractYarnPackageName.
  rewrite Hnpm, (HasPrefix_first_other name "@" Hne Hat).
  change ("@" +:+ range) with (String "@" range).
  by rewrite SplitN_byte.
Qed.

Lemma extractYarnPackageName_scoped (scoped range : string) :
  scoped <> EmptyString ->
  strings.Contains scoped "@" = false ->
  strings.Contains ("@" +:+ scoped +:+ "@" +:+ range) "@npm:" = false ->
  extractYarnPackageName ("@" +:+ scoped +:+ "@" +:+ range) = "@" +:+ scoped.
Proof.
  intros Hne Hat Hnpm. unfold extractYarnPackageName. rewrite Hnpm.
  change ("@" +:+ scoped +:+ "@" +:+ range)
    with (String "@" (scoped +:+ String "@" range)).
  cbn [strings.HasPrefix Ascii.eqb Bool.eqb andb].
  change (slice_from (String "@" (scoped +:+ String "@" range)) 1)
    with (scoped +:+ String "@" range).
  rewrite (Index_byte_app scoped range "@" Hat), len_pos_iff.
  destruct (String.eqb scoped "") eqn:E; [by apply String.eqb_eq in E|].
  cbn [negb]. unfold slice_to, len.
  replace (Z.to_nat (Z.of_nat (String.length scoped) + 1))
    with (S (String.length scoped)) by lia.
  cbn [str_take]. by rewrite str_take_app.
Qed.

Lemma extractYarnPackageName_alias (name target : string) :
  name <> EmptyString ->
  strings.Contains name "@" = false ->
  extractYarnPackageName (name +:+ "@npm:" +:+ target) = name.
Proof.
  intros Hne Hat%Contains_index. unfold extractYarnPackageName.
  change ("@npm:" +:+ target) with (String "@" "npm:" +:+ target).
  pose proof (index_app_first name target "@" "npm:" Hat) as Hi.
  assert (strings.Contains (name +:+ String "@" "npm:" +:+ target) "@npm:"
          = true) as ->.
  { unfold strings.Contains, strings.Index. rewrite Hi. apply Z.leb_le. lia. }
  assert (nth 0 (strings.SplitN (name +:+ String "@" "npm:" +:+ target)
                                "@npm:" 2) EmptyString = name) as ->.
  { unfold strings.SplitN. rewrite app_length.
    change (String.length (String "@" "npm:" +:+ target))
      with (S (String.length ("npm:" +:+ target))).
    replace (String.length name + S (String.length ("npm:" +:+ target)))%nat
      with (S (String.length name + String.length ("npm:" +:+ target))) by lia.
    cbn [strings.genSplit]. rewrite Hi. cbn [nth]. apply str_take_app. }
  assert (strings.HasPrefix name "@" = false) as ->.
  { pose proof (HasPrefix_first_other name "@" Hne Hat EmptyString) as H.
    by rewrite app_empty_r in H. }
  unfold strings.SplitN. by rewrite genSplit_None.
Qed.

(** X21: [extractYarnPackageName] returns the name of a plain
    declaration [name@range], the scope and name of a scoped one, and
    the alias of an aliased one [alias@npm:target]. *)
Theorem extractYarnPackageName_forms :
  (forall name range,
     name <> EmptyString ->
     strings.Contains name "@" = false ->
     strings.Contains (name +:+ "@" +:+ range) "@npm:" = false ->
     extractYarnPackageName (name +:+ "@" +:+ range) = name)
  /\ (forall scoped range,
        scoped <> EmptyString ->
        strings.Contains scoped "@" = false ->
        strings.Contains ("@" +:+ scoped +:+ "@" +:+ range) "@npm:" = false ->
        extractYarnPackageName ("@" +:+ scoped +:+ "@" +:+ range)
        = "@" +:+ scoped)
  /\ (forall name target,
        name <> EmptyString ->
        strings.Contains name "@" = false ->
        extractYarnPackageName (name +:+ "@npm:" +:+ target) = name).
Proof.
  split; [apply extractYarnPackageName_plain|].
  split; [apply extractYarnPackageName_scoped|apply extractYarnPackageName_alias].
Qed.

(** *** Quotes and the version line *)

Lemma HasSuffix_app (a b : string) : strings.HasSuffix (a +:+ b) b = true.
Proof.
  unfold strings.HasSuffix. rewrite app_length.
  replace (String.length a + String.length b - String.length b)%nat
    with (String.length a) by lia.
  rewrite str_drop_app, String.eqb_refl, andb_true_r. apply Nat.leb_le. lia.
Qed.

Lemma TrimSuffix_app (a b : string) : strings.TrimSuffix (a +:+ b) b = a.
Proof.
  unfold strings.TrimSuffix. rewrite HasSuffix_app, app_length.
  replace (String.length a + String.length b - String.length b)%nat
    with (String.length a) by lia.
  apply str_take_app.
Qed.

Lemma trimSurroundingQuotes_quoted (s : string) :
  trimSurroundingQuotes (quoted s) = s.
Proof.
  unfold trimSurroundingQuotes, quoted.
  assert (dq +:+ s +:+ dq = (dq +:+ s) +:+ dq) as -> by (by rewrite app_assoc').
  by rewrite HasSuffix_app, TrimSuffix_app.
Qed.

Lemma trimRightBytes_app (cutset v : string) (c : ascii) :
  Forall (fun x => strings.inCutset cutset x = false) (list_ascii_of_string v) ->
  strings.inCutset cutset c = true ->
  strings.trimRightBytes cutset (v +:+ String c EmptyString) = v.
Proof.
  intros Hv Hc. induction v as [|x v IH].
  - rewrite app_nil. cbn [strings.trimRightBytes]. by rewrite Hc.
  - cbn [list_ascii_of_string] in Hv. apply Forall_cons in Hv as [Hx Hv].
    rewrite app_cons. cbn [strings.trimRightBytes]. rewrite (IH Hv).
    destruct v; [by rewrite Hx|done].
Qed.

Lemma trimLeftBytes_other (cutset v : string) :
  Forall (fun x => strings.inCutset cutset x = false) (list_ascii_of_string v) ->
  strings.trimLeftBytes cutset v = v.
Proof.
  destruct v as [|x v]; [done|]. cbn [list_ascii_of_string].
  intros [Hx _]%Forall_cons. cbn [strings.trimLeftBytes]. by rewrite Hx.
Qed.

Lemma parseYarnVersionLine_quoted (version : string) :
  Forall (fun x => strings.inCutset (dq +:+ "'") x = false)
         (list_ascii_of_string version) ->
  parseYarnVersionLine ("version " +:+ quoted version) = version.
Proof.
  intros Hv. destruct (decide (version = EmptyString)) as [->|Hne]; [done|].
  unfold parseYarnVersionLine.
  change ("version " +:+ quoted version)
    with ("version" +:+ String " " (quoted version)).
  rewrite SplitN_byte by done. cbn [length Nat.eqb nth].
  unfold strings.Trim, quoted.
  assert (dq +:+ version +:+ dq = (dq +:+ version) +:+ String DQUOTE EmptyString)
    as -> by (by rewrite app_assoc').
  change (dq +:+ version) with (String DQUOTE version).
  assert (strings.trimRightBytes (dq +:+ "'")
            (String DQUOTE version +:+ String DQUOTE EmptyString)
          = String DQUOTE version) as ->.
  { rewrite app_cons. cbn [strings.trimRightBytes].
    rewrite (trimRightBytes_app _ version DQUOTE Hv eq_refl).
    by destruct version. }
  cbn [strings.trimLeftBytes].
  change (strings.inCutset (dq +:+ "'") DQUOTE) with true. cbv iota.
  by apply trimLeftBytes_other.
Qed.

(** X22: the quotes around a declaration are removed, whatever is
    inside; a version line with the version [v] between quotes yields
    [v] when [v] holds no quote; a line that is only the word [version]
    yields the empty version. *)
Theorem yarn_quotes :
  (forall s, trimSurroundingQuotes (quoted s) = s)
  /\ (forall version,
        Forall (fun x => strings.inCutset (dq +:+ "'") x = false)
               (list_ascii_of_string version) ->
        parseYarnVersionLine ("version " +:+ quoted version) = version)
  /\ parseYarnVersionLine "version" = EmptyString.
Proof.
  split; [apply trimSurroundingQuotes_quoted|].
  split; [apply parseYarnVersionLine_quoted|reflexivity].
Qed.

(** ** The scan of a repository *)

Lemma scanPackage_step (s : Scanner) (file : PackageFile) (pkg : Package)
    (seen : gset string) (total : nat) (vulnerable : list VulnerablePackage) :
  exists seen' total',
    scanPackage s file (seen, total, vulnerable) pkg
    = (seen', total', vulnerable ++ omap (finding s file) [pkg])
    /\ seen' = {[pkgKey (Name pkg) (Version pkg)]} ∪ seen
    /\ (total = size seen -> total' = size seen').
Proof.
  unfold scanPackage, finding. cbn [omap list_omap].
  generalize (pkgKey (Name pkg) (Version pkg)). intros key.
  case_bool_decide as Hk;
    destruct (Check (db s) (Name pkg) (Version pkg)) as [vulnEntry|];
    cbn [mbind option_bind]; rewrite ?app_nil_r;
    eexists _, _; (split; [reflexivity|]).
  1,2: split; [|done]; symmetry; apply subseteq_union_1_L;
    by apply singleton_subseteq_l.
  all: split; [done|]; intros ->;
    rewrite size_union by (by apply disjoint_singleton_l);
    rewrite size_singleton; lia.
Qed.

Lemma scanPackage_fold (s : Scanner) (file : PackageFile)
    (pkgs : list Package) (seen : gset string) (total : nat)
    (vulnerable : list VulnerablePackage) :
  exists seen' total',
    foldl (scanPackage s file) (seen, total, vulnerable) pkgs
    = (seen', total', vulnerable ++ omap (finding s file) pkgs)
    /\ seen' = list_to_set (recordKeys pkgs) ∪ seen
    /\ (total = size seen -> total' = size seen').
Proof.
  revert seen total vulnerable.
  induction pkgs as [|pkg pkgs IH]; intros seen total vulnerable.
  - exists seen, total. cbn [foldl omap list_omap]. rewrite app_nil_r.
    split; [done|]. split; [|done].
    cbn [recordKeys map list_to_set]. by rewrite (left_id_L ∅ (∪)).
  - cbn [foldl].
    destruct (scanPackage_step s file pkg seen total vulnerable)
      as (seen1 & total1 & -> & Hs1 & Ht1).
    destruct (IH seen1 total1 (vulnerable ++ omap (finding s file) [pkg]))
      as (seen2 & total2 & -> & Hs2 & Ht2).
    exists seen2, total2. split; [|split].
    + rewrite <- app_assoc. do 2 f_equal. symmetry.
      apply (omap_app _ [pkg] pkgs).
    + rewrite Hs2, Hs1. unfold recordKeys. cbn [map list_to_set].
      rewrite (assoc_L (∪)). f_equal. apply (comm_L (∪)).
    + auto.
Qed.

Section ScanResults.

Variable json_Unmarshal_PackageJSON : string -> result PackageJSON.t.
Variable json_Unmarshal_PackageLockJSON : string -> result PackageLockJSON.t.
Variable json_Unmarshal_Scripts : string -> result (gmap string string).

Lemma scanFile_fold (s : Scanner) (files : list PackageFile)
    (seen : gset string) (total : nat) (vulnerable : list VulnerablePackage) :
  exists seen' total',
    foldl (scanFile json_Unmarshal_PackageJSON
                    json_Unmarshal_PackageLockJSON s)
          (seen, total, vulnerable) files
    = (seen', total',
       vulnerable
       ++ (files ≫= fun file =>
             omap (finding s file)
                  (filePackages json_Unmarshal_PackageJSON
                                json_Unmarshal_PackageLockJSON s file)))
    /\ seen'
       = list_to_set
           (recordKeys
              (files ≫= filePackages json_Unmarshal_PackageJSON
                                     json_Unmarshal_PackageLockJSON s))
         ∪ seen
    /\ (total = size seen -> total' = size seen').
Proof.
  revert seen total vulnerable.
  induction files as [|file files IH]; intros seen total vulnerable.
  - exists seen, total. cbn [foldl mbind list_bind]. rewrite app_nil_r.
    split; [done|]. split; [|done].
    cbn [recordKeys map list_to_set]. by rewrite (left_id_L ∅ (∪)).
  - cbn [foldl mbind list_bind]. unfold scanFile at 2, filePackages at 1 3.
    destruct (parseFile _ _ s file) as [pkgs|err].
    + destruct (scanPackage_fold s file pkgs seen total vulnerable)
        as (seen1 & total1 & -> & Hs1 & Ht1).
      destruct (IH seen1 total1 (vulnerable ++ omap (finding s file) pkgs))
        as (seen2 & total2 & -> & Hs2 & Ht2).
      exists seen2, total2. split; [by rewrite <- app_assoc|]. split; [|auto].
      rewrite Hs2, Hs1. unfold recordKeys. rewrite map_app, list_to_set_app_L.
      rewrite (assoc_L (∪)). f_equal. apply (comm_L (∪)).
    + destruct (IH seen total vulnerable) as (seen2 & total2 & -> & Hs2 & Ht2).
      by exists seen2, total2.
Qed.

Lemma ScanFiles_fields (s : Scanner) (files : list PackageFile) :
  VulnerablePackages
    (ScanFiles json_Unmarshal_PackageJSON json_Unmarshal_PackageLockJSON
               json_Unmarshal_Scripts s files)
  = (files ≫= fun file =>
       omap (finding s file)
            (filePackages json_Unmarshal_PackageJSON
                          json_Unmarshal_PackageLockJSON s file))
  /\ TotalPackages
       (ScanFiles json_Unmarshal_PackageJSON json_Unmarshal_PackageLockJSON
                  json_Unmarshal_Scripts s files)
     = size (list_to_set
               (recordKeys
                  (files ≫= filePackages json_Unmarshal_PackageJSON
                                         json_Unmarshal_PackageLockJSON s))
             : gset string)
  /\ FilesScanned
       (ScanFiles json_Unmarshal_PackageJSON json_Unmarshal_PackageLockJSON
                  json_Unmarshal_Scripts s files)
     = length files.
Proof.
  destruct files as [|first rest]; [by vm_compute|]. unfold ScanFiles.
  destruct (scanFile_fold s (first :: rest) ∅ 0 []) as (seen & total & -> & Hs & Ht).
  cbn [VulnerablePackages TotalPackages FilesScanned].
  split; [done|]. split; [|done]. rewrite Ht by done. rewrite Hs.
  by rewrite (right_id_L ∅ (∪)).
Qed.

End ScanResults.

Lemma size_list_to_set_le (l : list string) :
  (size (list_to_set l : gset string) <= length l)%nat.
Proof.
  induction l as [|x l IH]; [done|]. cbn [list_to_set length].
  pose proof (size_union_alt {[x]} (list_to_set l : gset string)) as H.
  rewrite size_singleton in H.
  pose proof (subseteq_size (list_to_set l ∖ {[x]}) (list_to_set l : gset string)
                ltac:(apply subseteq_difference_l; reflexivity)).
  lia.
Qed.

Lemma length_omap_le {A B} (f : A -> option B) (l : list A) :
  (length (omap f l) <= length l)%nat.
Proof.
  induction l as [|x l IH]; [done|]. cbn [omap list_omap length].
  destruct (f x); cbn [length]; lia.
Qed.

Lemma length_bind_omap_le {A B C} (f : A -> list B) (g : A -> B -> option C)
    (l : list A) :
  (length (l ≫= fun x => omap (g x) (f x)) <= length (l ≫= f))%nat.
Proof.
  induction l as [|x l IH]; [done|]. cbn [mbind list_bind].
  rewrite !length_app. pose proof (length_omap_le (g x) (f x)). lia.
Qed.

Section ScanTheorems.

Variable json_Unmarshal_PackageJSON : string -> result PackageJSON.t.
Variable json_Unmarshal_PackageLockJSON : string -> result PackageLockJSON.t.
Variable json_Unmarshal_Scripts : string -> result (gmap string string).

Lemma ScanFiles_elem (s : Scanner) (files : list PackageFile)
    (v : VulnerablePackage) :
  v ∈ VulnerablePackages
        (ScanFiles json_Unmarshal_PackageJSON json_Unmarshal_PackageLockJSON
                   json_Unmarshal_Scripts s files)
  <-> exists file pkgs,
        file ∈ files
        /\ parseFile json_Unmarshal_PackageJSON json_Unmarshal_PackageLockJSON
                     s file = Ok pkgs
        /\ vpPackage v ∈ pkgs
        /\ Check (db s) (Name (vpPackage v)) (Version (vpPackage v))
           = Some (vpVulnEntry v)
        /\ vpFilePath v = Path file
        /\ vpRepoName v = RepoName file.
Proof.
  rewrite (proj1 (ScanFiles_fields _ _ json_Unmarshal_Scripts s files)).
  rewrite list_elem_of_bind. split.
  - intros (file & (pkg & Hpkg & Hv)%list_elem_of_omap & Hfile).
    unfold filePackages in Hpkg.
    destruct (parseFile _ _ s file) as [pkgs|] eqn:E; [|by apply elem_of_nil in Hpkg].
    exists file, pkgs. unfold finding in Hv.
    destruct (Check (db s) (Name pkg) (Version pkg)) as [e|] eqn:Ec; [|done].
    injection Hv as <-. by cbn.
  - intros (file & pkgs & Hfile & Hparse & Hpkg & Hc & Hp & Hr).
    exists file. split; [|done]. apply list_elem_of_omap.
    exists (vpPackage v). unfold filePackages. rewrite Hparse. split; [done|].
    unfold finding. rewrite Hc. cbn. destruct v. cbn in *. by subst.
Qed.


(** X24: [TotalPackages] is the number of distinct [name@version]
    keys among the packages of the files that parse; it is at most the
    number of those packages, and so is the number of findings;
    [FilesScanned] counts every file given. *)
Theorem ScanFiles_counts (s : Scanner) (files : list PackageFile) :
  let result :=
    ScanFiles json_Unmarshal_PackageJSON json_Unmarshal_PackageLockJSON
              json_Unmarshal_Scripts s files in
  let pkgs :=
    files ≫= filePackages json_Unmarshal_PackageJSON
                          json_Unmarshal_PackageLockJSON s in
  TotalPackages result = size (list_to_set (recordKeys pkgs) : gset string)
  /\ (TotalPackages result <= length pkgs)%nat
  /\ (length (VulnerablePackages result) <= length pkgs)%nat
  /\ FilesScanned result = length files.
Proof.
  intros result pkgs.
  destruct (ScanFiles_fields json_Unmarshal_PackageJSON
              json_Unmarshal_PackageLockJSON json_Unmarshal_Scripts s files)
    as (Hv & Ht & Hf).
  split; [done|]. split; [|split; [|done]].
  - unfold result. rewrite Ht.
    etransitivity; [apply size_list_to_set_le|].
    unfold recordKeys. by rewrite length_map.
  - unfold result. rewrite Hv. apply length_bind_omap_le.
Qed.

(** X25: a file that does not parse changes neither the findings nor
    the number of packages of a scan; it is counted as scanned. *)
Theorem ScanFiles_continues (s : Scanner) (before after : list PackageFile)
    (bad : PackageFile) :
  is_ok (parseFile json_Unmarshal_PackageJSON json_Unmarshal_PackageLockJSON
                   s bad) = false ->
  let result :=
    ScanFiles json_Unmarshal_PackageJSON json_Unmarshal_PackageLockJSON
              json_Unmarshal_Scripts s (before ++ bad :: after) in
  let others :=
    ScanFiles json_Unmarshal_PackageJSON json_Unmarshal_PackageLockJSON
              json_Unmarshal_Scripts s (before ++ after) in
  VulnerablePackages result = VulnerablePackages others
  /\ TotalPackages result = TotalPackages others
  /\ FilesScanned result = S (FilesScanned others).
Proof.
  intros Hbad result others.
  assert (filePackages json_Unmarshal_PackageJSON
            json_Unmarshal_PackageLockJSON s bad = []) as Hnil.
  { unfold filePackages. by destruct (parseFile _ _ s bad). }
  destruct (ScanFiles_fields json_Unmarshal_PackageJSON
              json_Unmarshal_PackageLockJSON json_Unmarshal_Scripts s
              (before ++ bad :: after)) as (Hv & Ht & Hf).
  destruct (ScanFiles_fields json_Unmarshal_PackageJSON
              json_Unmarshal_PackageLockJSON json_Unmarshal_Scripts s
              (before ++ after)) as (Hv' & Ht' & Hf').
  unfold result, others. rewrite Hv, Ht, Hf, Hv', Ht', Hf'.
  rewrite !bind_app. cbn [mbind list_bind]. rewrite Hnil.
  cbn [omap list_omap app]. split; [done|]. split; [done|].
  rewrite !length_app. cbn [length]. lia.
Qed.

Lemma parseFile_noDev (s : Scanner) (file : PackageFile) (pkgs : list Package) :
  includeDev s = false ->
  parseFile json_Unmarshal_PackageJSON json_Unmarshal_PackageLockJSON s file
  = Ok pkgs ->
  Forall (fun p => IsDev p = false) pkgs.
Proof.
  intros Hd. unfold parseFile. rewrite Hd.
  destruct (String.eqb _ "package.json").
  - unfold ParsePackageJSON.
    destruct (json_Unmarshal_PackageJSON _) as [pkg|]; [|done].
    intros [= <-]. cbn [app].
    repeat (apply Forall_app; split);
      (eapply Forall_impl; [apply directPackages_fields|]); by intros p [? _].
  - destruct (String.eqb _ "package-lock.json").
    + intros [seen H]%ParsePackageLock_dedup.
      by apply (dedupInv_records false seen pkgs H).
    + intros [= <-]. constructor.
Qed.

(** X26: when the scanner excludes development dependencies, no
    finding of [ScanFiles] is for a record marked as
    development-only. *)
Theorem ScanFiles_excludes_dev (s : Scanner) (files : list PackageFile) :
  includeDev s = false ->
  Forall (fun v => IsDev (vpPackage v) = false)
         (VulnerablePackages
            (ScanFiles json_Unmarshal_PackageJSON
                       json_Unmarshal_PackageLockJSON
                       json_Unmarshal_Scripts s files)).
Proof.
  intros Hd.
  rewrite (proj1 (ScanFiles_fields _ _ json_Unmarshal_Scripts s files)).
  apply Forall_forall. intros v.
  rewrite list_elem_of_bind.
  intros (file & (pkg & Hpkg & Hv)%list_elem_of_omap & Hfile).
  unfold filePackages in Hpkg.
  destruct (parseFile _ _ s file) as [pkgs|] eqn:E; [|by apply elem_of_nil in Hpkg].
  pose proof (parseFile_noDev s file pkgs Hd E) as Hall.
  rewrite Forall_forall in Hall. unfold finding in Hv.
  destruct (Check _ _ _); [|done]. injection Hv as <-. by apply Hall.
Qed.

(** X27: the findings of [CheckPackageScripts] are exactly these: for
    a file whose path ends in package.json and does not contain
    package-lock and whose scripts decode, a lifecycle script whose
    command contains one of the patterns, with that script name,
    command and pattern and with the path and the repository of the
    file. *)
Theorem CheckPackageScripts_findings (s : Scanner) (files : list PackageFile)
    (m : MaliciousScript) :
  m ∈ CheckPackageScripts json_Unmarshal_Scripts s files
  <-> exists file scripts,
        file ∈ files
        /\ strings.HasSuffix (Path file) "package.json" = true
        /\ strings.Contains (Path file) "package-lock" = false
        /\ json_Unmarshal_Scripts (Content file) = Ok scripts
        /\ msScriptName m ∈ LifecycleScripts
        /\ scripts !! msScriptName m = Some (msCommand m)
        /\ msPattern m ∈ MaliciousScriptPatterns
        /\ strings.Contains (msCommand m) (msPattern m) = true
        /\ msFilePath m = Path file
        /\ msRepoName m = RepoName file.
Proof.
  unfold CheckPackageScripts. rewrite list_elem_of_bind. split.
  - intros (file & Hm & Hfile). exists file.
    destruct (strings.HasSuffix (Path file) "package.json");
      [|by apply elem_of_nil in Hm].
    destruct (strings.Contains (Path file) "package-lock");
      [by apply elem_of_nil in Hm|].
    cbn [negb orb] in Hm. unfold extractScripts in Hm.
    destruct (json_Unmarshal_Scripts (Content file)) as [scripts|];
      [|by apply elem_of_nil in Hm].
    exists scripts. unfold scriptFindings in Hm.
    apply list_elem_of_bind in Hm as (scriptName & Hm & Hname).
    destruct (scripts !! scriptName) as [command|] eqn:Ec;
      [|by apply elem_of_nil in Hm].
    apply list_elem_of_bind in Hm as (pattern & Hm & Hpattern).
    destruct (strings.Contains command pattern) eqn:Ep;
      [|by apply elem_of_nil in Hm].
    apply list_elem_of_singleton in Hm as ->. by cbn.
  - intros (file & scripts & Hfile & Hs & Hl & Hj & Hname & Hc & Hpat & Hp & Hf & Hr).
    exists file. split; [|done]. rewrite Hs, Hl. cbn [negb orb].
    unfold extractScripts. rewrite Hj. unfold scriptFindings.
    apply list_elem_of_bind. exists (msScriptName m). split; [|done].
    rewrite Hc. apply list_elem_of_bind. exists (msPattern m). split; [|done].
    rewrite Hp. apply list_elem_of_singleton. destruct m. cbn in *. by subst.
Qed.

(** X28: from the indicator list to the report: when an accepted
    record of the CSV expands to a name and a version, and the manifest
    of a file named package.json declares that name as a production
    dependency with a range that cleans to that version, [ScanFiles]
    reports the package for that file. *)
Theorem ScanFiles_reports_listed (header : list string)
    (rest : list (result (list string))) (indicators : VulnDB) (e : VulnEntry)
    (includeDev : bool) (files : list PackageFile) (file : PackageFile)
    (pkg : PackageJSON.t) (range : string) :
  parseCSV (Ok header :: rest) = Ok indicators ->
  e ∈ csvEntries header rest ->
  file ∈ files ->
  path.Base (Path file) = "package.json" ->
  json_Unmarshal_PackageJSON (Content file) = Ok pkg ->
  (PackageName e, range) ∈ PackageJSON.Dependencies pkg ->
  cleanVersion range = PackageVersion e ->
  exists v,
    v ∈ VulnerablePackages
          (ScanFiles json_Unmarshal_PackageJSON json_Unmarshal_PackageLockJSON
                     json_Unmarshal_Scripts (NewScanner indicators includeDev)
                     files)
    /\ Name (vpPackage v) = PackageName e
    /\ Version (vpPackage v) = PackageVersion e
    /\ IsDev (vpPackage v) = false
    /\ vpFilePath v = Path file.
Proof.
  intros Hdb He Hfile Hbase Hpkg Hdep Hver.
  destruct (csvEntries_present _ _ _ _ Hdb He) as [found Hfound].
  exists {| vpPackage := {| Name := PackageName e; Version := PackageVersion e;
                            IsDev := false; Source := "direct" |};
            vpVulnEntry := found; vpFilePath := Path file;
            vpRepoName := RepoName file |}.
  split; [|done]. apply ScanFiles_elem. cbn [vpPackage vpVulnEntry vpFilePath
    vpRepoName Name Version].
  eexists file, _. split; [done|]. split.
  { unfold parseFile. rewrite Hbase. cbn [String.eqb Ascii.eqb Bool.eqb].
    unfold ParsePackageJSON. rewrite Hpkg. reflexivity. }
  split; [|done]. apply elem_of_app. left. unfold directPackages.
  apply list_elem_of_fmap. exists (PackageName e, range). split; [|done].
  by rewrite Hver.
Qed.

End ScanTheorems.

(** X29: [CheckWorkflows] reports exactly the workflow files whose
    content contains the pattern, each once and with its own path and
    repository; wherever the pattern stands in the content, the file is
    reported. *)
Theorem CheckWorkflows_findings (s : Scanner) (workflows : list WorkflowFile) :
  (forall m,
     m ∈ CheckWorkflows s workflows
     <-> exists wf,
           wf ∈ workflows
           /\ strings.Contains (wfContent wf) MaliciousWorkflowPattern = true
           /\ m = {| mwFilePath := wfPath wf; mwRepoName := wfRepoName wf;
                     mwPattern := MaliciousWorkflowPattern |})
  /\ (length (CheckWorkflows s workflows) <= length workflows)%nat
  /\ (forall repo path before after,
        CheckWorkflows s
          [{| wfRepoName := repo; wfPath := path;
              wfContent := before +:+ MaliciousWorkflowPattern +:+ after |}]
        = [{| mwFilePath := path; mwRepoName := repo;
              mwPattern := MaliciousWorkflowPattern |}]).
Proof.
  split; [|split].
  - intros m. unfold CheckWorkflows. rewrite list_elem_of_bind. split.
    + intros (wf & Hm & Hwf). exists wf.
      destruct (strings.Contains _ _); [|by apply elem_of_nil in Hm].
      by apply list_elem_of_singleton in Hm.
    + intros (wf & Hwf & Hc & ->). exists wf. rewrite Hc. split; [|done].
      by apply list_elem_of_singleton.
  - unfold CheckWorkflows. induction workflows as [|wf workflows IH]; [done|].
    cbn [mbind list_bind]. rewrite length_app. cbn [length].
    destruct (strings.Contains _ _); cbn [length]; lia.
  - intros repo path before after. unfold CheckWorkflows.
    cbn [mbind list_bind wfContent wfPath wfRepoName].
    by rewrite (Contains_app before MaliciousWorkflowPattern after
                  MaliciousWorkflowPattern eq_refl).
Qed.

Lemma ScanFiles_continues_witness :
  let decode := fun content : string =>
    if String.eqb content "{ invalid json }"
    then Err "invalid character 'i' looking for beginning of object key string"
    else Ok (PackageJSON.mk "valid" "" [("test-muaddib-vulnerable", "1.0.0")]
               [] [] []) in
  let indicators :=
    Add NewVulnDB (mkVulnEntry "test-muaddib-vulnerable" "1.0.0" "1.0.0") in
  let s := NewScanner indicators true in
  let bad := {| RepoName := "test-repo"; Path := "package.json";
                Content := "{ invalid json }" |} in
  let good := {| RepoName := "test-repo"; Path := "other/package.json";
                 Content := "{}" |} in
  let result :=
    ScanFiles decode (fun _ => Err "") (fun _ => Err "") s [bad; good] in
  length (VulnerablePackages result) = 1%nat
  /\ FilesScanned result = 2%nat
  /\ VulnerablePackages result
     = VulnerablePackages
         (ScanFiles decode (fun _ => Err "") (fun _ => Err "") s [good]).
Proof.
  intros decode indicators s bad good result.
  split; [vm_compute; reflexivity|]. split; [vm_compute; reflexivity|].
  exact (proj1 (ScanFiles_continues decode (fun _ => Err "") (fun _ => Err "")
                  s [] [good] bad eq_refl)).
Defined.

Lemma ScanFiles_excludes_dev_witness :
  let indicators :=
    Add NewVulnDB (mkVulnEntry "test-muaddib-vulnerable" "1.0.0" "1.0.0") in
  let decode := fun _ : string =>
    Ok (PackageJSON.mk "test-project" "" [("test-muaddib-vulnerable", "1.0.0")]
          [("test-muaddib-vulnerable", "1.0.0")] [] []) in
  let file := {| RepoName := "test-repo"; Path := "package.json";
                 Content := "{}" |} in
  map (fun v => IsDev (vpPackage v))
      (VulnerablePackages
         (ScanFiles decode (fun _ => Err "") (fun _ => Err "")
                    (NewScanner indicators true) [file]))
  = [false; true]
  /\ Forall (fun v => IsDev (vpPackage v) = false)
            (VulnerablePackages
               (ScanFiles decode (fun _ => Err "") (fun _ => Err "")
                          (NewScanner indicators false) [file])).
Proof.
  intros indicators decode file. split; [vm_compute; reflexivity|].
  exact (ScanFiles_excludes_dev decode (fun _ => Err "") (fun _ => Err "")
           (NewScanner indicators false) [file] eq_refl).
Defined.

Lemma ScanFiles_reports_listed_witness :
  let header := ["package_name"; "package_versions"; "sources"] in
  let rest := [Ok ["test-muaddib-vulnerable"; "1.0.0, 1.0.1"; "test"]] in
  let decode := fun _ : string =>
    Ok (PackageJSON.mk "test-project" ""
          [("test-muaddib-vulnerable", "^1.0.1")] [] [] []) in
  let file := {| RepoName := "test-repo"; Path := "app/package.json";
                 Content := "{}" |} in
  exists indicators v,
    parseCSV (Ok header :: rest) = Ok indicators
    /\ v ∈ VulnerablePackages
             (ScanFiles decode (fun _ => Err "") (fun _ => Err "")
                        (NewScanner indicators false) [file])
    /\ Name (vpPackage v) = "test-muaddib-vulnerable"
    /\ Version (vpPackage v) = "1.0.1".
Proof.
  intros header rest decode file.
  pose (e := mkVulnEntry "test-muaddib-vulnerable" "1.0.1" "1.0.0, 1.0.1").
  pose (indicators :=
          foldl Add NewVulnDB
            [mkVulnEntry "test-muaddib-vulnerable" "1.0.0" "1.0.0, 1.0.1"; e]).
  assert (parseCSV (Ok header :: rest) = Ok indicators) as Hdb
    by (vm_compute; reflexivity).
  assert (e ∈ csvEntries header rest) as He.
  { assert (csvEntries header rest
            = [mkVulnEntry "test-muaddib-vulnerable" "1.0.0" "1.0.0, 1.0.1"; e])
      as -> by (vm_compute; reflexivity).
    right. left. }
  assert (file ∈ [file]) as Hfile by left.
  assert (("test-muaddib-vulnerable", "^1.0.1")
            ∈ [("test-muaddib-vulnerable", "^1.0.1")]) as Hdep by left.
  destruct (ScanFiles_reports_listed decode (fun _ => Err "") (fun _ => Err "")
              header rest indicators e false [file] file
              (PackageJSON.mk "test-project" ""
                 [("test-muaddib-vulnerable", "^1.0.1")] [] [] [])
              "^1.0.1" Hdb He Hfile eq_refl eq_refl Hdep eq_refl)
    as (v & Hv & Hn & Hver & _).
  exists indicators, v.
  split; [exact Hdb|]. split; [exact Hv|]. split; [exact Hn|exact Hver].
Defined.

(** ** The tables of the repository's tests, on the model *)

Example TestParsePnpmPackageKey :
  map parsePnpmPackageKey
      ["/pkg@1.0.0"; "/pkg/1.0.0"; "/@scope/pkg@1.0.0"; "/@scope/pkg/1.0.0";
       "/test-muaddib-pkg@2.3.4"; "pkg@1.0.0"; "@scope/pkg@1.0.0";
       "/test-muaddib-pkg@1.0.0(@scope/peer@2.0.0)";
       "/@test-muaddib/scoped@1.0.0_peer@2.0.0";
       "/test-muaddib-pkg@1.0.0(peer1@2.0.0)(peer2@3.0.0)"]
  = [("pkg", "1.0.0"); ("pkg", "1.0.0"); ("@scope/pkg", "1.0.0");
     ("@scope/pkg", "1.0.0"); ("test-muaddib-pkg", "2.3.4"); ("pkg", "1.0.0");
     ("@scope/pkg", "1.0.0"); ("test-muaddib-pkg", "1.0.0");
     ("@test-muaddib/scoped", "1.0.0"); ("test-muaddib-pkg", "1.0.0")].
Proof. reflexivity. Qed.

Example TestStripPnpmPeerDepSuffix :
  map stripPnpmPeerDepSuffix
      ["1.0.0"; "1.0.0-beta.1"; "1.0.0(peer@2.0.0)"; "1.0.0(@scope/peer@2.0.0)";
       "1.0.0(peer1@2.0.0)(peer2@3.0.0)"; "1.0.0_peer@2.0.0";
       "1.0.0_@scope/peer@2.0.0"; "1.0.0_beta"]
  = ["1.0.0"; "1.0.0-beta.1"; "1.0.0"; "1.0.0"; "1.0.0"; "1.0.0"; "1.0.0";
     "1.0.0_beta"].
Proof. reflexivity. Qed.

Example TestCleanVersion :
  map cleanVersion
      ["1.0.0"; "^1.0.0"; "~1.0.0"; ">=1.0.0"; ">1.0.0"; "<=1.0.0"; "<1.0.0";
       "=1.0.0"; "1.0.0 - 2.0.0"; " 1.0.0 "]
  = repeat "1.0.0" 10.
Proof. reflexivity. Qed.

Example TestExtractPackageName :
  map extractPackageName
      ["node_modules/lodash"; "node_modules/@types/node";
       "node_modules/foo/node_modules/bar";
       "node_modules/@scope/pkg/node_modules/nested";
       "node_modules/@scope/pkg/node_modules/@other/nested"]
  = ["lodash"; "@types/node"; "bar"; "nested"; "@other/nested"].
Proof. reflexivity. Qed.

Example TestExtractYarnPackageName :
  map extractYarnPackageName
      ["pkg@^1.0.0"; "@scope/pkg@^1.0.0"; "test-muaddib-pkg@~2.0.0";
       "@test-muaddib/scoped@^3.0.0"; "pkg@npm:other@1.0.0"]
  = ["pkg"; "@scope/pkg"; "test-muaddib-pkg"; "@test-muaddib/scoped"; "pkg"].
Proof. reflexivity. Qed.

Example TestParseVersionList :
  map parseVersionList
      ["1.0.0"; "1.0.0, 1.0.1"; "1.0.0, 1.0.1, 1.0.2"; "1.0.0,1.0.1";
       " 1.0.0 , 1.0.1 "; "1.0.0, , 1.0.1"; ""]
  = [["1.0.0"]; ["1.0.0"; "1.0.1"]; ["1.0.0"; "1.0.1"; "1.0.2"];
     ["1.0.0"; "1.0.1"]; ["1.0.0"; "1.0.1"]; ["1.0.0"; "1.0.1"]; []].
Proof. reflexivity. Qed.

Example TestParseNpmVersionSpec :
  map parseNpmVersionSpec
      ["= 1.0.0"; "=1.0.0"; "= 1.0.0 || = 2.0.0";
       "= 1.0.0 || = 2.0.0 || = 3.0.0"; "=1.0.0||=2.0.0"; "= 1.0.0||= 2.0.0";
       "  = 1.0.0  ||  = 2.0.0  "; ""; "="]
  = [["1.0.0"]; ["1.0.0"]; ["1.0.0"; "2.0.0"]; ["1.0.0"; "2.0.0"; "3.0.0"];
     ["1.0.0"; "2.0.0"]; ["1.0.0"; "2.0.0"]; ["1.0.0"; "2.0.0"]; []; []].
Proof. reflexivity. Qed.

Example TestIsYarnBerryFormat :
  map isYarnBerryFormat
      [ strings.Join ["# yarn lockfile v1"; ""; "test-muaddib-pkg@^1.0.0:";
                      "  version " +:+ quoted "1.0.0"; ""] nl;
        strings.Join ["__metadata:"; "  version: 8"; "";
                      quoted "pkg@npm:^1.0.0" +:+ ":"; "  version: 1.0.0"; ""] nl;
        strings.Join [quoted "test-muaddib-pkg@npm:^1.0.0" +:+ ":";
                      "  version: 1.0.0"; ""] nl;
        strings.Join ["# yarn lockfile v1"; "";
                      "alias-pkg@npm:actual-pkg@^1.0.0:";
                      "  version " +:+ quoted "1.0.0"; ""] nl ]
  = [false; true; true; false].
Proof. reflexivity. Qed.

Example TestParseYarnLock_BasicPackages :
  ParseYarnLock
    (strings.Join
       ["# THIS IS AN AUTOGENERATED FILE. DO NOT EDIT THIS FILE DIRECTLY.";
        "# yarn lockfile v1"; "";
        "test-muaddib-pkg-a@^1.0.0:";
        "  version " +:+ quoted "1.0.0";
        "  resolved " +:+ quoted "https://registry.yarnpkg.com/a.tgz"; "";
        quoted "@test-muaddib/scoped@^2.0.0" +:+ ":";
        "  version " +:+ quoted "2.0.0"; "";
        "test-muaddib-multi@^1.0.0, test-muaddib-multi@~1.0.5:";
        "  version " +:+ quoted "1.0.5"; ""] nl)
    false
  = Ok [ mkPackage "test-muaddib-pkg-a" "1.0.0" false "transitive";
         mkPackage "@test-muaddib/scoped" "2.0.0" false "transitive";
         mkPackage "test-muaddib-multi" "1.0.5" false "transitive" ].
Proof. by vm_compute. Qed.

Example TestParseCSV_WizFormat :
  exists db,
    parseCSV [Ok ["Package"; "Version"];
              Ok ["test-muaddib-wiz-pkg-1"; "= 1.0.0"];
              Ok ["test-muaddib-wiz-pkg-2"; "= 1.0.0 || = 2.0.0"];
              Ok ["@test-muaddib/wiz-scoped"; "= 3.0.0"]] = Ok db
    /\ Size db = 4%nat
    /\ is_Some (Check db "test-muaddib-wiz-pkg-2" "2.0.0")
    /\ is_Some (Check db "@test-muaddib/wiz-scoped" "3.0.0").
Proof.
  eexists. split; [reflexivity|]. vm_compute.
  split; [reflexivity|]. split; by eexists.
Qed.

Example TestCheck_ExactVersionMatch :
  exists db,
    parseCSV [Ok ["package_name"; "package_versions"; "sources"];
              Ok ["test-muaddib-vulnerable-pkg-1"; "1.0.0"; "test"]] = Ok db
    /\ map (fun v => bool_decide (is_Some (Check db "test-muaddib-vulnerable-pkg-1" v)))
           ["1.0.0"; "1.0.1"; "1.0"; "1.0.0.0"; "v1.0.0"; " 1.0.0"; "1.0.0 "; ""]
       = [true; false; false; false; false; false; false; false].
Proof. eexists. split; [reflexivity|]. vm_compute. reflexivity. Qed.

Example TestParseCSV_FallbackToPositionalColumns :
  parseCSVWarning [Ok ["wrong_column"; "also_wrong"; "sources"];
                   Ok ["test-muaddib-fallback-pkg"; "1.0.0"; "test"]]
  = Some (Some ("CSV headers not recognized (found: [wrong_column also_wrong sources]). Assuming column 1 = package name, column 2 = version. Sample data:"
                +:+ nl +:+ "  test-muaddib-fallback-pkg @ 1.0.0"))
  /\ exists db,
       parseCSV [Ok ["wrong_column"; "also_wrong"; "sources"];
                 Ok ["test-muaddib-fallback-pkg"; "1.0.0"; "test"]] = Ok db
       /\ Size db = 1%nat
       /\ is_Some (Check db "test-muaddib-fallback-pkg" "1.0.0").
Proof.
  split; [reflexivity|]. eexists. split; [reflexivity|]. vm_compute.
  split; [reflexivity|]. by eexists.
Qed.

Example TestParseCSV_PartialFallback :
  usedFallback ["package_name"; "wrong_version_col"; "sources"] = true
  /\ findColumns ["package_name"; "wrong_version_col"; "sources"] = (0, 1)
  /\ parseCSVWarning [Ok ["package_name"; "package_versions"; "sources"];
                      Ok ["test-muaddib-partial-pkg"; "2.0.0"; "test"]]
     = Some None.
Proof. by vm_compute. Qed.

Example TestScanner_CheckWorkflows :
  let s := NewScanner NewVulnDB true in
  CheckWorkflows s
    [ {| wfRepoName := "test-org/test-repo";
         wfPath := ".github/workflows/discussion.yaml";
         wfContent :=
           strings.Join
             ["name: Discussion Handler"; "jobs:"; "  handle:";
              "    steps:";
              "      - run: echo ${{ github.event.discussion.body }}"; ""]
             nl |};
      {| wfRepoName := "test-org/test-repo";
         wfPath := ".github/workflows/ci.yaml";
         wfContent := strings.Join ["name: CI"; "      - run: npm test"; ""] nl |} ]
  = [ {| mwFilePath := ".github/workflows/discussion.yaml";
         mwRepoName := "test-org/test-repo";
         mwPattern := MaliciousWorkflowPattern |} ]
  /\ CheckWorkflows s [] = [].
Proof. by vm_compute. Qed.

(** [unicode.ToLower] on runes of the ranges of its table. *)
Example TestUnicodeToLower :
  map unicode.ToLower
      [0x41; 0x5A; 0x61; 0xC0; 0xD7; 0xDE; 0xDF; 0x100; 0x101; 0x130; 0x131;
       0x178; 0x181; 0x1C4; 0x1C5; 0x1C6; 0x3A3; 0x3C2; 0x410; 0x10A0;
       0x13A0; 0x1C90; 0x1E9E; 0x1F88; 0x2126; 0x212A; 0x212B; 0x2160;
       0x24B6; 0x2C2F; 0xA7C0; 0xFF21; 0x10400; 0x10570; 0x1E900; 0xFFFD;
       0x4E2D]
  = [0x61; 0x7A; 0x61; 0xE0; 0xD7; 0xFE; 0xDF; 0x101; 0x101; 0x69; 0x131;
     0xFF; 0x253; 0x1C6; 0x1C6; 0x1C6; 0x3C3; 0x3C2; 0x430; 0x2D00;
     0xAB70; 0x10D0; 0xDF; 0x1F80; 0x3C9; 0x6B; 0xE5; 0x2170;
     0x24D0; 0x2C5F; 0xA7C1; 0xFF41; 0x10428; 0x10597; 0x1E922; 0xFFFD;
     0x4E2D].
Proof. by vm_compute. Qed.

(** The header names are lower-cased by [strings.ToLower], which maps
    the Kelvin sign (U+212A, here in UTF-8) to [k]: the second column
    is a name column. *)
Example TestFindColumns_KelvinSign :
  strings.ToLower (strings.bytes [80; 65; 67; 226; 132; 170; 65; 71; 69]%nat)
  = "package"
  /\ findColumns ["x"; strings.bytes [80; 65; 67; 226; 132; 170; 65; 71; 69]%nat;
                  "version"] = (1, 2).
Proof. by vm_compute. Qed.

(** [parseCSV] over a reader: a line that does not parse is skipped,
    and the call returns at io.EOF. *)
Example TestParseCSV_Reader :
  let reader : csvReader := fun n =>
    match n with
    | 0%nat => Some (Ok ["Package"; "Version"])
    | 1%nat => Some (Err "bare quote in non-quoted field")
    | 2%nat => Some (Ok ["pkg"; "= 1.0.0"])
    | _ => None
    end in
  parseCSV_run 2 reader = Running
  /\ parseCSV_run 3 reader
     = Returned (None, Ok (Add NewVulnDB (mkVulnEntry "pkg" "1.0.0" "= 1.0.0"))).
Proof. by vm_compute. Qed.
